(** * rx-utils: the single-flight cache and the keyed stream registry

    A shallow embedding of [CacheService], [StreamService] and
    [LogServiceBase] together with the part of RxJS they are built on
    (Subject, defer, tap, catchError, throttleTime, mergeMap, takeUntil,
    shareReplay, race), and the properties of the specification settled
    against it, followed by further properties read off the code.

    JavaScript runs these classes on one thread: every method body and
    every observer callback runs to completion before the next one
    starts.  The embedding therefore is a state machine whose steps are
    the method calls of the application, the subscriptions to the
    returned observables, and the notifications of the environment (a
    fallback or query observable emitting, a timer firing). The classes
    call functions of the application (a fallback, a query function, a
    log callback); such a call returns or throws, and which of the two is
    part of the step. *)

From Stdlib Require Import ZArith.
From stdpp Require Import gmap strings list.

Local Open Scope Z_scope.

(** ** Values and notifications *)

(** The [any] of the sources: the JavaScript values a cache or a stream
    carries. An object is known by its reference. *)
Inductive any :=
| Undefined
| Null
| Bool (b : bool)
| Num (n : Z)
| Str (s : string)
| Obj (ref : nat).

(** What an observer can be told. *)
Inductive Notification :=
| Next (v : any)
| Error (e : any)
| Complete.

(** Observers are the subscribers of the application, known by a number;
    a run records which observer was told what, oldest first. *)
Definition Delivery : Type := nat * Notification.

Definition tell (o : nat) (ns : list Notification) : list Delivery :=
  map (pair o) ns.

Definition tell_all (os : list nat) (n : Notification) : list Delivery :=
  map (fun o => (o, n)) os.

(** The notifications observer [o] has received, oldest first. *)
Definition inbox (o : nat) (ds : list Delivery) : list Notification :=
  map snd (filter (fun d => fst d = o) ds).

(** ** RxJS Subject *)

Record Subject := mkSubject {
  observers : list nat;
  isStopped : bool;
  hasError : bool;
  thrownError : any;
}.

Definition new_Subject : Subject :=
  {| observers := []; isStopped := false; hasError := false; thrownError := Null |}.

(** ** CacheService (src/LogServiceBase.ts, second document) *)

Module CacheService.

Record CacheContent := mkCacheContent {
  timestamp : Z;
  value : any;
}.

Definition DEFAULT_LIFE_TIME : Z := 300000.

(** A subscription of the pipeline built inside [defer] to the observable
    the fallback returned: the closure variables [key] and [inFlight], and
    the caller that subscribed. *)
Record Fetch := mkFetch {
  f_key : string;
  f_inFlight : nat;
  f_subscriber : nat;
  f_closed : bool;
}.

(** The two maps of the class, then the objects they refer to: the heap
    of Subjects (a reference is an index), the open fetches, and the two
    logs of a run: the fallbacks that were called and the notifications
    that reached the callers. *)
Record state := mkState {
  cache : gmap string CacheContent;
  inFlightObservables : gmap string nat;
  subjects : list Subject;
  fetches : list Fetch;
  invoked : list nat;
  delivered : list Delivery;
}.

Definition empty : state :=
  {| cache := ∅; inFlightObservables := ∅; subjects := []; fetches := [];
     invoked := []; delivered := [] |}.

Definition with_cache (f : gmap string CacheContent → gmap string CacheContent) (st : state) : state :=
  {| cache := f (cache st); inFlightObservables := inFlightObservables st;
     subjects := subjects st; fetches := fetches st;
     invoked := invoked st; delivered := delivered st |}.

Definition with_inFlight (f : gmap string nat → gmap string nat) (st : state) : state :=
  {| cache := cache st; inFlightObservables := f (inFlightObservables st);
     subjects := subjects st; fetches := fetches st;
     invoked := invoked st; delivered := delivered st |}.

Definition with_subjects (f : list Subject → list Subject) (st : state) : state :=
  {| cache := cache st; inFlightObservables := inFlightObservables st;
     subjects := f (subjects st); fetches := fetches st;
     invoked := invoked st; delivered := delivered st |}.

Definition with_fetches (f : list Fetch → list Fetch) (st : state) : state :=
  {| cache := cache st; inFlightObservables := inFlightObservables st;
     subjects := subjects st; fetches := f (fetches st);
     invoked := invoked st; delivered := delivered st |}.

Definition call_fallback (fb : nat) (st : state) : state :=
  {| cache := cache st; inFlightObservables := inFlightObservables st;
     subjects := subjects st; fetches := fetches st;
     invoked := invoked st ++ [fb]; delivered := delivered st |}.

Definition deliver (ds : list Delivery) (st : state) : state :=
  {| cache := cache st; inFlightObservables := inFlightObservables st;
     subjects := subjects st; fetches := fetches st;
     invoked := invoked st; delivered := delivered st ++ ds |}.

(** *** Subject.next, Subject.error, Subject.complete, Subject.subscribe *)

Definition subject_next (s : nat) (v : any) (st : state) : state :=
  match subjects st !! s with
  | Some subj =>
      if isStopped subj then st
      else deliver (tell_all (observers subj) (Next v)) st
  | None => st
  end.

Definition subject_error (s : nat) (e : any) (st : state) : state :=
  match subjects st !! s with
  | Some subj =>
      if isStopped subj then st
      else
        deliver (tell_all (observers subj) (Error e))
          (with_subjects
             (<[s := {| observers := []; isStopped := true;
                        hasError := true; thrownError := e |}]>) st)
  | None => st
  end.

Definition subject_complete (s : nat) (st : state) : state :=
  match subjects st !! s with
  | Some subj =>
      if isStopped subj then st
      else
        deliver (tell_all (observers subj) Complete)
          (with_subjects
             (<[s := {| observers := []; isStopped := true;
                        hasError := hasError subj;
                        thrownError := thrownError subj |}]>) st)
  | None => st
  end.

Definition subject_subscribe (s : nat) (o : nat) (st : state) : state :=
  match subjects st !! s with
  | Some subj =>
      if hasError subj then deliver (tell o [Error (thrownError subj)]) st
      else if isStopped subj then deliver (tell o [Complete]) st
      else
        with_subjects
          (<[s := {| observers := observers subj ++ [o];
                     isStopped := isStopped subj;
                     hasError := hasError subj;
                     thrownError := thrownError subj |}]>) st
  | None => st
  end.

(** *** The methods of the class

    [Date.now()] is the argument [now] of every method that reads the
    clock. *)

Definition set (key : string) (v : any) (now : Z) (st : state) : state :=
  with_cache (<[key := {| timestamp := now; value := v |}]>) st.

Definition has (key : string) (st : state) : bool :=
  bool_decide (is_Some (cache st !! key)).

Definition collect (key : string) (maxLifeTime : option Z) (now : Z) (st : state) : state :=
  let maxLifeTime := default DEFAULT_LIFE_TIME maxLifeTime in
  match cache st !! key with
  | Some cached =>
      if timestamp cached + maxLifeTime <? now
      then with_cache (delete key) st
      else st
  | None => st
  end.

Definition validCachedValue (key : string) (maxLifeTime : Z) (now : Z) (st : state)
  : option CacheContent * state :=
  match cache st !! key with
  | Some cached =>
      if timestamp cached + maxLifeTime <? now
      then (None, with_cache (delete key) st)
      else (Some cached, st)
  | None => (None, st)
  end.

(** The observables [get] returns. [Defer] is the closure handed to
    [defer]: it has run nothing yet. *)
Inductive Observable :=
| Of (v : any)
| InFlight (s : nat)
| Defer (key : string) (fallback : nat)
| ThrowError (e : any).

Definition missing_fallback : any :=
  Str "You must offer the fallback observable, if the key is not in cache.".

(** A fallback is a function object, known by a number; [None] is the
    omitted argument. *)
Definition get (key : string) (fallback : option nat) (maxLifeTime : option Z)
    (now : Z) (st : state) : Observable * state :=
  let maxLifeTime := default DEFAULT_LIFE_TIME maxLifeTime in
  let '(cached, st) := validCachedValue key maxLifeTime now st in
  match cached with
  | Some cached => (Of (value cached), st)
  | None =>
      match inFlightObservables st !! key with
      | Some s => (InFlight s, st)
      | None =>
          match fallback with
          | Some fb => (Defer key fb, st)
          | None => (ThrowError missing_fallback, st)
          end
      end
  end.

(** Subscribing to what [get] returned. For [Defer] this is where the body
    of the closure runs. The call [fallback()] comes first and has two
    outcomes, which the fallback decides: it returns an observable or it
    throws. Here it returns: a new Subject is put in the in-flight map,
    and the piped observable is subscribed, which opens the fetch number
    [length (fetches st)]. [subscribe_throws] is the other outcome. *)
Definition subscribe (obs : Observable) (o : nat) (st : state) : state :=
  match obs with
  | Of v => deliver (tell o [Next v; Complete]) st
  | ThrowError e => deliver (tell o [Error e]) st
  | InFlight s => subject_subscribe s o st
  | Defer key fb =>
      let st := call_fallback fb st in
      let inFlight := length (subjects st) in
      let st := with_subjects (fun l => l ++ [new_Subject]) st in
      let st := with_inFlight (<[key := inFlight]>) st in
      with_fetches
        (fun l => l ++ [{| f_key := key; f_inFlight := inFlight;
                           f_subscriber := o; f_closed := false |}]) st
  end.

(** Subscribing to [Defer key fb] when the call [fallback()] throws [e]:
    the lines after the call do not run, so no Subject is made and
    nothing is put in the in-flight map; [defer] hands the error to the
    subscriber. *)
Definition subscribe_throws (key : string) (fb : nat) (e : any) (o : nat)
    (st : state) : state :=
  deliver (tell o [Error e]) (call_fallback fb st).

Definition close_fetch (i : nat) (st : state) : state :=
  with_fetches
    (alter (fun f => {| f_key := f_key f; f_inFlight := f_inFlight f;
                        f_subscriber := f_subscriber f; f_closed := true |}) i) st.

(** The observable a fallback returned tells fetch [i] something: the
    [tap] and [catchError] callbacks of [get] run, then the caller that
    subscribed is told. *)
Definition source_emit (i : nat) (n : Notification) (now : Z) (st : state) : state :=
  match fetches st !! i with
  | Some f =>
      if f_closed f then st
      else
        match n with
        | Next v =>
            let st := set (f_key f) v now st in
            let st := subject_next (f_inFlight f) v st in
            let st := subject_complete (f_inFlight f) st in
            let st := with_inFlight (delete (f_key f)) st in
            deliver (tell (f_subscriber f) [Next v]) st
        | Error e =>
            let st := subject_error (f_inFlight f) e st in
            let st := subject_complete (f_inFlight f) st in
            let st := with_inFlight (delete (f_key f)) st in
            deliver (tell (f_subscriber f) [Error e]) (close_fetch i st)
        | Complete =>
            deliver (tell (f_subscriber f) [Complete]) (close_fetch i st)
        end
  | None => st
  end.

(** [cache.get(key, fallback, maxLifeTime).subscribe(o)] in one go. *)
Definition get_subscribe (key : string) (fallback : option nat)
    (maxLifeTime : option Z) (now : Z) (o : nat) (st : state) : state :=
  let '(obs, st) := get key fallback maxLifeTime now st in
  subscribe obs o st.

(** One step of a run of the cache. *)
Inductive Op :=
| OpGet (key : string) (fallback : option nat) (maxLifeTime : option Z) (now : Z)
| OpSubscribe (obs : Observable) (o : nat)
| OpSubscribeThrows (key : string) (fallback : nat) (e : any) (o : nat)
| OpSet (key : string) (v : any) (now : Z)
| OpHas (key : string)
| OpCollect (key : string) (maxLifeTime : option Z) (now : Z)
| OpSource (i : nat) (n : Notification) (now : Z).

Definition step (op : Op) (st : state) : state :=
  match op with
  | OpGet key fb ttl now => snd (get key fb ttl now st)
  | OpSubscribe obs o => subscribe obs o st
  | OpSubscribeThrows key fb e o => subscribe_throws key fb e o st
  | OpSet key v now => set key v now st
  | OpHas key => st
  | OpCollect key ttl now => collect key ttl now st
  | OpSource i n now => source_emit i n now st
  end.

(** A caller of [get]: the arguments it passes and the observer it
    subscribes at once to what it gets. *)
Record Caller := mkCaller {
  c_fallback : option nat;
  c_maxLifeTime : option Z;
  c_now : Z;
  c_observer : nat;
}.

Definition call (key : string) (st : state) (c : Caller) : state :=
  get_subscribe key (c_fallback c) (c_maxLifeTime c) (c_now c) (c_observer c) st.

Definition calls (key : string) (cs : list Caller) (st : state) : state :=
  foldl (call key) st cs.

(** The fetch [i] for [key] is in flight on Subject [s] for the caller
    [o], the observers [obs] have joined it, and nothing is cached. *)
Definition in_flight (key : string) (i s o : nat) (obs : list nat) (st : state) : Prop :=
  cache st !! key = None ∧
  inFlightObservables st !! key = Some s ∧
  subjects st !! s
    = Some {| observers := obs; isStopped := false; hasError := false;
              thrownError := Null |} ∧
  fetches st !! i
    = Some {| f_key := key; f_inFlight := s; f_subscriber := o; f_closed := false |}.

End CacheService.

(** ** StreamService (src/StreamService.ts) *)

Module StreamService.

(** What [throw new Error(message)] throws. *)
Inductive exn := JsError (message : string).

(** *** The JavaScript Map of the class

    A Map iterates in insertion order and [clearAll] iterates it, so the
    map is an association list: [Map_set] on a new key appends. *)
Fixpoint Map_get {A} (key : string) (m : list (string * A)) : option A :=
  match m with
  | [] => None
  | (k, a) :: m => if bool_decide (k = key) then Some a else Map_get key m
  end.

Definition Map_has {A} (key : string) (m : list (string * A)) : bool :=
  bool_decide (is_Some (Map_get key m)).

Fixpoint Map_set {A} (key : string) (a : A) (m : list (string * A)) : list (string * A) :=
  match m with
  | [] => [(key, a)]
  | (k, b) :: m => if bool_decide (k = key) then (k, a) :: m else (k, b) :: Map_set key a m
  end.

Definition Map_delete {A} (key : string) (m : list (string * A)) : list (string * A) :=
  filter (fun kv => fst kv ≠ key) m.

(** *** The objects behind a handler

    [registerStream$] creates two Subjects, [update$] and [clear$], and
    the observable [stream$]; the three fields of a StreamHandler are
    closures over them. One [Pipeline] holds their state, and a handler
    or a [stream$] is a reference to it.

    - [connected]: shareReplay has subscribed [update$.pipe(...)], which
      it does when [stream$] gets its first subscriber and never undoes
      (no refCount). From then on [update$] and [clear$] have the pipeline
      as their observer; before, they have none.
    - [stopped]: takeUntil has completed the pipeline and with it the
      ReplaySubject of shareReplay.
    - [replay]: the buffer of that ReplaySubject, of size 1.
    - [stream_observers]: its observers. *)
Inductive Observer :=
| Subscriber (o : nat)
| RaceArm (r : nat).

Record Pipeline := mkPipeline {
  queryOnce : nat;
  updateThrottleTime : Z;
  connected : bool;
  stopped : bool;
  replay : option any;
  stream_observers : list Observer;
}.

(** A subscription of mergeMap to an observable [queryOnce] returned. *)
Record Query := mkQuery {
  q_stream : nat;
  q_closed : bool;
}.

(** A subscription to the [race] that [applyUpdate$] returned. *)
Record RaceSubscription := mkRace {
  r_stream : nat;
  r_subscriber : nat;
  r_closed : bool;
}.

(** The timers of the scheduler: the [timer(duration)] that ends a
    throttle window, the [timer(1)] of skipUntil and the [timer(waitFor)]
    of a race. *)
Inductive Timer :=
| ThrottleEnd (h : nat)
| RaceGate (r : nat)
| RaceTimeout (r : nat).

#[global] Instance Observer_eq_dec : EqDecision Observer.
Proof. solve_decision. Defined.

#[global] Instance Timer_eq_dec : EqDecision Timer.
Proof. solve_decision. Defined.

(** The map of the class; the heaps of pipelines, queries and races; the
    scheduler (pending timers by due time, and the clock); and the two
    logs of a run: the calls of [queryOnce] functions with their payload,
    and the notifications that reached the subscribers. *)
Record state := mkState {
  streams : list (string * nat);
  pipes : list Pipeline;
  queries : list Query;
  races : list RaceSubscription;
  timers : list (Z * Timer);
  now : Z;
  queried : list (nat * any);
  delivered : list Delivery;
}.

Definition empty : state :=
  {| streams := []; pipes := []; queries := []; races := []; timers := [];
     now := 0; queried := []; delivered := [] |}.

Definition with_streams (f : list (string * nat) → list (string * nat)) (st : state) : state :=
  {| streams := f (streams st); pipes := pipes st; queries := queries st;
     races := races st; timers := timers st; now := now st;
     queried := queried st; delivered := delivered st |}.

Definition with_pipes (f : list Pipeline → list Pipeline) (st : state) : state :=
  {| streams := streams st; pipes := f (pipes st); queries := queries st;
     races := races st; timers := timers st; now := now st;
     queried := queried st; delivered := delivered st |}.

Definition with_queries (f : list Query → list Query) (st : state) : state :=
  {| streams := streams st; pipes := pipes st; queries := f (queries st);
     races := races st; timers := timers st; now := now st;
     queried := queried st; delivered := delivered st |}.

Definition with_races (f : list RaceSubscription → list RaceSubscription) (st : state) : state :=
  {| streams := streams st; pipes := pipes st; queries := queries st;
     races := f (races st); timers := timers st; now := now st;
     queried := queried st; delivered := delivered st |}.

Definition with_timers (f : list (Z * Timer) → list (Z * Timer)) (st : state) : state :=
  {| streams := streams st; pipes := pipes st; queries := queries st;
     races := races st; timers := f (timers st); now := now st;
     queried := queried st; delivered := delivered st |}.

Definition with_now (f : Z → Z) (st : state) : state :=
  {| streams := streams st; pipes := pipes st; queries := queries st;
     races := races st; timers := timers st; now := f (now st);
     queried := queried st; delivered := delivered st |}.

Definition call_query (q : nat) (payload : any) (st : state) : state :=
  {| streams := streams st; pipes := pipes st; queries := queries st;
     races := races st; timers := timers st; now := now st;
     queried := queried st ++ [(q, payload)]; delivered := delivered st |}.

Definition deliver (ds : list Delivery) (st : state) : state :=
  {| streams := streams st; pipes := pipes st; queries := queries st;
     races := races st; timers := timers st; now := now st;
     queried := queried st; delivered := delivered st ++ ds |}.

(** *** The scheduler *)

(** [timer(due)] counts from now; a negative delay is no delay. Timers
    that are due together fire in the order they were set. *)
Fixpoint enqueue (x : Z * Timer) (q : list (Z * Timer)) : list (Z * Timer) :=
  match q with
  | [] => [x]
  | y :: q' => if fst y <=? fst x then y :: enqueue x q' else x :: q
  end.

Definition schedule (delay : Z) (tm : Timer) (st : state) : state :=
  with_timers (enqueue (now st + Z.max 0 delay, tm)) st.

Definition cancel (tm : Timer) (st : state) : state :=
  with_timers (filter (fun x => snd x ≠ tm)) st.

(** A subscription to a timer is open exactly while the timer is
    pending: the variable [throttled] of throttle is non-null, and the
    flag [taking] of skipUntil is still false. *)
Definition pending (tm : Timer) (st : state) : bool :=
  bool_decide (tm ∈ (timers st).*2).

Definition throttled (h : nat) (st : state) : bool := pending (ThrottleEnd h) st.

Definition taking (r : nat) (st : state) : bool := negb (pending (RaceGate r) st).

(** *** Races

    [race(stream$.pipe(skipUntil(timer(1)), take(1), map(() => true)),
          timer(waitFor).pipe(map(() => false)))]: a race is over when
    one arm has emitted or the stream arm has completed; ending it
    unsubscribes both arms. *)

Definition race_close (r : nat) (st : state) : state :=
  match races st !! r with
  | Some rc =>
      let st :=
        with_races
          (<[r := {| r_stream := r_stream rc; r_subscriber := r_subscriber rc;
                     r_closed := true |}]>) st in
      let st :=
        with_pipes
          (alter (fun p =>
                    {| queryOnce := queryOnce p;
                       updateThrottleTime := updateThrottleTime p;
                       connected := connected p; stopped := stopped p;
                       replay := replay p;
                       stream_observers :=
                         filter (fun ob => ob ≠ RaceArm r) (stream_observers p) |})
                 (r_stream rc)) st in
      cancel (RaceTimeout r) (cancel (RaceGate r) st)
  | None => st
  end.

(** An observer of a stream is told something. *)
Definition notify (ob : Observer) (n : Notification) (st : state) : state :=
  match ob with
  | Subscriber o => deliver [(o, n)] st
  | RaceArm r =>
      match races st !! r with
      | Some rc =>
          if r_closed rc then st
          else
            match n with
            | Next _ =>
                if taking r st
                then deliver (tell (r_subscriber rc) [Next (Bool true); Complete])
                       (race_close r st)
                else st
            | Error e => deliver (tell (r_subscriber rc) [Error e]) (race_close r st)
            | Complete => deliver (tell (r_subscriber rc) [Complete]) (race_close r st)
            end
      | None => st
      end
  end.

Definition notify_all (obs : list Observer) (n : Notification) (st : state) : state :=
  foldl (fun st ob => notify ob n st) st obs.

(** *** The pipeline of [registerStream$] *)

Definition set_connected (p : Pipeline) : Pipeline :=
  {| queryOnce := queryOnce p; updateThrottleTime := updateThrottleTime p;
     connected := true; stopped := stopped p; replay := replay p;
     stream_observers := stream_observers p |}.

Definition add_observer (ob : Observer) (p : Pipeline) : Pipeline :=
  {| queryOnce := queryOnce p; updateThrottleTime := updateThrottleTime p;
     connected := connected p; stopped := stopped p; replay := replay p;
     stream_observers := stream_observers p ++ [ob] |}.

Definition set_replay (v : any) (p : Pipeline) : Pipeline :=
  {| queryOnce := queryOnce p; updateThrottleTime := updateThrottleTime p;
     connected := connected p; stopped := stopped p; replay := Some v;
     stream_observers := stream_observers p |}.

Definition set_stopped (p : Pipeline) : Pipeline :=
  {| queryOnce := queryOnce p; updateThrottleTime := updateThrottleTime p;
     connected := connected p; stopped := true; replay := replay p;
     stream_observers := [] |}.

(** [stream$.subscribe]: shareReplay(1) subscribes the observer to its
    ReplaySubject, which takes it as observer unless it has completed,
    replays its buffer to it and completes it if it has completed; then
    shareReplay subscribes the pipeline if it has not yet. *)
Definition subscribe_stream (h : nat) (ob : Observer) (st : state) : state :=
  match pipes st !! h with
  | Some p =>
      let st := if stopped p then st else with_pipes (alter (add_observer ob) h) st in
      let st := match replay p with Some v => notify ob (Next v) st | None => st end in
      let st := if stopped p then notify ob Complete st else st in
      with_pipes (alter set_connected h) st
  | None => st
  end.

(** [update$.next(payload)]: nothing listens before the pipeline is
    subscribed or after it has completed. throttleTime lets the payload
    through unless its timer is pending (a payload that comes while it is
    pending is never sent, as [trailing] is off); mergeMap calls
    [queryOnce(payload)]. The call has two outcomes, which the query
    function decides: it returns an observable or it throws. Here it
    returns: mergeMap subscribes to the result, which opens the query
    number [length (queries st)]; then throttleTime sets its timer.
    [update_throws] is the other outcome. *)
Definition update (h : nat) (payload : any) (st : state) : state :=
  match pipes st !! h with
  | Some p =>
      if connected p && negb (stopped p) then
        if throttled h st then st
        else
          let st := call_query (queryOnce p) payload st in
          let st := with_queries (fun l => l ++ [{| q_stream := h; q_closed := false |}]) st in
          schedule (updateThrottleTime p) (ThrottleEnd h) st
      else st
  | None => st
  end.

Definition close_query (i : nat) (st : state) : state :=
  with_queries (alter (fun q => {| q_stream := q_stream q; q_closed := true |}) i) st.

(** A value leaves mergeMap on pipeline [h]: the ReplaySubject buffers
    it and tells its observers. *)
Definition emit (h : nat) (v : any) (st : state) : state :=
  match pipes st !! h with
  | Some p => notify_all (stream_observers p) (Next v) (with_pipes (alter (set_replay v) h) st)
  | None => st
  end.

(** The observable a [queryOnce] returned tells query [i] something.
    An error meets [catchError(() => EMPTY)]: the query ends and nothing
    goes on. *)
Definition query_emit (i : nat) (n : Notification) (st : state) : state :=
  match queries st !! i with
  | Some q =>
      if q_closed q then st
      else
        match n with
        | Next v => emit (q_stream q) v st
        | Error _ => close_query i st
        | Complete => close_query i st
        end
  | None => st
  end.

(** [clear$.next()]: takeUntil completes the pipeline, if it is
    subscribed: the observers of the stream are completed, and the
    subscriptions up the pipeline end (the queries and the throttle
    timer). *)
Definition clear_next (h : nat) (st : state) : state :=
  match pipes st !! h with
  | Some p =>
      if connected p && negb (stopped p) then
        let st := with_pipes (alter set_stopped h) st in
        let st := notify_all (stream_observers p) Complete st in
        let st :=
          with_queries
            (fmap (fun q => if bool_decide (q_stream q = h)
                            then {| q_stream := h; q_closed := true |} else q)) st in
        cancel (ThrottleEnd h) st
      else st
  | None => st
  end.

(** The pipeline above shareReplay ends with an error: shareReplay
    resets ([resetOnError] is on, so it forgets its ReplaySubject and its
    connection: the next subscriber of [stream$] starts both anew), the
    ReplaySubject it had hands the error to its observers, and the
    subscriptions up the pipeline end (the queries and the throttle
    timer). *)
Definition reset (p : Pipeline) : Pipeline :=
  {| queryOnce := queryOnce p; updateThrottleTime := updateThrottleTime p;
     connected := false; stopped := false; replay := None;
     stream_observers := [] |}.

Definition fail (h : nat) (e : any) (st : state) : state :=
  match pipes st !! h with
  | Some p =>
      let st := with_pipes (alter reset h) st in
      let st := notify_all (stream_observers p) (Error e) st in
      let st :=
        with_queries
          (fmap (fun q => if bool_decide (q_stream q = h)
                          then {| q_stream := h; q_closed := true |} else q)) st in
      cancel (ThrottleEnd h) st
  | None => st
  end.

(** [update$.next(payload)] when the call [queryOnce(payload)] throws [e]
    (or returns what is no observable, which makes [.pipe] or mergeMap
    throw a TypeError [e]): the call is inside the function given to
    mergeMap and outside the observable that [catchError] guards, so
    mergeMap ends the pipeline with the error [e]. The payload gets as far
    as the call under the same conditions as in [update]. *)
Definition update_throws (h : nat) (payload : any) (e : any) (st : state) : state :=
  match pipes st !! h with
  | Some p =>
      if connected p && negb (stopped p) then
        if throttled h st then st
        else fail h e (call_query (queryOnce p) payload st)
      else st
  | None => st
  end.

(** *** The methods of the class *)

Definition registerStream' (key : string) (queryOnce : nat)
    (updateThrottleTime : option Z) (st : state) : (exn + nat) * state :=
  let updateThrottleTime := default 1000 updateThrottleTime in
  if Map_has key (streams st) then
    (inl (JsError ("register a duplcated key " +:+ key)), st)
  else
    let h := length (pipes st) in
    let st :=
      with_pipes
        (fun l => l ++ [{| queryOnce := queryOnce;
                           updateThrottleTime := updateThrottleTime;
                           connected := false; stopped := false;
                           replay := None; stream_observers := [] |}]) st in
    (inr h, with_streams (Map_set key h) st).

Definition getHandler (key : string) (st : state) : option nat :=
  Map_get key (streams st).

Definition getStream' (key : string) (st : state) : option nat :=
  Map_get key (streams st).

Definition clear (key : string) (st : state) : state :=
  match Map_get key (streams st) with
  | Some entry => with_streams (Map_delete key) (clear_next entry st)
  | None => st
  end.

Definition clearAll (st : state) : state :=
  with_streams (fun _ => [])
    (foldl (fun st h => clear_next h st) st (streams st).*2).

Definition applyUpdate (key : string) (payload : any) (st : state) : state :=
  match Map_get key (streams st) with
  | Some entry => update entry payload st
  | None => st
  end.

(** [applyUpdate(key, payload)] when the call of the query function, if
    the payload gets that far, throws [e]. The error is caught inside the
    pipeline: the method returns as usual. *)
Definition applyUpdate_throws (key : string) (payload : any) (e : any)
    (st : state) : state :=
  match Map_get key (streams st) with
  | Some entry => update_throws entry payload e st
  | None => st
  end.

(** The observables the class hands out. *)
Inductive Observable :=
| Stream (h : nat)
| Race (h : nat) (waitFor : Z)
| Of (v : any).

Definition applyUpdate' (key : string) (payload : any) (waitFor : Z) (st : state)
  : Observable * state :=
  match Map_get key (streams st) with
  | Some entry => (Race entry waitFor, update entry payload st)
  | None => (Of (Bool true), st)
  end.

(** [applyUpdate$(key, payload, waitFor)] when the call of the query
    function, if the payload gets that far, throws [e]. *)
Definition applyUpdate'_throws (key : string) (payload : any) (waitFor : Z)
    (e : any) (st : state) : Observable * state :=
  match Map_get key (streams st) with
  | Some entry => (Race entry waitFor, update_throws entry payload e st)
  | None => (Of (Bool true), st)
  end.

(** Subscribing observer [o] to one of them. A race subscribes its arms
    in order, and not the second if the first has already ended it. *)
Definition subscribe (obs : Observable) (o : nat) (st : state) : state :=
  match obs with
  | Stream h => subscribe_stream h (Subscriber o) st
  | Of v => deliver (tell o [Next v; Complete]) st
  | Race h waitFor =>
      let r := length (races st) in
      let st :=
        with_races
          (fun l => l ++ [{| r_stream := h; r_subscriber := o; r_closed := false |}]) st in
      let st := schedule 1 (RaceGate r) st in
      let st := subscribe_stream h (RaceArm r) st in
      match races st !! r with
      | Some rc => if r_closed rc then st else schedule waitFor (RaceTimeout r) st
      | None => st
      end
  end.

(** *** Time passing *)

Definition fire (tm : Timer) (st : state) : state :=
  match tm with
  | ThrottleEnd _ => st
  | RaceGate _ => st
  | RaceTimeout r =>
      match races st !! r with
      | Some rc =>
          if r_closed rc then st
          else deliver (tell (r_subscriber rc) [Next (Bool false); Complete])
                 (race_close r st)
      | None => st
      end
  end.

(** The clock reaches [t]: as long as a timer is due, the first one in
    the queue leaves it and runs. No timer sets another, so as many rounds
    as there are timers are enough. *)
Fixpoint run_timers (fuel : nat) (t : Z) (st : state) : state :=
  match fuel with
  | O => st
  | S fuel =>
      match list_find (fun x => fst x ≤ t) (timers st) with
      | Some (n, x) =>
          run_timers fuel t
            (fire (snd x) (with_now (Z.max (fst x)) (with_timers (delete n) st)))
      | None => st
      end
  end.

Definition advance (t : Z) (st : state) : state :=
  with_now (Z.max t) (run_timers (length (timers st)) t st).

(** What the application does at time [t]. *)
Definition at_time (t : Z) (f : state → state) (st : state) : state :=
  f (advance t st).

(** One step of a run of the registry. *)
Inductive Op :=
| OpRegisterStream (key : string) (queryOnce : nat) (updateThrottleTime : option Z)
| OpClear (key : string)
| OpClearAll
| OpApplyUpdate (key : string) (payload : any)
| OpApplyUpdate' (key : string) (payload : any) (waitFor : Z)
| OpApplyUpdateThrows (key : string) (payload : any) (e : any)
| OpApplyUpdateThrows' (key : string) (payload : any) (waitFor : Z) (e : any)
| OpSubscribe (obs : Observable) (o : nat)
| OpQuery (i : nat) (n : Notification)
| OpAdvance (t : Z).

Definition step (st : state) (op : Op) : state :=
  match op with
  | OpRegisterStream key q thr => snd (registerStream' key q thr st)
  | OpClear key => clear key st
  | OpClearAll => clearAll st
  | OpApplyUpdate key payload => applyUpdate key payload st
  | OpApplyUpdate' key payload waitFor => snd (applyUpdate' key payload waitFor st)
  | OpApplyUpdateThrows key payload e => applyUpdate_throws key payload e st
  | OpApplyUpdateThrows' key payload waitFor e =>
      snd (applyUpdate'_throws key payload waitFor e st)
  | OpSubscribe obs o => subscribe obs o st
  | OpQuery i n => query_emit i n st
  | OpAdvance t => advance t st
  end.

Definition run (ops : list Op) (st : state) : state := foldl step st ops.

(** The step subscribes something to the stream of pipeline [h]. *)
Definition subscribes_to (h : nat) (op : Op) : Prop :=
  match op with
  | OpSubscribe (Stream h') _ => h' = h
  | OpSubscribe (Race h' _) _ => h' = h
  | _ => False
  end.

(** *** What telling observers and letting time pass leave alone

    [view p] is the pipeline [p] without the race arms among its
    observers. *)
Definition is_subscriber (ob : Observer) : bool :=
  match ob with
  | Subscriber _ => true
  | RaceArm _ => false
  end.

Definition view (p : Pipeline) : Pipeline :=
  {| queryOnce := queryOnce p; updateThrottleTime := updateThrottleTime p;
     connected := connected p; stopped := stopped p; replay := replay p;
     stream_observers := filter is_subscriber (stream_observers p) |}.

(** [st'] comes from [st] by telling observers, ending races and
    running the timers due by [t]: the registry, the log of queries, the
    queries and the views of the pipelines are the same; timers have only
    left the queue, and no throttle timer due after [t] has; the clock has
    not gone back, nor beyond [t] if it was before; and what was delivered
    has only grown, by no error. *)
Record quiet (t : Z) (st st' : state) : Prop := mkQuiet {
  quiet_streams : streams st' = streams st;
  quiet_queried : queried st' = queried st;
  quiet_queries : queries st' = queries st;
  quiet_pipes : view <$> pipes st' = view <$> pipes st;
  quiet_timers : ∀ x, x ∈ timers st' → x ∈ timers st;
  quiet_throttle :
    ∀ d h, (d, ThrottleEnd h) ∈ timers st → t < d → (d, ThrottleEnd h) ∈ timers st';
  quiet_now : now st ≤ now st' ≤ Z.max t (now st);
  quiet_delivered :
    ∃ ds, delivered st' = delivered st ++ ds ∧ ∀ o e, (o, Error e) ∉ ds;
}.

End StreamService.

(** ** Runs of the cache and what they keep *)

Module CacheRuns.
Import CacheService.

Definition run (ops : list Op) (st : state) : state :=
  foldl (fun st op => step op st) st ops.

(** What every run from the empty cache keeps true:
    - a key in the in-flight map refers to a Subject of the heap that has
      not stopped and has no error,
    - and to a fetch that was opened for that key with that Subject;
    - the Subject of a fetch is in the heap,
    - and no two fetches share a Subject. *)
Record consistent (st : state) : Prop := mkConsistent {
  flight_live :
    ∀ k s, inFlightObservables st !! k = Some s →
           ∃ subj, subjects st !! s = Some subj
                   ∧ isStopped subj = false ∧ hasError subj = false;
  flight_fetch :
    ∀ k s, inFlightObservables st !! k = Some s →
           ∃ i f, fetches st !! i = Some f ∧ f_key f = k ∧ f_inFlight f = s;
  fetch_subject :
    ∀ i f, fetches st !! i = Some f → (f_inFlight f < length (subjects st))%nat;
  fetch_own_subject :
    ∀ i j f g, fetches st !! i = Some f → fetches st !! j = Some g →
               f_inFlight f = f_inFlight g → i = j;
}.

(** The step does nothing to [key] of its own: it neither sets a value
    for it nor subscribes to a deferred fetch for it. *)
Definition leaves (key : string) (op : Op) : Prop :=
  match op with
  | OpSet k _ _ => k ≠ key
  | OpSubscribe (Defer k _) _ => k ≠ key
  | _ => True
  end.

(** [key] is in flight on the Subject [s], which is open, with no entry
    in the cache and no open fetch that could end the flight. *)
Record stuck (key : string) (s : nat) (st : state) : Prop := mkStuck {
  stuck_cache : cache st !! key = None;
  stuck_flight : inFlightObservables st !! key = Some s;
  stuck_subject :
    ∃ subj, subjects st !! s = Some subj
            ∧ isStopped subj = false ∧ hasError subj = false;
  stuck_fetches :
    ∀ j f, fetches st !! j = Some f → f_closed f = false →
           f_key f ≠ key ∧ f_inFlight f ≠ s;
}.

End CacheRuns.

(** ** LogServiceBase (src/LogServiceBase.ts, first document) *)

Module LogServiceBase.

(** [const enum LogLevel], with the numbers the comparisons use. *)
Inductive LogLevel := DEBUG | INFO | NONE.

Definition level_number (l : LogLevel) : Z :=
  match l with
  | DEBUG => 0
  | INFO => 1
  | NONE => 2
  end.

(** The two fields of the class, then what a run leaves behind: the
    lines [console.log] printed, each the list of its arguments, and the
    values the callbacks of the operators were called with. *)
Record state := mkState {
  _logLevel : LogLevel;
  prefix : string;
  console : list (list any);
  called : list any;
}.

(** [new LogServiceBase(prefix)] *)
Definition new (prefix : string) : state :=
  {| _logLevel := INFO; prefix := prefix; console := []; called := [] |}.

Definition setLogLevel (level : LogLevel) (st : state) : state :=
  {| _logLevel := level; prefix := prefix st; console := console st;
     called := called st |}.

Definition console_log (args : list any) (st : state) : state :=
  {| _logLevel := _logLevel st; prefix := prefix st;
     console := console st ++ [args]; called := called st |}.

Definition call (v : any) (st : state) : state :=
  {| _logLevel := _logLevel st; prefix := prefix st; console := console st;
     called := called st ++ [v] |}.

Definition debug (msg : list any) (st : state) : state :=
  if level_number (_logLevel st) <=? level_number DEBUG
  then console_log (Str (prefix st) :: msg) st
  else st.

Definition info (msg : list any) (st : state) : state :=
  if level_number (_logLevel st) <=? level_number INFO
  then console_log (Str (prefix st) :: msg) st
  else st.

(** What the call of a callback gives: the value it returns, or what it
    throws. *)
Inductive Result :=
| Returns (v : any)
| Throws (e : any).

(** [tap(f)] on one notification: [f] runs on a value, and the
    notification goes on as it came, unless [f] throws: then the error it
    threw goes on in place of the value. [f] gives what it threw, if it
    did, and the logger after it. *)
Definition tap (f : any → state → option any * state) (n : Notification) (st : state)
  : Notification * state :=
  match n with
  | Next v =>
      let '(thrown, st) := f v st in
      (match thrown with Some e => Error e | None => n end, st)
  | _ => (n, st)
  end.

(** [debug_$op(cb)] and [info_$op(cb)]: the level is read when a value
    comes, and [cb] is called only if the line is to be printed; if [cb]
    throws, no line is printed. *)
Definition debug_op (cb : any → Result) : Notification → state → Notification * state :=
  tap (fun v st =>
         if level_number (_logLevel st) <=? level_number DEBUG
         then match cb v with
              | Returns msg => (None, console_log [Str (prefix st); msg] (call v st))
              | Throws e => (Some e, call v st)
              end
         else (None, st)).

Definition info_op (cb : any → Result) : Notification → state → Notification * state :=
  tap (fun v st =>
         if level_number (_logLevel st) <=? level_number INFO
         then match cb v with
              | Returns msg => (None, console_log [Str (prefix st); msg] (call v st))
              | Throws e => (Some e, call v st)
              end
         else (None, st)).

(** What happens around an operator: the source tells it something, or
    somebody sets the level. *)
Inductive Event :=
| Tell (n : Notification)
| SetLevel (level : LogLevel).

Definition is_next (n : Notification) : bool :=
  match n with
  | Next _ => true
  | _ => false
  end.

(** A subscription to [source$.pipe(op)] over a run of events: the
    notifications that leave the operator, oldest first, and the logger
    after it. The subscriber of the operator is [closed] once an error or
    a completion has left it, and then takes nothing more from the
    source. *)
Fixpoint through (op : Notification → state → Notification * state)
    (closed : bool) (evs : list Event) (st : state) : list Notification * state :=
  match evs with
  | [] => ([], st)
  | Tell n :: evs =>
      if closed then through op true evs st
      else
        let '(n', st) := op n st in
        let '(out, st) := through op (negb (is_next n')) evs st in
        (n' :: out, st)
  | SetLevel l :: evs => through op closed evs (setLogLevel l st)
  end.

(** The notifications the source sent in a run of events. *)
Definition told (evs : list Event) : list Notification :=
  omap (fun ev => match ev with Tell n => Some n | SetLevel _ => None end) evs.

(** The same, each with the level at which it came, in a run of events
    that starts at level [l]. *)
Fixpoint arrivals (l : LogLevel) (evs : list Event) : list (LogLevel * Notification) :=
  match evs with
  | [] => []
  | Tell n :: evs => (l, n) :: arrivals l evs
  | SetLevel l' :: evs => arrivals l' evs
  end.

(** A list of notifications up to its first error or completion, that
    one included. *)
Fixpoint until_end (ns : list Notification) : list Notification :=
  match ns with
  | [] => []
  | Next v :: ns => Next v :: until_end ns
  | n :: _ => [n]
  end.

(** For an operator that logs at levels up to [bound], and a notification
    that comes at level [l]: the value the callback is called with, if it
    is called; the line that is printed, if one is; and the notification
    that goes on. *)
Definition logged (bound : LogLevel) (a : LogLevel * Notification) : option any :=
  match a with
  | (l, Next v) => if level_number l <=? level_number bound then Some v else None
  | _ => None
  end.

Definition printed (bound : LogLevel) (cb : any → Result) (pre : string)
    (a : LogLevel * Notification) : option (list any) :=
  match logged bound a with
  | Some v =>
      match cb v with
      | Returns msg => Some [Str pre; msg]
      | Throws _ => None
      end
  | None => None
  end.

Definition handed_on (bound : LogLevel) (cb : any → Result)
    (a : LogLevel * Notification) : Notification :=
  match logged bound a with
  | Some v =>
      match cb v with
      | Returns _ => snd a
      | Throws e => Error e
      end
  | None => snd a
  end.

End LogServiceBase.

(** ** Requests in a run of the registry *)

Module StreamRuns.
Import StreamService.

Definition is_request (op : Op) : bool :=
  match op with
  | OpApplyUpdate _ _ => true
  | OpApplyUpdate' _ _ _ => true
  | OpApplyUpdateThrows _ _ _ => true
  | OpApplyUpdateThrows' _ _ _ _ => true
  | _ => false
  end.

(** What the query function throws in a step, if the step is a request
    whose call of the query function throws. *)
Definition thrown (op : Op) : option any :=
  match op with
  | OpApplyUpdateThrows _ _ e => Some e
  | OpApplyUpdateThrows' _ _ _ e => Some e
  | _ => None
  end.

(** From [st] to [st'] no query function was called, and what was
    delivered has only grown, by no error. *)
Definition silent (st st' : state) : Prop :=
  queried st' = queried st
  ∧ ∃ ds, delivered st' = delivered st ++ ds ∧ ∀ o e, (o, Error e) ∉ ds.

End StreamRuns.

(** * Properties of CacheService *)

Section CacheServiceProperties.
Import CacheService.

Implicit Types (st : state) (k key : string) (ttl : option Z) (c : CacheContent).

Lemma delete_absent st k : cache st !! k = None → with_cache (delete k) st = st.
Proof.
  intros H. destruct st as [m ? ? ? ? ?]; unfold with_cache; simpl in *.
  f_equal. by apply delete_id.
Qed.

Lemma validCachedValue_fresh st k T now c :
  cache st !! k = Some c → now ≤ timestamp c + T →
  validCachedValue k T now st = (Some c, st).
Proof.
  intros Hc Hle. unfold validCachedValue. rewrite Hc.
  destruct (Z.ltb_spec (timestamp c + T) now); [lia | done].
Qed.

Lemma validCachedValue_stale st k T now c :
  cache st !! k = Some c → timestamp c + T < now →
  validCachedValue k T now st = (None, with_cache (delete k) st).
Proof.
  intros Hc Hlt. unfold validCachedValue. rewrite Hc.
  destruct (Z.ltb_spec (timestamp c + T) now); [done | lia].
Qed.

Lemma validCachedValue_absent st k T now :
  cache st !! k = None → validCachedValue k T now st = (None, st).
Proof. intros Hc. unfold validCachedValue. by rewrite Hc. Qed.

(** Without a valid entry, [validCachedValue] answers [undefined] and
    leaves no entry for the key. *)
Lemma validCachedValue_invalid st k T now :
  (∀ c, cache st !! k = Some c → timestamp c + T < now) →
  validCachedValue k T now st = (None, with_cache (delete k) st).
Proof.
  intros H. destruct (cache st !! k) as [c|] eqn:Hc.
  - apply (validCachedValue_stale _ _ _ _ c); [done | by apply H].
  - rewrite delete_absent by done. by apply validCachedValue_absent.
Qed.

(** C2, the claim as stated, fails at the boundary: an entry stored at
    0 with ttl 10 is still served at time 10, where the claim has it
    expired and the call without fallback failing. *)
Lemma C2_entry_served_at_ttl :
  let st := set "k" (Num 42) 0 empty in
  get "k" None (Some 10) (0 + 10) st = (Of (Num 42), st)
  ∧ fst (get "k" None (Some 10) (0 + 10) st) ≠ ThrowError missing_fallback.
Proof. split; [by vm_compute | by vm_compute]. Qed.

(** C2, amended: an entry stored at [t0] is served, with no fallback
    called and nothing changed, at every time up to [t0 + T]
    ([t0 + T - 1] included); from [t0 + T + 1] on [get] deletes it and goes
    on as for an absent key: it joins the fetch in flight if there is
    one, else returns the deferred fetch, whose subscription calls the
    fallback, if a fallback is supplied, else fails with the missing
    fallback error. *)
Theorem C2_expiry_boundary st k (fallback : option nat) ttl now c :
  cache st !! k = Some c →
  let T := default DEFAULT_LIFE_TIME ttl in
  (now ≤ timestamp c + T →
     get k fallback ttl now st = (Of (value c), st)
     ∧ ∀ o, invoked (subscribe (Of (value c)) o st) = invoked st
            ∧ delivered (subscribe (Of (value c)) o st)
              = delivered st ++ [(o, Next (value c)); (o, Complete)])
  ∧ get k fallback ttl (timestamp c + T - 1) st = (Of (value c), st)
  ∧ (timestamp c + T < now →
     let st' := with_cache (delete k) st in
     get k fallback ttl now st
     = (match inFlightObservables st !! k with
        | Some s => InFlight s
        | None =>
            match fallback with
            | Some fb => Defer k fb
            | None => ThrowError missing_fallback
            end
        end, st')
     ∧ (∀ fb o, invoked (subscribe (Defer k fb) o st') = invoked st ++ [fb])
     ∧ (∀ o, delivered (subscribe (ThrowError missing_fallback) o st')
             = delivered st ++ [(o, Error missing_fallback)])).
Proof.
  intros Hc T. split; [|split].
  - intros Hle. split; [|done].
    unfold get. fold T. by rewrite (validCachedValue_fresh _ _ _ _ c).
  - unfold get. fold T. rewrite (validCachedValue_fresh _ _ _ _ c); [done..|lia].
  - intros Hlt st'. split; [|done].
    unfold get. fold T. rewrite (validCachedValue_stale _ _ _ _ c) by done.
    simpl. by destruct (inFlightObservables st !! k), fallback.
Qed.

Lemma C2_expiry_boundary_witness :
  let st := set "k" (Num 42) 0 empty in
  get "k" None (Some 10) 9 st = (Of (Num 42), st).
Proof.
  intros st.
  exact (proj1 (proj2 (C2_expiry_boundary st "k" None (Some 10) 0
                         {| timestamp := 0; value := Num 42 |} eq_refl))).
Defined.

(** C3, the claim as stated, fails at the boundary: with an entry stored
    at 0, [collect] with ttl 10 at time 10 has [now - storedAt >= T] and
    yet keeps the entry. *)
Lemma C3_collect_keeps_entry_at_ttl :
  let st := set "k" (Num 42) 0 empty in
  10 - 0 >= 10 ∧ collect "k" (Some 10) 10 st = st
  ∧ cache (collect "k" (Some 10) 10 st) !! "k"
    = Some {| timestamp := 0; value := Num 42 |}.
Proof. split; [lia | split; by vm_compute]. Qed.

(** C3, amended: [collect(k, T)] deletes the stored entry if and only if
    [now - storedAt > T]; otherwise it changes nothing, and on an absent
    key it changes nothing. *)
Theorem C3_collect_deletes_iff_older st k ttl now :
  let T := default DEFAULT_LIFE_TIME ttl in
  let st' := collect k ttl now st in
  match cache st !! k with
  | Some c =>
      (cache st' !! k = None ↔ now - timestamp c > T)
      ∧ (now - timestamp c > T → st' = with_cache (delete k) st)
      ∧ (now - timestamp c ≤ T → st' = st)
  | None => st' = st
  end.
Proof.
  intros T st'. subst st'. unfold collect. fold T.
  destruct (cache st !! k) as [c|] eqn:Hc; [|done].
  destruct (Z.ltb_spec (timestamp c + T) now) as [Hlt|Hge].
  - split; [|split]; [|done|lia].
    split; [lia|]. intros _. simpl. apply lookup_delete_eq.
  - split; [|split]; [|lia|done].
    rewrite Hc. split; [done|lia].
Qed.

(** C8, the claim as stated, fails: an entry whose age is the ttl is
    not one of age below the ttl, and nothing is in flight, yet [get]
    without fallback serves its value and does not fail. *)
Lemma C8_get_without_fallback_at_ttl :
  let st := set "k" (Num 42) 0 empty in
  let '(obs, st') := get "k" None (Some 10) 10 st in
  ¬ (10 - 0 < 10)
  ∧ inFlightObservables st !! "k" = None
  ∧ obs = Of (Num 42)
  ∧ obs ≠ ThrowError missing_fallback
  ∧ delivered (subscribe obs 1%nat st') = [(1%nat, Next (Num 42)); (1%nat, Complete)]
  ∧ st' = st.
Proof. vm_compute. split_and!; (done || lia || congruence). Qed.

(** C8, amended: when the key has no entry, or an entry older than the
    ttl (stored at a time [t0] with [t0 + ttl < now]), and nothing is in
    flight for the key, [get] without fallback returns the observable
    that fails with the missing fallback error; the call leaves the
    in-flight map as it was and the value map too, but for the expired
    entry of the key, which it deletes; subscribing tells the error and
    changes nothing else. *)
Theorem C8_missing_fallback st k ttl now :
  (∀ c, cache st !! k = Some c → timestamp c + default DEFAULT_LIFE_TIME ttl < now) →
  inFlightObservables st !! k = None →
  let '(obs, st') := get k None ttl now st in
  obs = ThrowError missing_fallback
  ∧ inFlightObservables st' = inFlightObservables st
  ∧ cache st' = delete k (cache st)
  ∧ (cache st !! k = None → st' = st)
  ∧ (∀ j, j ≠ k → cache st' !! j = cache st !! j)
  ∧ ∀ o, subscribe obs o st' = deliver [(o, Error missing_fallback)] st'.
Proof.
  intros Hinvalid Hflight. unfold get.
  rewrite validCachedValue_invalid by done. simpl. rewrite Hflight.
  repeat split; try done.
  - intros Hc. by apply delete_absent.
  - intros j Hj. by apply lookup_delete_ne.
Qed.

Lemma C8_missing_fallback_witness :
  let st := set "k" (Num 42) 0 empty in
  fst (get "k" None (Some 10) 11 st) = ThrowError missing_fallback.
Proof.
  intros st.
  assert (H : ∀ c, cache st !! "k" = Some c →
                   timestamp c + default DEFAULT_LIFE_TIME (Some 10) < 11).
  { intros c Hc. vm_compute in Hc. injection Hc as <-. reflexivity. }
  pose proof (C8_missing_fallback st "k" (Some 10) 11 H eq_refl) as Hw.
  destruct (get "k" None (Some 10) 11 st) as [obs st'].
  exact (proj1 Hw).
Defined.

(** What the steps do to the value map. *)

Lemma cache_subject_next s v st : cache (subject_next s v st) = cache st.
Proof. unfold subject_next. by repeat case_match. Qed.

Lemma cache_subject_error s e st : cache (subject_error s e st) = cache st.
Proof. unfold subject_error. by repeat case_match. Qed.

Lemma cache_subject_complete s st : cache (subject_complete s st) = cache st.
Proof. unfold subject_complete. by repeat case_match. Qed.

Lemma cache_subscribe obs o st : cache (subscribe obs o st) = cache st.
Proof.
  destruct obs; simpl; try done.
  unfold subject_subscribe. by repeat case_match.
Qed.

Lemma cache_source_emit i n now st :
  cache (source_emit i n now st)
  = match fetches st !! i, n with
    | Some f, Next v =>
        if f_closed f then cache st
        else <[f_key f := {| timestamp := now; value := v |}]> (cache st)
    | _, _ => cache st
    end.
Proof.
  unfold source_emit. destruct (fetches st !! i) as [f|]; [|by destruct n].
  destruct (f_closed f), n; simpl; try done.
  - by rewrite cache_subject_complete, cache_subject_next.
  - by rewrite cache_subject_complete, cache_subject_error.
Qed.

Lemma cache_get key fallback ttl now st :
  cache (snd (get key fallback ttl now st))
  = match cache st !! key with
    | Some c =>
        if timestamp c + default DEFAULT_LIFE_TIME ttl <? now
        then delete key (cache st) else cache st
    | None => cache st
    end.
Proof.
  unfold get, validCachedValue.
  destruct (cache st !! key) as [c|]; [destruct (_ <? _)|]; simpl;
    by repeat case_match.
Qed.

Lemma cache_collect key ttl now st :
  cache (collect key ttl now st)
  = match cache st !! key with
    | Some c =>
        if timestamp c + default DEFAULT_LIFE_TIME ttl <? now
        then delete key (cache st) else cache st
    | None => cache st
    end.
Proof.
  unfold collect. destruct (cache st !! key) as [c|]; [destruct (_ <? _)|]; done.
Qed.

(** C7, the claim as stated, fails: a [get] call deletes the entry it
    finds expired. *)
Lemma C7_get_deletes_expired_entry :
  let st := set "k" (Num 42) 0 empty in
  cache st !! "k" = Some {| timestamp := 0; value := Num 42 |}
  ∧ cache (step (OpGet "k" None (Some 10) 11) st) !! "k" = None.
Proof. split; by vm_compute. Qed.

(** C7, amended: whatever the step, the entry of a key stays as it is
    unless the step is [collect] or [get] for that key with the entry
    older than the ttl, which deletes it, or [set] for that key or a value
    from an open fetch for that key, which overwrites it. *)
Theorem C7_entry_leaves_only_when_stale_or_overwritten st (op : Op) k c :
  cache st !! k = Some c →
  let st' := step op st in
  cache st' !! k = Some c
  ∨ (cache st' !! k = None
     ∧ ∃ ttl now,
         timestamp c + default DEFAULT_LIFE_TIME ttl < now
         ∧ (op = OpCollect k ttl now ∨ ∃ fallback, op = OpGet k fallback ttl now))
  ∨ (∃ v now,
       cache st' !! k = Some {| timestamp := now; value := v |}
       ∧ (op = OpSet k v now
          ∨ ∃ i f, op = OpSource i (Next v) now
                   ∧ fetches st !! i = Some f
                   ∧ f_key f = k ∧ f_closed f = false)).
Proof.
  intros Hc st'. subst st'. destruct op as [key fb ttl now|obs o|key fb e o|key v now|key|key ttl now|i n now]; simpl.
  - rewrite cache_get. destruct (decide (key = k)) as [->|Hne].
    + rewrite Hc. destruct (Z.ltb_spec (timestamp c + default DEFAULT_LIFE_TIME ttl) now).
      * right; left. split; [apply lookup_delete_eq|]. exists ttl, now. eauto.
      * by left.
    + left. repeat case_match; try done. by rewrite lookup_delete_ne.
  - left. by rewrite cache_subscribe.
  - by left.
  - destruct (decide (key = k)) as [->|Hne].
    + right; right. exists v, now. split; [apply lookup_insert_eq|by left].
    + left. by rewrite lookup_insert_ne.
  - by left.
  - rewrite cache_collect. destruct (decide (key = k)) as [->|Hne].
    + rewrite Hc. destruct (Z.ltb_spec (timestamp c + default DEFAULT_LIFE_TIME ttl) now).
      * right; left. split; [apply lookup_delete_eq|]. exists ttl, now. eauto.
      * by left.
    + left. repeat case_match; try done. by rewrite lookup_delete_ne.
  - rewrite cache_source_emit. destruct (fetches st !! i) as [f|] eqn:Hf; [|by left].
    destruct n as [v| |]; [|by left..].
    destruct (f_closed f) eqn:Hcl; [by left|].
    destruct (decide (f_key f = k)) as [Hk|Hne].
    + right; right. exists v, now. rewrite Hk. split; [apply lookup_insert_eq|].
      right. by exists i, f.
    + left. by rewrite lookup_insert_ne.
Qed.

Lemma C7_entry_leaves_only_when_stale_or_overwritten_witness :
  let st := set "k" (Num 42) 0 empty in
  let c := {| timestamp := 0; value := Num 42 |} in
  let st' := step (OpSet "j" (Num 1) 5) st in
  cache st' !! "k" = Some c
  ∨ (cache st' !! "k" = None
     ∧ ∃ ttl now,
         timestamp c + default DEFAULT_LIFE_TIME ttl < now
         ∧ (OpSet "j" (Num 1) 5 = OpCollect "k" ttl now
            ∨ ∃ fallback, OpSet "j" (Num 1) 5 = OpGet "k" fallback ttl now))
  ∨ (∃ v now,
       cache st' !! "k" = Some {| timestamp := now; value := v |}
       ∧ (OpSet "j" (Num 1) 5 = OpSet "k" v now
          ∨ ∃ i f, OpSet "j" (Num 1) 5 = OpSource i (Next v) now
                   ∧ fetches st !! i = Some f
                   ∧ f_key f = "k" ∧ f_closed f = false)).
Proof.
  intros st c.
  exact (C7_entry_leaves_only_when_stale_or_overwritten st (OpSet "j" (Num 1) 5) "k" c eq_refl).
Defined.

(** Single flight *)

(** The first caller: with no valid entry and nothing in flight,
    subscribing to what [get] returned calls the fallback and puts the
    fetch in flight. *)
Lemma first_caller_starts_fetch st k fb ttl now o :
  (∀ c, cache st !! k = Some c → timestamp c + default DEFAULT_LIFE_TIME ttl < now) →
  inFlightObservables st !! k = None →
  let st1 := get_subscribe k (Some fb) ttl now o st in
  in_flight k (length (fetches st)) (length (subjects st)) o [] st1
  ∧ invoked st1 = invoked st ++ [fb]
  ∧ delivered st1 = delivered st.
Proof.
  intros Hinvalid Hflight. unfold get_subscribe, get.
  rewrite validCachedValue_invalid by done. simpl. rewrite Hflight. simpl.
  repeat split; simpl.
  - apply lookup_delete_eq.
  - apply lookup_insert_eq.
  - by rewrite lookup_app_r, Nat.sub_diag.
  - by rewrite lookup_app_r, Nat.sub_diag.
Qed.

(** A later caller, with or without a fallback of its own, joins the
    fetch: no fallback is called and nobody is told anything yet. *)
Lemma caller_joins_fetch st k i s o obs (c : Caller) :
  in_flight k i s o obs st →
  in_flight k i s o (obs ++ [c_observer c]) (call k st c)
  ∧ invoked (call k st c) = invoked st
  ∧ delivered (call k st c) = delivered st.
Proof.
  intros (Hcache & Hflight & Hsubj & Hfetch).
  unfold call, get_subscribe, get.
  rewrite validCachedValue_absent by done. rewrite Hflight. simpl.
  unfold subject_subscribe. rewrite Hsubj. simpl.
  repeat split; simpl; try done.
  apply list_lookup_insert_eq. by eapply lookup_lt_Some.
Qed.

Lemma callers_join_fetch st k i s o obs (cs : list Caller) :
  in_flight k i s o obs st →
  in_flight k i s o (obs ++ (c_observer <$> cs)) (calls k cs st)
  ∧ invoked (calls k cs st) = invoked st
  ∧ delivered (calls k cs st) = delivered st.
Proof.
  unfold calls. revert st obs. induction cs as [|c cs IH]; intros st obs Hin; simpl.
  - by rewrite app_nil_r.
  - destruct (caller_joins_fetch st k i s o obs c Hin) as (Hin' & Hinv & Hdel).
    destruct (IH _ _ Hin') as (Hin'' & Hinv' & Hdel').
    rewrite <- app_assoc in Hin''. simpl in Hin''.
    repeat split; [apply Hin''.. | congruence | congruence].
Qed.

(** The fetch resolves: the value goes to the cache, to the observers
    that joined, and to the caller that started the fetch, and the key is
    no longer in flight. *)
Lemma fetch_resolves st k i s o obs v now :
  in_flight k i s o obs st →
  let st' := source_emit i (Next v) now st in
  delivered st'
    = delivered st ++ tell_all obs (Next v) ++ tell_all obs Complete ++ [(o, Next v)]
  ∧ cache st' !! k = Some {| timestamp := now; value := v |}
  ∧ inFlightObservables st' !! k = None.
Proof.
  intros (Hcache & Hflight & Hsubj & Hfetch).
  unfold source_emit. rewrite Hfetch. simpl.
  unfold subject_next, set. simpl. rewrite Hsubj. simpl.
  unfold subject_complete. simpl. rewrite Hsubj. simpl.
  repeat split.
  - by rewrite <- !app_assoc.
  - apply lookup_insert_eq.
  - apply lookup_delete_eq.
Qed.

(** The fetch fails: the error goes to the observers that joined and to
    the caller that started the fetch; nothing is cached and the key is
    no longer in flight. *)
Lemma fetch_fails st k i s o obs e now :
  in_flight k i s o obs st →
  let st' := source_emit i (Error e) now st in
  delivered st' = delivered st ++ tell_all obs (Error e) ++ [(o, Error e)]
  ∧ cache st' !! k = None
  ∧ inFlightObservables st' !! k = None.
Proof.
  intros (Hcache & Hflight & Hsubj & Hfetch).
  unfold source_emit. rewrite Hfetch. simpl.
  unfold subject_error. rewrite Hsubj. simpl.
  unfold subject_complete. simpl.
  rewrite list_lookup_insert_eq by (by eapply lookup_lt_Some). simpl.
  repeat split.
  - by rewrite <- !app_assoc.
  - done.
  - apply lookup_delete_eq.
Qed.

(** A caller that was handed the Subject in flight but subscribes to it
    only after the fetch has resolved is told the completion and no
    value: a Subject does not replay. *)
Example late_subscriber_sees_no_value :
  let st := get_subscribe "k" (Some 7%nat) None 0 1%nat empty in
  let '(o2, st) := get "k" None None 1 st in
  let st := source_emit 0 (Next (Num 10)) 50 st in
  o2 = InFlight 0 ∧ inbox 2 (delivered (subscribe o2 2%nat st)) = [Complete].
Proof. by vm_compute. Qed.

(** C1: the claim fails on the code. Two [get] calls issued one after
    the other, before either returned observable is subscribed, both get
    the deferred fetch, as the key is put in the in-flight map only when
    the deferred fetch is subscribed; subscribing both calls the fallback
    twice, the second time while the first fetch is in flight, and each
    caller then sees the value of its own fetch. *)
Lemma C1_two_gets_then_two_subscriptions :
  let '(o1, st1) := get "k" (Some 7%nat) None 0 empty in
  let '(o2, st2) := get "k" (Some 7%nat) None 0 st1 in
  let st3 := subscribe o2 2%nat (subscribe o1 1%nat st2) in
  let st4 := source_emit 1 (Next (Num 20)) 60 (source_emit 0 (Next (Num 10)) 50 st3) in
  o1 = Defer "k" 7 ∧ o2 = Defer "k" 7
  ∧ inFlightObservables (subscribe o1 1%nat st2) !! "k" = Some 0%nat
  ∧ invoked st3 = [7%nat; 7%nat]
  ∧ length (invoked st3) ≠ 1%nat
  ∧ inbox 1 (delivered st4) = [Next (Num 10)]
  ∧ inbox 2 (delivered st4) = [Next (Num 20)].
Proof. vm_compute. repeat split; congruence. Qed.

(** X26: the part of the single flight that the code keeps. Once a
    caller has subscribed to what [get(k, fallback)] returned, with no
    valid entry and nothing in flight for [k], and the fallback has
    returned its observable, any number of callers that then call
    [get(k, ...)] and subscribe at once, one after another with nothing
    else done to the cache in between, join the fetch: in all the
    fallback has been called once, nobody has been told anything yet, and
    if the fetch then resolves with a value or fails with an error, that
    same value or error is what every one of the callers is told. *)
Theorem single_flight_of_subscribed_callers st k fb ttl now o (cs : list Caller) :
  (∀ c, cache st !! k = Some c → timestamp c + default DEFAULT_LIFE_TIME ttl < now) →
  inFlightObservables st !! k = None →
  let stN := calls k cs (get_subscribe k (Some fb) ttl now o st) in
  let i := length (fetches st) in
  let joined := c_observer <$> cs in
  invoked stN = invoked st ++ [fb]
  ∧ delivered stN = delivered st
  ∧ (∀ v t, delivered (source_emit i (Next v) t stN)
            = delivered st ++ tell_all joined (Next v) ++ tell_all joined Complete
                ++ [(o, Next v)])
  ∧ (∀ e t, delivered (source_emit i (Error e) t stN)
            = delivered st ++ tell_all joined (Error e) ++ [(o, Error e)]).
Proof.
  intros Hinvalid Hflight stN i joined.
  destruct (first_caller_starts_fetch st k fb ttl now o Hinvalid Hflight)
    as (Hin & Hinv & Hdel).
  destruct (callers_join_fetch _ k _ _ o [] cs Hin) as (HinN & HinvN & HdelN).
  simpl in HinN. fold stN in HinN, HinvN, HdelN. fold joined in HinN.
  repeat split.
  - congruence.
  - congruence.
  - intros v t. destruct (fetch_resolves stN k _ _ o joined v t HinN) as (Hr & _).
    unfold i. by rewrite Hr, HdelN, Hdel.
  - intros e t. destruct (fetch_fails stN k _ _ o joined e t HinN) as (Hr & _).
    unfold i. by rewrite Hr, HdelN, Hdel.
Qed.

Lemma single_flight_of_subscribed_callers_witness :
  let cs := [ {| c_fallback := Some 7%nat; c_maxLifeTime := None; c_now := 1; c_observer := 2 |};
              {| c_fallback := None; c_maxLifeTime := Some 10; c_now := 2; c_observer := 3 |} ] in
  let stN := calls "k" cs (get_subscribe "k" (Some 7%nat) None 0 1%nat empty) in
  invoked stN = [7%nat]
  ∧ inbox 2 (delivered (source_emit 0 (Next (Num 10)) 50 stN)) = [Next (Num 10); Complete]
  ∧ inbox 3 (delivered (source_emit 0 (Next (Num 10)) 50 stN)) = [Next (Num 10); Complete]
  ∧ inbox 1 (delivered (source_emit 0 (Next (Num 10)) 50 stN)) = [Next (Num 10)].
Proof.
  intros cs stN.
  assert (H : ∀ c, cache empty !! "k" = Some c →
                   timestamp c + default DEFAULT_LIFE_TIME None < 0).
  { intros c Hc. vm_compute in Hc. discriminate Hc. }
  destruct (single_flight_of_subscribed_callers empty "k" 7%nat None 0 1%nat cs H eq_refl)
    as (Hinv & _ & Hnext & _).
  fold stN in Hinv, Hnext. simpl in Hnext.
  split; [exact Hinv|]. rewrite (Hnext (Num 10) 50).
  repeat split; reflexivity.
Defined.

End CacheServiceProperties.

(** * Properties of StreamService *)

Section StreamServiceProperties.
Import StreamService.

Implicit Types (st : state) (k key : string) (h i r : nat) (p : Pipeline)
  (ob : Observer) (n : Notification) (t d : Z) (tm : Timer).

(** ** The Map *)

Lemma Map_has_get {A} key (m : list (string * A)) a :
  Map_get key m = Some a → Map_has key m = true.
Proof. intros H. unfold Map_has. rewrite H. by apply bool_decide_eq_true. Qed.

Lemma Map_get_set {A} key (a : A) (m : list (string * A)) :
  Map_get key (Map_set key a m) = Some a.
Proof.
  induction m as [|[k b] m IH]; simpl.
  - by rewrite bool_decide_eq_true_2.
  - destruct (bool_decide (k = key)) eqn:Hk; simpl; by rewrite Hk.
Qed.

(** ** Quiet steps *)

Lemma fmap_alter_same {A B} (g : A → B) (f : A → A) (j : nat) (l : list A) :
  (∀ x, g (f x) = g x) → g <$> alter f j l = g <$> l.
Proof.
  intros Hgf. revert j. induction l as [|x l IH]; intros [|j]; simpl; try done.
  - by rewrite Hgf.
  - f_equal. apply IH.
Qed.

Lemma filter_filter_subscriber r (obs : list Observer) :
  filter is_subscriber (filter (fun ob => ob ≠ RaceArm r) obs)
  = filter is_subscriber obs.
Proof.
  induction obs as [|ob obs IH]; [done|].
  rewrite !filter_cons. destruct ob as [o|r']; simpl.
  - rewrite filter_cons. simpl. by rewrite IH.
  - destruct (decide (RaceArm r' ≠ RaceArm r)); [|done].
    rewrite filter_cons. simpl. done.
Qed.

Lemma quiet_refl t st : quiet t st st.
Proof.
  split; try done; [lia|]. exists []. split; [by rewrite app_nil_r|].
  intros o e H. by apply elem_of_nil in H.
Qed.

Lemma quiet_trans t st1 st2 st3 : quiet t st1 st2 → quiet t st2 st3 → quiet t st1 st3.
Proof.
  intros [] []. split; try congruence; [auto..| lia |].
  destruct quiet_delivered0 as (ds1 & Hd1 & He1).
  destruct quiet_delivered1 as (ds2 & Hd2 & He2).
  exists (ds1 ++ ds2). split; [by rewrite Hd2, Hd1, app_assoc|].
  intros o e [H|H]%elem_of_app; [by eapply He1 | by eapply He2].
Qed.

Lemma quiet_deliver t st ds :
  (∀ o e, (o, Error e) ∉ ds) → quiet t st (deliver ds st).
Proof.
  intros Hds. split; simpl; try done; [lia|]. by exists ds.
Qed.

Lemma elem_of_cancel x tm st :
  x ∈ timers (cancel tm st) ↔ x ∈ timers st ∧ snd x ≠ tm.
Proof. unfold cancel. simpl. rewrite list_elem_of_filter. tauto. Qed.

Lemma quiet_race_close t r st : quiet t st (race_close r st).
Proof.
  unfold race_close. destruct (races st !! r) as [rc|]; [|apply quiet_refl].
  split; simpl; try done.
  - apply fmap_alter_same. intros p. unfold view; simpl.
    by rewrite filter_filter_subscriber.
  - intros x. rewrite !list_elem_of_filter. tauto.
  - intros d h Hin _. rewrite !list_elem_of_filter. by repeat split.
  - lia.
  - exists []. split; [by rewrite app_nil_r|].
    intros o e H. by apply elem_of_nil in H.
Qed.

(** No error among a few given deliveries. *)
Ltac no_error :=
  let H := fresh in
  intros ? ? H; simpl in H;
  repeat (apply elem_of_cons in H as [H|H]; [discriminate H|]);
  by apply elem_of_nil in H.

Lemma quiet_notify t ob n st : (∀ e, n ≠ Error e) → quiet t st (notify ob n st).
Proof.
  intros Hn. destruct ob as [o|r]; simpl.
  - apply quiet_deliver. intros o' e. rewrite list_elem_of_singleton.
    intros Heq. inversion Heq; subst. by eapply Hn.
  - destruct (races st !! r) as [rc|]; [|apply quiet_refl].
    destruct (r_closed rc); [apply quiet_refl|].
    destruct n as [v|e|].
    + destruct (taking r st); [|apply quiet_refl].
      eapply quiet_trans; [apply quiet_race_close|].
      apply quiet_deliver. no_error.
    + by destruct (Hn e).
    + eapply quiet_trans; [apply quiet_race_close|].
      apply quiet_deliver. no_error.
Qed.

Lemma quiet_notify_all t (obs : list Observer) n st :
  (∀ e, n ≠ Error e) → quiet t st (notify_all obs n st).
Proof.
  intros Hn. unfold notify_all. revert st.
  induction obs as [|ob obs IH]; intros st; simpl; [apply quiet_refl|].
  eapply quiet_trans; [by apply quiet_notify | apply IH].
Qed.

Lemma quiet_fire t tm st : quiet t st (fire tm st).
Proof.
  destruct tm as [h|r|r]; simpl; try apply quiet_refl.
  destruct (races st !! r) as [rc|]; [|apply quiet_refl].
  destruct (r_closed rc); [apply quiet_refl|].
  eapply quiet_trans; [apply quiet_race_close|].
  apply quiet_deliver. no_error.
Qed.

(** ** Time passing *)

Lemma elem_of_delete_other {A} (l : list A) (j : nat) (x y : A) :
  y ∈ l → l !! j = Some x → y ≠ x → y ∈ delete j l.
Proof.
  intros [m Hm]%list_elem_of_lookup Hj Hne. apply list_elem_of_lookup.
  destruct (decide (m < j)%nat) as [Hlt|Hge].
  - exists m. by rewrite list_lookup_delete_lt.
  - assert (m ≠ j) by congruence.
    exists (pred m). rewrite list_lookup_delete_ge by lia.
    by replace (S (pred m)) with m by lia.
Qed.

Lemma quiet_timer_leaves t st (j : nat) (x : Z * Timer) :
  timers st !! j = Some x → fst x ≤ t →
  quiet t st (with_now (Z.max (fst x)) (with_timers (delete j) st)).
Proof.
  intros Hj Hdue. split; simpl; try done.
  - intros y. apply list_elem_of_delete_inv.
  - intros d h Hin Hlt. eapply elem_of_delete_other; [done..|].
    intros <-. simpl in Hdue. lia.
  - lia.
  - exists []. split; [by rewrite app_nil_r|].
    intros o e H. by apply elem_of_nil in H.
Qed.

Lemma quiet_run_timers fuel t st : quiet t st (run_timers fuel t st).
Proof.
  revert st. induction fuel as [|fuel IH]; intros st; simpl; [apply quiet_refl|].
  destruct (list_find _ _) as [[j x]|] eqn:Hfind; [|apply quiet_refl].
  apply list_find_Some in Hfind as (Hj & Hdue & _).
  eapply quiet_trans; [by apply quiet_timer_leaves|].
  eapply quiet_trans; [apply quiet_fire | apply IH].
Qed.

Lemma quiet_advance t st : quiet t st (advance t st).
Proof.
  unfold advance.
  destruct (quiet_run_timers (length (timers st)) t st).
  split; simpl; try done. lia.
Qed.

Lemma now_advance t st : now (advance t st) = Z.max t (now st).
Proof.
  unfold advance. simpl.
  destruct (quiet_run_timers (length (timers st)) t st). lia.
Qed.

Lemma length_timers_fire tm st :
  (length (timers (fire tm st)) ≤ length (timers st))%nat.
Proof.
  destruct tm as [h|r|r]; simpl; try done.
  destruct (races st !! r) as [rc|]; [|done].
  destruct (r_closed rc); [done|]. simpl.
  unfold race_close. destruct (races st !! r); [|done]. simpl.
  etrans; [apply length_filter|]. apply length_filter.
Qed.

(** When the clock has reached [t], no timer due by [t] is pending. *)
Lemma run_timers_due fuel t st (x : Z * Timer) :
  (length (timers st) ≤ fuel)%nat →
  x ∈ timers (run_timers fuel t st) → t < fst x.
Proof.
  revert st. induction fuel as [|fuel IH]; intros st Hlen; simpl.
  - destruct (timers st); [|simpl in Hlen; lia].
    intros H. by apply elem_of_nil in H.
  - destruct (list_find _ _) as [[j y]|] eqn:Hfind.
    + apply list_find_Some in Hfind as (Hj & Hdue & _).
      apply IH. etrans; [apply length_timers_fire|]. simpl.
      rewrite length_delete by eauto. lia.
    + apply list_find_None in Hfind. rewrite Forall_forall in Hfind.
      intros Hin. specialize (Hfind x Hin). simpl in Hfind. lia.
Qed.

Lemma advance_due t st (x : Z * Timer) : x ∈ timers (advance t st) → t < fst x.
Proof. unfold advance. simpl. by apply run_timers_due. Qed.

(** What a quiet step leaves of a pipeline. *)
Lemma quiet_pipe t st st' h p :
  quiet t st st' → pipes st !! h = Some p →
  ∃ p', pipes st' !! h = Some p' ∧ view p' = view p.
Proof.
  intros Hq Hp.
  assert (Hv : (view <$> pipes st') !! h = Some (view p)).
  { rewrite (quiet_pipes _ _ _ Hq), list_lookup_fmap, Hp. done. }
  rewrite list_lookup_fmap in Hv.
  destruct (pipes st' !! h) as [p'|]; [|done].
  exists p'. split; [done|]. simpl in Hv. congruence.
Qed.

Lemma view_fields p p' :
  view p' = view p →
  queryOnce p' = queryOnce p ∧ updateThrottleTime p' = updateThrottleTime p
  ∧ connected p' = connected p ∧ stopped p' = stopped p ∧ replay p' = replay p
  ∧ ∀ o, Subscriber o ∈ stream_observers p' ↔ Subscriber o ∈ stream_observers p.
Proof.
  unfold view. intros [= Hq Ht Hc Hs Hr Ho]. repeat split; try done.
  - intros Hin.
    assert (H : Subscriber o ∈ filter is_subscriber (stream_observers p')).
    { apply list_elem_of_filter. by split. }
    rewrite Ho in H. by apply list_elem_of_filter in H as [_ ?].
  - intros Hin.
    assert (H : Subscriber o ∈ filter is_subscriber (stream_observers p)).
    { apply list_elem_of_filter. by split. }
    rewrite <- Ho in H. by apply list_elem_of_filter in H as [_ ?].
Qed.

(** A quiet step keeps the throttle window of a pipeline as it is, if no
    timer of it was due. *)
Lemma quiet_throttled t st st' h :
  quiet t st st' →
  (∀ d, (d, ThrottleEnd h) ∈ timers st → t < d) →
  throttled h st' = throttled h st.
Proof.
  intros Hq Hdue. unfold throttled, pending. apply bool_decide_ext.
  rewrite !list_elem_of_fmap. split.
  - intros ([d tm] & Heq & Hin). exists (d, tm). split; [done|].
    by apply (quiet_timers _ _ _ Hq).
  - intros ([d tm] & Heq & Hin). simpl in Heq. subst tm.
    exists (d, ThrottleEnd h). split; [done|].
    apply (quiet_throttle _ _ _ Hq); [done | by apply Hdue].
Qed.

Lemma throttled_false h st :
  throttled h st = false ↔ ∀ d, (d, ThrottleEnd h) ∉ timers st.
Proof.
  unfold throttled, pending. rewrite bool_decide_eq_false, list_elem_of_fmap.
  split.
  - intros Hno d Hin. apply Hno. by exists (d, ThrottleEnd h).
  - intros Hno ([d tm] & Heq & Hin). simpl in Heq. subst tm. by eapply Hno.
Qed.

Lemma throttled_true h st :
  throttled h st = true ↔ ∃ d, (d, ThrottleEnd h) ∈ timers st.
Proof.
  unfold throttled, pending. rewrite bool_decide_eq_true, list_elem_of_fmap.
  split.
  - intros ([d tm] & Heq & Hin). simpl in Heq. subst tm. by exists d.
  - intros [d Hin]. by exists (d, ThrottleEnd h).
Qed.

Lemma elem_of_enqueue (x y : Z * Timer) (q : list (Z * Timer)) :
  x ∈ enqueue y q ↔ x = y ∨ x ∈ q.
Proof.
  induction q as [|z q IH]; simpl.
  - rewrite list_elem_of_singleton, elem_of_nil. tauto.
  - destruct (fst z <=? fst y); rewrite !elem_of_cons; [rewrite IH|]; tauto.
Qed.

(** ** Refresh requests *)

(** A request that gets through: the query function is called with the
    payload, a query is opened, and the throttle timer is set. *)
Lemma update_passes h payload st p :
  pipes st !! h = Some p →
  connected p = true → stopped p = false → throttled h st = false →
  update h payload st
  = schedule (updateThrottleTime p) (ThrottleEnd h)
      (with_queries (fun l => l ++ [{| q_stream := h; q_closed := false |}])
         (call_query (queryOnce p) payload st)).
Proof.
  intros Hp Hc Hs Ht. unfold update. by rewrite Hp, Hc, Hs, Ht.
Qed.

(** A request that is discarded leaves no trace at all. *)
Lemma update_dropped h payload st p :
  pipes st !! h = Some p →
  connected p = false ∨ stopped p = true ∨ throttled h st = true →
  update h payload st = st.
Proof.
  intros Hp H. unfold update. rewrite Hp.
  destruct (connected p), (stopped p), (throttled h st); simpl; try done;
    by destruct H as [|[|]].
Qed.

(** One request at time [t]. *)
Lemma applyUpdate_at t k h p payload st :
  Map_get k (streams st) = Some h →
  pipes st !! h = Some p →
  let st' := at_time t (applyUpdate k payload) st in
  Map_get k (streams st') = Some h
  ∧ (∃ p', pipes st' !! h = Some p' ∧ view p' = view p)
  ∧ now st' = Z.max t (now st)
  ∧ ((connected p = true ∧ stopped p = false
      ∧ throttled h (advance t st) = false
      ∧ queried st' = queried st ++ [(queryOnce p, payload)]
      ∧ timers st'
        = enqueue (Z.max t (now st) + Z.max 0 (updateThrottleTime p), ThrottleEnd h)
            (timers (advance t st))
      ∧ queries st' = queries st ++ [{| q_stream := h; q_closed := false |}]
      ∧ pipes st' = pipes (advance t st)
      ∧ delivered st' = delivered (advance t st))
     ∨ ((connected p = false ∨ stopped p = true
         ∨ throttled h (advance t st) = true)
        ∧ st' = advance t st)).
Proof.
  intros Hk Hp st'. subst st'. unfold at_time, applyUpdate.
  pose proof (quiet_advance t st) as Hq.
  pose proof (now_advance t st) as Hnow.
  remember (advance t st) as sta eqn:Hsta. clear Hsta.
  destruct (quiet_pipe _ _ _ _ _ Hq Hp) as (p' & Hp' & Hview).
  destruct (view_fields _ _ Hview) as (Hqo & Hth & Hc & Hs & _).
  rewrite (quiet_streams _ _ _ Hq), Hk.
  destruct (connected p) eqn:Ec; [destruct (stopped p) eqn:Es;
    [|destruct (throttled h sta) eqn:Et]|].
  - rewrite (update_dropped _ _ _ p') by auto.
    rewrite (quiet_streams _ _ _ Hq). eauto 10.
  - rewrite (update_dropped _ _ _ p') by auto.
    rewrite (quiet_streams _ _ _ Hq). eauto 10.
  - rewrite (update_passes _ _ _ p') by done. simpl.
    rewrite (quiet_streams _ _ _ Hq), (quiet_queried _ _ _ Hq), (quiet_queries _ _ _ Hq).
    rewrite Hqo, Hth, Hnow.
    split; [done|]. split; [eauto|]. split; [done|]. left. done.
  - rewrite (update_dropped _ _ _ p') by auto.
    rewrite (quiet_streams _ _ _ Hq). eauto 10.
Qed.




(** ** Registration *)

(** C4: registering a key that has a handler throws the duplicate key
    error and leaves the state of the registry exactly as it was, so the
    handler of the key is still there and does what it did. *)
Theorem C4_duplicate_registration st k h (queryOnce : nat) (updateThrottleTime : option Z) :
  getHandler k st = Some h →
  let '(result, st') := registerStream' k queryOnce updateThrottleTime st in
  result = inl (JsError ("register a duplcated key " +:+ k))
  ∧ st' = st
  ∧ getHandler k st' = Some h.
Proof.
  intros Hk. unfold registerStream'.
  unfold getHandler in Hk. by rewrite (Map_has_get _ _ h Hk).
Qed.

Lemma C4_duplicate_registration_witness :
  let st := snd (registerStream' "x" 1 None empty) in
  registerStream' "x" 2 None st
  = (inl (JsError "register a duplcated key x"), st).
Proof.
  intros st.
  pose proof (C4_duplicate_registration st "x" 0 2 None eq_refl) as H.
  destruct (registerStream' "x" 2 None st) as [result st'].
  destruct H as (-> & -> & _). reflexivity.
Defined.

(** C9: for a key without handler, [applyUpdate$] returns the observable
    of the single value [true] and changes nothing: no request is pushed,
    no timer is set. Subscribing to it tells [true] and completion on the
    spot, with no timer set and the clock where it was. *)
Theorem C9_unknown_key_resolves_updated st k (payload : any) (waitFor : Z) :
  getHandler k st = None →
  applyUpdate' k payload waitFor st = (Of (Bool true), st)
  ∧ ∀ o, let st' := subscribe (Of (Bool true)) o st in
         delivered st' = delivered st ++ [(o, Next (Bool true)); (o, Complete)]
         ∧ timers st' = timers st ∧ now st' = now st
         ∧ queried st' = queried st ∧ queries st' = queries st
         ∧ pipes st' = pipes st.
Proof.
  intros Hk. unfold applyUpdate'. unfold getHandler in Hk. by rewrite Hk.
Qed.

Lemma C9_unknown_key_resolves_updated_witness :
  applyUpdate' "nope" (Num 1) 5000 empty = (Of (Bool true), empty).
Proof.
  exact (proj1 (C9_unknown_key_resolves_updated empty "nope" (Num 1) 5000 eq_refl)).
Defined.

(** ** Values and failures of a query *)

Lemma quiet_delivered_mono t st st' (x : Delivery) :
  quiet t st st' → x ∈ delivered st → x ∈ delivered st'.
Proof.
  intros Hq Hin. destruct (quiet_delivered _ _ _ Hq) as (ds & -> & _).
  apply elem_of_app. by left.
Qed.

Lemma quiet_no_error t st st' o e :
  quiet t st st' → (o, Error e) ∈ delivered st' → (o, Error e) ∈ delivered st.
Proof.
  intros Hq Hin. destruct (quiet_delivered _ _ _ Hq) as (ds & Heq & Hno).
  rewrite Heq in Hin. apply elem_of_app in Hin as [Hin|Hin]; [done|].
  by destruct (Hno o e).
Qed.

(** Every subscriber among the observers is told. *)
Lemma notify_all_tells (obs : list Observer) o v st :
  Subscriber o ∈ obs → (o, Next v) ∈ delivered (notify_all obs (Next v) st).
Proof.
  unfold notify_all. revert st. induction obs as [|ob obs IH]; intros st Hin.
  - by apply elem_of_nil in Hin.
  - apply elem_of_cons in Hin as [<-|Hin]; simpl.
    + apply (quiet_delivered_mono 0 (deliver [(o, Next v)] st)).
      * by apply (quiet_notify_all 0 obs (Next v)).
      * simpl. apply elem_of_app. right. by apply list_elem_of_singleton.
    + by apply IH.
Qed.

(** A value from a query: it becomes the replay value, every subscriber
    of the stream is told it, and no error is told. *)
Lemma emit_broadcasts h p v st :
  pipes st !! h = Some p →
  let st' := emit h v st in
  (∀ o, Subscriber o ∈ stream_observers p → (o, Next v) ∈ delivered st')
  ∧ (∃ p', pipes st' !! h = Some p' ∧ replay p' = Some v)
  ∧ (∀ o e, (o, Error e) ∈ delivered st' → (o, Error e) ∈ delivered st).
Proof.
  intros Hp st'. subst st'. unfold emit. rewrite Hp.
  set (st0 := with_pipes (alter (set_replay v) h) st).
  assert (Hq : quiet 0 st0 (notify_all (stream_observers p) (Next v) st0))
    by by apply quiet_notify_all.
  repeat split.
  - intros o Hin. by apply notify_all_tells.
  - assert (Hp0 : pipes st0 !! h = Some (set_replay v p)).
    { simpl. by rewrite list_lookup_alter_eq, Hp. }
    destruct (quiet_pipe _ _ _ _ _ Hq Hp0) as (p' & Hp' & Hview).
    exists p'. split; [done|].
    by destruct (view_fields _ _ Hview) as (_ & _ & _ & _ & -> & _).
  - intros o e Hin. by apply (quiet_no_error _ _ _ _ _ Hq) in Hin.
Qed.

(** X25: when the observable that a query function returned fails,
    [catchError(() => EMPTY)] takes the error: nothing is told to anybody
    and the registry, the pipelines, the timers and the log of queries
    are as before: only that query is over. A request for the key at any
    later time at which the throttle window is over calls the query
    function again, and when that query gives a value, the value is the
    replay value of the stream and every subscriber of the stream is told
    it; still no error has been told. *)
Theorem failure_of_query_observable_absorbed st k h p i (e : any) :
  getHandler k st = Some h →
  pipes st !! h = Some p →
  connected p = true →
  stopped p = false →
  queries st !! i = Some {| q_stream := h; q_closed := false |} →
  let st1 := query_emit i (Error e) st in
  delivered st1 = delivered st
  ∧ streams st1 = streams st ∧ pipes st1 = pipes st
  ∧ timers st1 = timers st ∧ queried st1 = queried st
  ∧ (∀ n, query_emit i n st1 = st1)
  ∧ ∀ t payload v,
      (∀ d, (d, ThrottleEnd h) ∈ timers st → d ≤ t) →
      let st2 := at_time t (applyUpdate k payload) st1 in
      let st3 := query_emit (length (queries st1)) (Next v) st2 in
      queried st2 = queried st ++ [(queryOnce p, payload)]
      ∧ (∀ o, Subscriber o ∈ stream_observers p → (o, Next v) ∈ delivered st3)
      ∧ (∃ p3, pipes st3 !! h = Some p3 ∧ replay p3 = Some v ∧ stopped p3 = false)
      ∧ (∀ o e', (o, Error e') ∈ delivered st3 → (o, Error e') ∈ delivered st).
Proof.
  intros Hk Hp Hc Hs Hi st1.
  assert (Hst1 : st1 = close_query i st).
  { subst st1. unfold query_emit. by rewrite Hi. }
  assert (Hlen : (i < length (queries st))%nat) by by eapply lookup_lt_Some.
  rewrite Hst1. simpl. split_and!; try done.
  - intros n. unfold query_emit. simpl.
    by rewrite list_lookup_alter_eq, Hi.
  - intros t payload v Hover.
    assert (Hk1 : Map_get k (streams (close_query i st)) = Some h) by done.
    assert (Hp1 : pipes (close_query i st) !! h = Some p) by done.
    destruct (applyUpdate_at t k h p payload _ Hk1 Hp1)
      as (_ & (p2 & Hp2 & Hv2) & _ & [(_ & _ & _ & Hqd & _ & Hqs & _ & Hdel)|(Hdrop & _)]).
    + (* the request gets through *)
      set (st2 := at_time t (applyUpdate k payload) (close_query i st)) in *.
      assert (Hj : queries st2 !! length (alter (fun q => {| q_stream := q_stream q; q_closed := true |}) i (queries st))
                   = Some {| q_stream := h; q_closed := false |}).
      { rewrite Hqs. simpl. by rewrite lookup_app_r, Nat.sub_diag. }
      unfold query_emit. rewrite Hj. simpl.
      destruct (emit_broadcasts h p2 v st2 Hp2) as (Htold & (p3 & Hp3 & Hr3) & Hnoerr).
      destruct (view_fields _ _ Hv2) as (_ & _ & _ & Hs2 & _ & Hobs).
      split_and!.
      * done.
      * intros o Hin. apply Htold. by apply Hobs.
      * unfold emit in Hp3 |- *. rewrite Hp2 in Hp3 |- *.
        set (st0 := with_pipes (alter (set_replay v) h) st2) in *.
        assert (Hq : quiet 0 st0 (notify_all (stream_observers p2) (Next v) st0))
          by by apply quiet_notify_all.
        assert (Hp0 : pipes st0 !! h = Some (set_replay v p2)).
        { simpl. by rewrite list_lookup_alter_eq, Hp2. }
        destruct (quiet_pipe _ _ _ _ _ Hq Hp0) as (p' & Hp' & Hview).
        exists p'. split; [done|].
        destruct (view_fields _ _ Hview) as (_ & _ & _ & -> & -> & _).
        simpl. split; [done|]. congruence.
      * intros o e' Hin. apply Hnoerr in Hin. rewrite Hdel in Hin.
        by apply (quiet_no_error _ _ _ _ _ (quiet_advance t _)) in Hin.
    + (* it cannot be discarded: the stream is live and the window is over *)
      destruct Hdrop as [?|[?|Hth]]; [congruence..|].
      apply throttled_true in Hth as [d Hin].
      pose proof (advance_due _ _ _ Hin) as Hdue. simpl in Hdue.
      apply (quiet_timers _ _ _ (quiet_advance t _)) in Hin.
      specialize (Hover d Hin). lia.
Qed.

Lemma failure_of_query_observable_absorbed_witness :
  let st :=
    at_time 0 (applyUpdate "feed" Undefined)
      (subscribe (Stream 0) 1 (snd (registerStream' "feed" 9 None empty))) in
  let st3 :=
    query_emit 1 (Next (Num 42))
      (at_time 1200 (applyUpdate "feed" Undefined)
         (query_emit 0 (Error (Str "down")) st)) in
  delivered (query_emit 0 (Error (Str "down")) st) = []
  ∧ (1%nat, Next (Num 42)) ∈ delivered st3
  ∧ ∀ o e', (o, Error e') ∉ delivered st3.
Proof.
  intros st st3.
  assert (Hover : ∀ d, (d, ThrottleEnd 0) ∈ timers st → d ≤ 1200).
  { intros d Hin. vm_compute in Hin.
    apply list_elem_of_singleton in Hin. injection Hin as ->. lia. }
  destruct (failure_of_query_observable_absorbed st "feed" 0
              {| queryOnce := 9; updateThrottleTime := 1000; connected := true;
                 stopped := false; replay := None;
                 stream_observers := [Subscriber 1] |}
              0 (Str "down") eq_refl eq_refl eq_refl eq_refl eq_refl)
    as (Hquiet & _ & _ & _ & _ & _ & Hlater).
  destruct (Hlater 1200 Undefined (Num 42) Hover) as (_ & Htold & _ & Hnoerr).
  split; [exact Hquiet|]. split.
  - apply Htold. simpl. apply list_elem_of_singleton. reflexivity.
  - intros o e' Hin. apply Hnoerr in Hin. vm_compute in Hin.
    by apply elem_of_nil in Hin.
Defined.

(** C6: the claim fails on the code when the failure of [queryOnce] is
    that the call throws. The stream ["feed"] is registered and has a
    subscriber; the request is made and the call of the query function
    throws. The subscriber is told the error, and the stream is torn down
    for it: shareReplay has reset, nothing listens to the request channel,
    and the request made 1200 later finds nobody: the query function is
    not called again, so that the subscriber never sees the value 42 that
    it would have given. Only for a subscriber that comes after the
    failure does the pipeline start anew. A subscriber of the race of
    [applyUpdate$] is told the error too. *)
Example C6_throwing_query_errors_the_stream :
  let st1 := subscribe (Stream 0) 1 (snd (registerStream' "feed" 9 None empty)) in
  let st2 := at_time 0 (applyUpdate_throws "feed" Undefined (Str "down")) st1 in
  let st3 := at_time 1200 (applyUpdate "feed" Undefined) st2 in
  let st4 :=
    query_emit 0 (Next (Num 42))
      (at_time 1200 (applyUpdate "feed" Undefined) (subscribe (Stream 0) 2 st2)) in
  let st5 :=
    applyUpdate_throws "feed" Undefined (Str "down") (subscribe (Race 0 500) 3 st1) in
  delivered st2 = [(1%nat, Error (Str "down"))]
  ∧ pipes st2 !! 0%nat
    = Some {| queryOnce := 9; updateThrottleTime := 1000; connected := false;
              stopped := false; replay := None; stream_observers := [] |}
  ∧ st3 = advance 1200 st2
  ∧ queried st3 = [(9%nat, Undefined)]
  ∧ inbox 1 (delivered st3) = [Error (Str "down")]
  ∧ inbox 1 (delivered st4) = [Error (Str "down")]
  ∧ inbox 2 (delivered st4) = [Next (Num 42)]
  ∧ delivered st5 = [(1%nat, Error (Str "down")); (3%nat, Error (Str "down"))].
Proof. vm_compute. by split_and!. Qed.

(** ** Before the first subscription *)

Lemma flags_quiet t st st' :
  quiet t st st' → connected <$> pipes st' = connected <$> pipes st.
Proof.
  intros Hq.
  assert (H : ∀ l : list Pipeline, connected <$> l = connected <$> (view <$> l)).
  { intros l. rewrite <- list_fmap_compose. done. }
  by rewrite (H (pipes st')), (H (pipes st)), (quiet_pipes _ _ _ Hq).
Qed.

Lemma flags_clear_next h st :
  connected <$> pipes (clear_next h st) = connected <$> pipes st.
Proof.
  unfold clear_next. destruct (pipes st !! h) as [p|]; [|done].
  destruct (connected p && negb (stopped p)); [|done]. simpl.
  rewrite (flags_quiet 0 (with_pipes (alter set_stopped h) st))
    by by apply quiet_notify_all.
  simpl. by apply fmap_alter_same.
Qed.

Lemma flags_update h payload st :
  pipes (update h payload st) = pipes st.
Proof. unfold update. by repeat case_match. Qed.

Lemma flags_emit h v st :
  connected <$> pipes (emit h v st) = connected <$> pipes st.
Proof.
  unfold emit. destruct (pipes st !! h) as [p|]; [|done].
  rewrite (flags_quiet 0 (with_pipes (alter (set_replay v) h) st))
    by by apply quiet_notify_all.
  simpl. by apply fmap_alter_same.
Qed.

(** Subscribing to one stream connects no other. *)
Lemma flags_subscribe_stream h h' ob st :
  h' ≠ h →
  (connected <$> pipes (subscribe_stream h' ob st)) !! h
  = (connected <$> pipes st) !! h.
Proof.
  intros Hne. unfold subscribe_stream.
  destruct (pipes st !! h') as [p|]; [|done]. simpl.
  rewrite list_lookup_fmap, list_lookup_alter_ne, <- list_lookup_fmap by done.
  set (st1 := if stopped p then st else with_pipes (alter (add_observer ob) h') st).
  set (st2 := match replay p with Some v => notify ob (Next v) st1 | None => st1 end).
  assert (H1 : connected <$> pipes st1 = connected <$> pipes st).
  { subst st1. destruct (stopped p); [done|]. simpl. by apply fmap_alter_same. }
  assert (H2 : connected <$> pipes st2 = connected <$> pipes st1).
  { subst st2. destruct (replay p); [|done].
    by apply (flags_quiet 0), quiet_notify. }
  destruct (stopped p).
  - rewrite (flags_quiet 0 st2) by by apply quiet_notify. by rewrite H2, H1.
  - by rewrite H2, H1.
Qed.

Lemma flags_notify ob n st :
  connected <$> pipes (notify ob n st) = connected <$> pipes st.
Proof.
  destruct ob as [o|r]; simpl; [done|].
  destruct (races st !! r) as [rc|]; [|done].
  destruct (r_closed rc); [done|].
  destruct n as [v|e|]; [destruct (taking r st); [|done]|..]; simpl;
    apply (flags_quiet 0), quiet_race_close.
Qed.

Lemma flags_notify_all (obs : list Observer) n st :
  connected <$> pipes (notify_all obs n st) = connected <$> pipes st.
Proof.
  unfold notify_all. revert st.
  induction obs as [|ob obs IH]; intros st; simpl; [done|].
  by rewrite IH, flags_notify.
Qed.

(** A pipeline that ends with an error is no longer connected, and no
    other pipeline becomes connected by it. *)
Lemma flags_fail h h' e st :
  (connected <$> pipes st) !! h = Some false →
  (connected <$> pipes (fail h' e st)) !! h = Some false.
Proof.
  intros Hh. unfold fail. destruct (pipes st !! h') as [p|] eqn:Hp; [|done].
  simpl. rewrite flags_notify_all. simpl.
  rewrite list_lookup_fmap. destruct (decide (h = h')) as [->|Hne].
  - by rewrite list_lookup_alter_eq, Hp.
  - by rewrite list_lookup_alter_ne, <- list_lookup_fmap.
Qed.

Lemma flags_update_throws h h' payload e st :
  (connected <$> pipes st) !! h = Some false →
  (connected <$> pipes (update_throws h' payload e st)) !! h = Some false.
Proof.
  intros Hh. unfold update_throws. destruct (pipes st !! h') as [p|]; [|done].
  destruct (connected p && negb (stopped p)); [|done].
  destruct (throttled h' st); [done|].
  by apply flags_fail.
Qed.

(** A step that does not subscribe to the stream of a pipeline that is
    not connected leaves it not connected. *)
Lemma unconnected_step h st (op : Op) :
  (connected <$> pipes st) !! h = Some false →
  ¬ subscribes_to h op →
  (connected <$> pipes (step st op)) !! h = Some false.
Proof.
  intros Hh Hop.
  destruct op as [k q thr|k| |k payload|k payload w|k payload e|k payload w e|obs o|i n|t];
    simpl.
  - unfold registerStream'. destruct (Map_has k (streams st)); [done|]. simpl.
    rewrite fmap_app. by apply lookup_app_l_Some.
  - unfold clear. destruct (Map_get k (streams st)); [|done]. simpl.
    by rewrite flags_clear_next.
  - unfold clearAll. simpl.
    assert (H : ∀ (hs : list nat) st0,
               connected <$> pipes (foldl (fun st h => clear_next h st) st0 hs)
               = connected <$> pipes st0).
    { induction hs as [|h0 hs IH]; intros st0; simpl; [done|].
      by rewrite IH, flags_clear_next. }
    by rewrite H.
  - unfold applyUpdate. destruct (Map_get k (streams st)); [|done].
    by rewrite flags_update.
  - unfold applyUpdate'. destruct (Map_get k (streams st)); [|done]. simpl.
    by rewrite flags_update.
  - unfold applyUpdate_throws. destruct (Map_get k (streams st)); [|done].
    by apply flags_update_throws.
  - unfold applyUpdate'_throws. destruct (Map_get k (streams st)); [|done]. simpl.
    by apply flags_update_throws.
  - destruct obs as [h'|h' w|v]; simpl in *.
    + by rewrite flags_subscribe_stream.
    + set (st1 := schedule 1 _ _).
      assert (H1 : (connected <$> pipes (subscribe_stream h' (RaceArm (length (races st))) st1)) !! h
                   = Some false).
      { by rewrite flags_subscribe_stream. }
      by repeat case_match.
    + done.
  - unfold query_emit. destruct (queries st !! i) as [q|]; [|done].
    destruct (q_closed q); [done|]. destruct n; simpl; try done.
    by rewrite flags_emit.
  - by rewrite (flags_quiet t st) by apply quiet_run_timers.
Qed.

Lemma unconnected_run h (ops : list Op) st :
  (connected <$> pipes st) !! h = Some false →
  Forall (fun op => ¬ subscribes_to h op) ops →
  (connected <$> pipes (run ops st)) !! h = Some false.
Proof.
  unfold run. revert st. induction ops as [|op ops IH]; intros st Hh Hops; [done|].
  apply Forall_cons in Hops as [Hop Hops]. simpl.
  apply IH; [|done]. by apply unconnected_step.
Qed.

(** C10: from the registration of a stream until the first subscription
    to it, whatever else is done to the registry, a request on its request
    channel is discarded without a trace: the state after it is the state
    before it, so no query function is called and no replay value is kept.
    In particular requests made right after the registration change
    nothing, and the first subscriber is then told nothing and no query
    function has been called; a request after that subscription does call
    the query function. *)
Theorem C10_requests_before_first_subscription st k (q : nat) (thr : option Z) h st1
    (ops : list Op) :
  registerStream' k q thr st = (inr h, st1) →
  Forall (fun op => ¬ subscribes_to h op) ops →
  let st2 := run ops st1 in
  (∀ payload, update h payload st2 = st2)
  ∧ (∀ payload w,
       getHandler k st2 = Some h →
       applyUpdate k payload st2 = st2
       ∧ snd (applyUpdate' k payload w st2) = st2)
  ∧ (∀ (payloads : list any) o,
       let st3 := foldl (fun s x => applyUpdate k x s) st1 payloads in
       st3 = st1
       ∧ queried (subscribe (Stream h) o st3) = queried st
       ∧ delivered (subscribe (Stream h) o st3) = delivered st
       ∧ (throttled h st = false →
          ∀ payload,
            queried (applyUpdate k payload (subscribe (Stream h) o st3))
            = queried st ++ [(q, payload)])).
Proof.
  intros Hreg Hops st2. unfold registerStream' in Hreg.
  destruct (Map_has k (streams st)); [done|]. simpl in Hreg.
  injection Hreg as <- <-.
  set (p0 := {| queryOnce := q; updateThrottleTime := default 1000 thr;
                connected := false; stopped := false; replay := None;
                stream_observers := [] |}) in *.
  set (st1 := with_streams _ _) in *.
  assert (Hp1 : pipes st1 !! length (pipes st) = Some p0).
  { simpl. by rewrite lookup_app_r, Nat.sub_diag. }
  assert (Hk1 : Map_get k (streams st1) = Some (length (pipes st))).
  { simpl. apply Map_get_set. }
  assert (Hdrop : ∀ payload, update (length (pipes st)) payload st2 = st2).
  { intros payload.
    assert (Hf : (connected <$> pipes st2) !! length (pipes st) = Some false).
    { apply unconnected_run; [|done]. by rewrite list_lookup_fmap, Hp1. }
    rewrite list_lookup_fmap in Hf.
    destruct (pipes st2 !! length (pipes st)) as [p2|] eqn:Hp2; [|done].
    apply (update_dropped _ _ _ p2); [done|]. left. simpl in Hf. congruence. }
  split_and!.
  - done.
  - intros payload w Hk2. unfold getHandler in Hk2.
    unfold applyUpdate, applyUpdate'. rewrite Hk2. simpl. by rewrite Hdrop.
  - intros payloads o st3.
    assert (Hst3 : st3 = st1).
    { subst st3. induction payloads as [|x xs IH]; simpl; [done|].
      unfold applyUpdate at 2. rewrite Hk1.
      rewrite (update_dropped _ _ _ p0); [done..|by left]. }
    rewrite Hst3. split; [done|].
    simpl. unfold subscribe_stream. rewrite Hp1. simpl.
    split_and!; [done..|].
    intros Hth payload. unfold applyUpdate. simpl.
    rewrite Map_get_set.
    rewrite (update_passes _ _ _ (set_connected (add_observer (Subscriber o) p0)));
      [done| |done..].
    simpl. rewrite !list_lookup_alter_eq.
    by rewrite lookup_app_r, Nat.sub_diag.
Qed.

Lemma C10_requests_before_first_subscription_witness :
  let st1 := snd (registerStream' "x" 9 None empty) in
  let st2 := run [OpApplyUpdate "x" (Num 1); OpAdvance 5000; OpApplyUpdate "x" (Num 2)] st1 in
  update 0 (Num 3) st2 = st2 ∧ queried st2 = [].
Proof.
  intros st1 st2.
  assert (Hops : Forall (fun op => ¬ subscribes_to 0 op)
                   [OpApplyUpdate "x" (Num 1); OpAdvance 5000; OpApplyUpdate "x" (Num 2)]).
  { repeat constructor; simpl; tauto. }
  destruct (C10_requests_before_first_subscription empty "x" 9 None 0 st1 _ eq_refl Hops)
    as (Hdrop & _).
  split; [exact (Hdrop (Num 3)) | reflexivity].
Defined.

End StreamServiceProperties.

(** * Properties of LogServiceBase *)

Section LogServiceBaseProperties.
Import LogServiceBase.

Implicit Types (st : state) (l : LogLevel) (msg : list any) (evs : list Event).

(** X1: at level DEBUG [debug] and [info] both print the line made of
    the prefix and the arguments, at level INFO only [info] does, at level
    NONE neither; so whatever [debug] prints [info] prints too. A new
    logger is at level INFO. *)
Theorem debug_info_levels st l msg (p : string) :
  let line := Str (prefix st) :: msg in
  console (debug msg (setLogLevel l st))
    = console st ++ (if l is DEBUG then [line] else [])
  ∧ console (info msg (setLogLevel l st))
    = console st ++ (if l is NONE then [] else [line])
  ∧ prefix (debug msg (setLogLevel l st)) = prefix st
  ∧ _logLevel (info msg (debug msg (setLogLevel l st))) = l
  ∧ debug msg (new p) = new p
  ∧ console (info msg (new p)) = [Str p :: msg].
Proof.
  destruct l; unfold debug, info; simpl; by rewrite ?app_nil_r.
Qed.

Lemma through_closed (op : Notification → state → Notification * state) evs st :
  fst (through op true evs st) = []
  ∧ called (snd (through op true evs st)) = called st
  ∧ console (snd (through op true evs st)) = console st.
Proof.
  revert st. induction evs as [|[n|l'] evs IH]; intros st; simpl; [done|apply IH|].
  apply (IH (setLogLevel l' st)).
Qed.

Lemma until_end_told l evs :
  until_end (snd <$> arrivals l evs) = until_end (told evs).
Proof.
  f_equal. revert l. induction evs as [|[n|l'] evs IH]; intros l; simpl; [done| |apply IH].
  f_equal. apply IH.
Qed.

Lemma through_operator (bound : LogLevel) (cb : any → Result) evs st :
  let op :=
    tap (fun v st =>
           if level_number (_logLevel st) <=? level_number bound
           then match cb v with
                | Returns msg => (None, console_log [Str (prefix st); msg] (call v st))
                | Throws e => (Some e, call v st)
                end
           else (None, st)) in
  let out := fst (through op false evs st) in
  let live := take (length out) (arrivals (_logLevel st) evs) in
  out = until_end (handed_on bound cb <$> arrivals (_logLevel st) evs)
  ∧ called (snd (through op false evs st)) = called st ++ omap (logged bound) live
  ∧ console (snd (through op false evs st))
    = console st ++ omap (printed bound cb (prefix st)) live.
Proof.
  intros op. revert st. induction evs as [|ev evs IH]; intros st.
  - simpl. by rewrite !app_nil_r.
  - destruct ev as [n|l']; [|apply (IH (setLogLevel l' st))].
    destruct n as [v|e|]; cbn -[handed_on printed logged].
    + destruct (level_number (_logLevel st) <=? level_number bound) eqn:Hlv;
        [destruct (cb v) as [msg|e] eqn:Hcb|].
      * specialize (IH (console_log [Str (prefix st); msg] (call v st))).
        cbn -[handed_on printed logged] in *.
        destruct (through op false evs _) as [out st'].
        cbn -[handed_on printed logged] in *.
        destruct IH as (<- & -> & ->).
        unfold handed_on, printed. cbn. rewrite Hlv, Hcb. cbn.
        by rewrite <- !app_assoc.
      * destruct (through_closed op evs (call v st)) as (Hout & Hcalled & Hconsole).
        cbn -[handed_on printed logged] in *.
        destruct (through op true evs _) as [out st'].
        cbn -[handed_on printed logged] in *. subst out.
        unfold handed_on, printed. cbn. rewrite Hlv, Hcb, Hcalled, Hconsole. cbn.
        by rewrite take_0, app_nil_r.
      * specialize (IH st). cbn -[handed_on printed logged] in *.
        destruct (through op false evs st) as [out st'].
        cbn -[handed_on printed logged] in *.
        destruct IH as (<- & -> & ->).
        unfold handed_on, printed. cbn. by rewrite Hlv.
    + destruct (through_closed op evs st) as (Hout & Hcalled & Hconsole).
      destruct (through op true evs st) as [out st'].
      cbn in *. subst out. cbn. by rewrite take_0, Hcalled, Hconsole, !app_nil_r.
    + destruct (through_closed op evs st) as (Hout & Hcalled & Hconsole).
      destruct (through op true evs st) as [out st'].
      cbn in *. subst out. cbn. by rewrite take_0, Hcalled, Hconsole, !app_nil_r.
Qed.

Lemma handed_on_returns (bound : LogLevel) (cb : any → Result) l evs :
  (∀ v e, cb v ≠ Throws e) →
  handed_on bound cb <$> arrivals l evs = snd <$> arrivals l evs.
Proof.
  intros Hcb. apply list_fmap_ext. intros _ a _. unfold handed_on.
  destruct (logged bound a) as [v|]; [|done].
  destruct (cb v) as [msg|e] eqn:Hv; [done|]. by destruct (Hcb v e).
Qed.

(** X2: a subscription to [source$.pipe(debug_$op(cb))] or to
    [source$.pipe(info_$op(cb))], over any run in which the source sends
    notifications and the level is set. Take the notifications of the
    source, each with the level at which it came. [cb] is called on a
    value exactly if the level was low enough when it came (DEBUG, or at
    most INFO); if [cb] returns, the line made of the prefix and what it
    returned is printed and the value is handed on as it came; if [cb]
    throws, nothing is printed and the error is handed on in place of the
    value. Values that come at a higher level, errors and completions are
    handed on as they came. What leaves the operator is these
    notifications in order up to the first error or completion, that one
    included: after it the operator takes nothing more from the source,
    so nothing more is handed on, called or printed. When [cb] never
    throws, what leaves is what the source sent up to its first error or
    completion. *)
Theorem log_operators_pass_through (cb : any → Result) evs st :
  let from_source := arrivals (_logLevel st) evs in
  let d := through (debug_op cb) false evs st in
  let i := through (info_op cb) false evs st in
  (fst d = until_end (handed_on DEBUG cb <$> from_source)
   ∧ called (snd d)
     = called st ++ omap (logged DEBUG) (take (length (fst d)) from_source)
   ∧ console (snd d)
     = console st
         ++ omap (printed DEBUG cb (prefix st)) (take (length (fst d)) from_source))
  ∧ (fst i = until_end (handed_on INFO cb <$> from_source)
     ∧ called (snd i)
       = called st ++ omap (logged INFO) (take (length (fst i)) from_source)
     ∧ console (snd i)
       = console st
           ++ omap (printed INFO cb (prefix st)) (take (length (fst i)) from_source))
  ∧ ((∀ v e, cb v ≠ Throws e) → fst d = until_end (told evs))
  ∧ ((∀ v e, cb v ≠ Throws e) → fst i = until_end (told evs)).
Proof.
  intros from_source d i.
  destruct (through_operator DEBUG cb evs st) as (Hd1 & Hd2 & Hd3).
  destruct (through_operator INFO cb evs st) as (Hi1 & Hi2 & Hi3).
  split_and!; try done.
  - intros Hcb. change (fst d) with (fst (through (debug_op cb) false evs st)).
    unfold debug_op. rewrite Hd1.
    by rewrite handed_on_returns, until_end_told.
  - intros Hcb. change (fst i) with (fst (through (info_op cb) false evs st)).
    unfold info_op. rewrite Hi1.
    by rewrite handed_on_returns, until_end_told.
Qed.

(** A source that goes on after its error, and a callback that throws:
    the operator stops at the first of them. *)
Example log_operator_stops :
  let cb v := if v is Num 3 then Throws (Str "bad") else Returns v in
  let st := setLogLevel DEBUG (new "p") in
  through (debug_op cb) false
    [Tell (Next (Num 1)); Tell (Error (Str "e")); Tell (Next (Num 5))] st
  = ([Next (Num 1); Error (Str "e")],
     {| _logLevel := DEBUG; prefix := "p"; console := [[Str "p"; Num 1]];
        called := [Num 1] |})
  ∧ through (debug_op cb) false
      [Tell (Next (Num 1)); Tell (Next (Num 3)); Tell (Next (Num 5))] st
    = ([Next (Num 1); Error (Str "bad")],
       {| _logLevel := DEBUG; prefix := "p"; console := [[Str "p"; Num 1]];
          called := [Num 1; Num 3] |}).
Proof. split; reflexivity. Qed.

End LogServiceBaseProperties.

(** * More properties of CacheService *)

Section CacheServiceMore.
Import CacheService CacheRuns.

Implicit Types (st : state) (k key : string) (ttl : option Z) (c : CacheContent)
  (v e : any) (o s i : nat).

(** X3: a value that was [set], be it [undefined], [false] or 0, is
    what [get] yields as long as its age is at most the ttl, with or
    without a fallback and whether or not a fetch for the key is in
    flight; the call changes nothing, and subscribing tells the value and
    completion and calls no fallback. *)
Theorem set_get_round_trip st k v (t0 : Z) (fallback : option nat) ttl (now : Z) :
  now ≤ t0 + default DEFAULT_LIFE_TIME ttl →
  let st1 := set k v t0 st in
  get k fallback ttl now st1 = (Of v, st1)
  ∧ has k st1 = true
  ∧ ∀ o, invoked (subscribe (Of v) o st1) = invoked st
         ∧ delivered (subscribe (Of v) o st1)
           = delivered st ++ [(o, Next v); (o, Complete)].
Proof.
  intros Hnow st1.
  assert (Hc : cache st1 !! k = Some {| timestamp := t0; value := v |}).
  { simpl. apply lookup_insert_eq. }
  split_and!.
  - unfold get. by rewrite (validCachedValue_fresh _ _ _ _ _ Hc).
  - unfold has. rewrite Hc. by apply bool_decide_eq_true.
  - done.
Qed.

Lemma set_get_round_trip_witness :
  let st1 := set "k" Undefined 100 empty in
  get "k" None (Some 50) 150 st1 = (Of Undefined, st1).
Proof.
  intros st1.
  exact (proj1 (set_get_round_trip empty "k" Undefined 100 None (Some 50) 150
                  ltac:(simpl; lia))).
Defined.

Lemma has_true st k : has k st = true ↔ is_Some (cache st !! k).
Proof. unfold has. apply bool_decide_eq_true. Qed.

Lemma has_false st k : has k st = false ↔ cache st !! k = None.
Proof.
  unfold has. rewrite bool_decide_eq_false. rewrite <- eq_None_not_Some. done.
Qed.

(** X4: [has] does not look at the age: it answers true for an entry
    that is older than the ttl, which [get] with that ttl will not serve.
    That [get], like [collect], deletes the entry, after which [has]
    answers false; the answers for the other keys stay as they were. *)
Theorem has_ignores_expiry st k c ttl (now : Z) (fallback : option nat) :
  cache st !! k = Some c →
  timestamp c + default DEFAULT_LIFE_TIME ttl < now →
  has k st = true
  ∧ (∀ v, fst (get k fallback ttl now st) ≠ Of v)
  ∧ has k (snd (get k fallback ttl now st)) = false
  ∧ has k (collect k ttl now st) = false
  ∧ ∀ j, j ≠ k →
         has j (snd (get k fallback ttl now st)) = has j st
         ∧ has j (collect k ttl now st) = has j st.
Proof.
  intros Hc Hold.
  assert (Hget : get k fallback ttl now st
                 = (match inFlightObservables st !! k with
                    | Some s => InFlight s
                    | None => match fallback with
                              | Some fb => Defer k fb
                              | None => ThrowError missing_fallback
                              end
                    end, with_cache (delete k) st)).
  { unfold get. rewrite (validCachedValue_stale _ _ _ _ _ Hc Hold). simpl.
    by repeat case_match. }
  assert (Hcol : collect k ttl now st = with_cache (delete k) st).
  { unfold collect. rewrite Hc.
    by destruct (Z.ltb_spec (timestamp c + default DEFAULT_LIFE_TIME ttl) now); [|lia]. }
  rewrite Hget, Hcol. simpl. split_and!.
  - apply has_true. by rewrite Hc.
  - intros v. by repeat case_match.
  - apply has_false. simpl. apply lookup_delete_eq.
  - apply has_false. simpl. apply lookup_delete_eq.
  - intros j Hj. unfold has. simpl. by rewrite lookup_delete_ne.
Qed.

Lemma has_ignores_expiry_witness :
  let st := set "k" (Num 1) 0 empty in
  has "k" st = true ∧ has "k" (snd (get "k" None (Some 10) 11 st)) = false.
Proof.
  intros st.
  destruct (has_ignores_expiry st "k" {| timestamp := 0; value := Num 1 |}
              (Some 10) 11 None eq_refl ltac:(simpl; lia)) as (H1 & _ & H2 & _).
  exact (conj H1 H2).
Defined.

(** X5: when the fetch in flight fails, nothing is cached and the key is
    out of the in-flight map, so the next [get] with a fallback does not
    see the failure: it returns a new deferred fetch, whose subscription
    calls that fallback. Only who subscribes late to the Subject of the
    failed fetch is told the old error. *)
Theorem failed_fetch_is_not_cached st k i s o (obs : list nat) e (now : Z)
    (fb' : nat) ttl (now' : Z) (o' : nat) :
  in_flight k i s o obs st →
  let st1 := source_emit i (Error e) now st in
  has k st1 = false
  ∧ inFlightObservables st1 !! k = None
  ∧ get k (Some fb') ttl now' st1 = (Defer k fb', st1)
  ∧ invoked (get_subscribe k (Some fb') ttl now' o' st1) = invoked st ++ [fb']
  ∧ delivered (get_subscribe k (Some fb') ttl now' o' st1) = delivered st1
  ∧ delivered (subscribe (InFlight s) o' st1) = delivered st1 ++ [(o', Error e)].
Proof.
  intros Hin st1.
  destruct (fetch_fails st k i s o obs e now Hin) as (_ & Hcache & Hflight).
  fold st1 in Hcache, Hflight.
  assert (Hget : get k (Some fb') ttl now' st1 = (Defer k fb', st1)).
  { unfold get. rewrite validCachedValue_absent by done. by rewrite Hflight. }
  assert (Hinv : invoked st1 = invoked st).
  { destruct Hin as (_ & _ & Hsubj & Hfetch). subst st1.
    unfold source_emit. rewrite Hfetch. simpl.
    unfold subject_error. rewrite Hsubj. simpl.
    unfold subject_complete. simpl.
    by rewrite list_lookup_insert_eq by (by eapply lookup_lt_Some). }
  split_and!; try done.
  - by apply has_false.
  - unfold get_subscribe. rewrite Hget. simpl. by rewrite Hinv.
  - unfold get_subscribe. by rewrite Hget.
  - destruct Hin as (_ & _ & Hsubj & Hfetch). subst st1.
    unfold source_emit. rewrite Hfetch. simpl.
    unfold subject_error. rewrite Hsubj. simpl.
    unfold subject_complete. simpl.
    rewrite list_lookup_insert_eq by (by eapply lookup_lt_Some). simpl.
    unfold subject_subscribe. simpl.
    by rewrite list_lookup_insert_eq by (by eapply lookup_lt_Some).
Qed.

Lemma failed_fetch_is_not_cached_witness :
  let st := get_subscribe "k" (Some 7%nat) None 0 1%nat empty in
  let st1 := source_emit 0 (Error (Str "down")) 50 st in
  get "k" (Some 8%nat) None 60 st1 = (Defer "k" 8, st1).
Proof.
  intros st st1.
  assert (Hin : in_flight "k" 0 0 1 [] st) by (repeat split; reflexivity).
  exact (proj1 (proj2 (proj2
           (failed_fetch_is_not_cached st "k" 0 0 1 [] (Str "down") 50 8 None 60 2 Hin)))).
Defined.

(** X7: a [set] for a key whose fetch is in flight tells nobody and
    leaves the flight alone; while the value is fresh [get] serves it
    rather than joining the flight. When the fetch resolves, its value
    replaces the one that was set, and the observers that had joined and
    the caller that started the fetch are told the value of the fetch. *)
Theorem set_during_flight st k i s o (obs : list nat) v v' (t1 t2 : Z) :
  in_flight k i s o obs st →
  let st1 := set k v' t1 st in
  delivered st1 = delivered st
  ∧ inFlightObservables st1 = inFlightObservables st
  ∧ (∀ (fallback : option nat) ttl now,
       now ≤ t1 + default DEFAULT_LIFE_TIME ttl →
       get k fallback ttl now st1 = (Of v', st1))
  ∧ let st2 := source_emit i (Next v) t2 st1 in
    cache st2 !! k = Some {| timestamp := t2; value := v |}
    ∧ inFlightObservables st2 !! k = None
    ∧ delivered st2
      = delivered st ++ tell_all obs (Next v) ++ tell_all obs Complete ++ [(o, Next v)].
Proof.
  intros (Hcache & Hflight & Hsubj & Hfetch) st1. split_and!; try done.
  - intros fallback ttl now Hnow. unfold get.
    rewrite (validCachedValue_fresh _ _ _ _ {| timestamp := t1; value := v' |});
      [done | apply lookup_insert_eq | done].
  - unfold source_emit. simpl. rewrite Hfetch. simpl.
    unfold subject_next, set. simpl. rewrite Hsubj. simpl.
    unfold subject_complete. simpl. rewrite Hsubj. simpl.
    split_and!.
    + apply lookup_insert_eq.
    + apply lookup_delete_eq.
    + by rewrite <- !app_assoc.
Qed.

Lemma set_during_flight_witness :
  let st := get_subscribe "k" (Some 7%nat) None 0 1%nat empty in
  let st2 := source_emit 0 (Next (Num 2)) 50 (set "k" (Num 1) 10 st) in
  cache st2 !! "k" = Some {| timestamp := 50; value := Num 2 |}.
Proof.
  intros st st2.
  assert (Hin : in_flight "k" 0 0 1 [] st) by (repeat split; reflexivity).
  destruct (set_during_flight st "k" 0 0 1 [] (Num 2) (Num 1) 10 50 Hin)
    as (_ & _ & _ & H & _).
  exact H.
Defined.

(** X8: [get] is lazy. Any number of [get] calls, for any keys, with
    any fallbacks and ttls, call no fallback, tell nobody anything, open
    no fetch and leave the in-flight map and the Subjects as they are, as
    long as nothing they return is subscribed; all they may do is delete
    entries. *)
Theorem gets_alone_start_nothing
    (gs : list (string * option nat * option Z * Z)) st :
  let st' := foldl (fun st '(key, fallback, ttl, now) =>
                      snd (get key fallback ttl now st)) st gs in
  invoked st' = invoked st
  ∧ delivered st' = delivered st
  ∧ fetches st' = fetches st
  ∧ subjects st' = subjects st
  ∧ inFlightObservables st' = inFlightObservables st
  ∧ ∀ k c, cache st' !! k = Some c → cache st !! k = Some c.
Proof.
  revert st. induction gs as [|[[[key fallback] ttl] now] gs IH]; intros st; simpl.
  - done.
  - set (st1 := snd (get key fallback ttl now st)).
    assert (H1 : invoked st1 = invoked st ∧ delivered st1 = delivered st
                 ∧ fetches st1 = fetches st ∧ subjects st1 = subjects st
                 ∧ inFlightObservables st1 = inFlightObservables st
                 ∧ ∀ k c, cache st1 !! k = Some c → cache st !! k = Some c).
    { subst st1. unfold get, validCachedValue.
      destruct (cache st !! key) as [c0|]; [destruct (_ <? _)|]; simpl;
        repeat case_match; simpl; split_and!; try done.
      all: intros k c; rewrite lookup_delete_Some; tauto. }
    destruct H1 as (Ha & Hb & Hc & Hd & He & Hf).
    destruct (IH st1) as (Ha' & Hb' & Hc' & Hd' & He' & Hf').
    split_and!; try congruence. intros k c Hk. by apply Hf, Hf'.
Qed.

(** X28: a fallback that throws. With no valid entry and nothing in
    flight for the key, [get] returns the deferred fetch; when it is
    subscribed and the call of the fallback throws [e], the call has been
    made and the subscriber is told [e], but the key is not put in the
    in-flight map, and no Subject and no fetch is made: the cache is as
    [get] left it. So the next [get] for the key returns a deferred fetch
    again, and a caller that subscribes to it calls its fallback anew. *)
Theorem throwing_fallback_registers_nothing st k (fb : nat) ttl (now : Z) o (e : any) :
  (∀ c, cache st !! k = Some c → timestamp c + default DEFAULT_LIFE_TIME ttl < now) →
  inFlightObservables st !! k = None →
  let st1 := snd (get k (Some fb) ttl now st) in
  let st2 := subscribe_throws k fb e o st1 in
  fst (get k (Some fb) ttl now st) = Defer k fb
  ∧ invoked st2 = invoked st ++ [fb]
  ∧ delivered st2 = delivered st ++ [(o, Error e)]
  ∧ cache st2 = cache st1
  ∧ inFlightObservables st2 = inFlightObservables st
  ∧ subjects st2 = subjects st
  ∧ fetches st2 = fetches st
  ∧ ∀ (fb' : nat) ttl' t o',
      get k (Some fb') ttl' t st2 = (Defer k fb', st2)
      ∧ invoked (get_subscribe k (Some fb') ttl' t o' st2) = invoked st ++ [fb; fb'].
Proof.
  intros Hinvalid Hflight st1 st2. subst st2 st1.
  assert (Hg : get k (Some fb) ttl now st = (Defer k fb, with_cache (delete k) st)).
  { unfold get. rewrite validCachedValue_invalid by done. simpl. by rewrite Hflight. }
  rewrite Hg. simpl. split_and!; try done.
  intros fb' ttl' t o'.
  assert (Hget : get k (Some fb') ttl' t
                   (subscribe_throws k fb e o (with_cache (delete k) st))
                 = (Defer k fb', subscribe_throws k fb e o (with_cache (delete k) st))).
  { unfold get. rewrite validCachedValue_absent by (simpl; apply lookup_delete_eq).
    simpl. by rewrite Hflight. }
  split; [exact Hget|].
  unfold get_subscribe. rewrite Hget. simpl. by rewrite <- app_assoc.
Qed.

Lemma throwing_fallback_registers_nothing_witness :
  let st2 := subscribe_throws "k" 7 (Str "no") 1%nat
               (snd (get "k" (Some 7%nat) None 0 empty)) in
  invoked st2 = [7%nat]
  ∧ get "k" (Some 8%nat) None 5 st2 = (Defer "k" 8, st2).
Proof.
  intros st2.
  assert (Hinvalid : ∀ c, cache empty !! "k" = Some c →
                          timestamp c + default DEFAULT_LIFE_TIME None < 0).
  { intros c Hc. by vm_compute in Hc. }
  destruct (throwing_fallback_registers_nothing empty "k" 7 None 0 1 (Str "no")
              Hinvalid eq_refl) as (_ & Hinv & _ & _ & _ & _ & _ & Hnext).
  split; [exact Hinv | exact (proj1 (Hnext 8%nat None 5 2%nat))].
Defined.

(** ** What runs of the cache keep *)

Lemma consistent_ext st st' :
  inFlightObservables st' = inFlightObservables st →
  subjects st' = subjects st →
  fetches st' = fetches st →
  consistent st → consistent st'.
Proof. intros H1 H2 H3 []. split; rewrite ?H1, ?H2, ?H3; done. Qed.

Lemma fetch_ids (l l' : list Fetch) j (g : Fetch) :
  (fun f => (f_key f, f_inFlight f)) <$> l' = (fun f => (f_key f, f_inFlight f)) <$> l →
  l' !! j = Some g →
  ∃ g0, l !! j = Some g0 ∧ f_key g0 = f_key g ∧ f_inFlight g0 = f_inFlight g.
Proof.
  intros Hids Hj.
  assert (H : ((fun f => (f_key f, f_inFlight f)) <$> l) !! j
              = Some (f_key g, f_inFlight g)).
  { by rewrite <- Hids, list_lookup_fmap, Hj. }
  rewrite list_lookup_fmap in H. destruct (l !! j) as [g0|]; [|done].
  simpl in H. injection H as H1 H2. by exists g0.
Qed.

(** A step that opens no fetch and no Subject, and leaves in the
    in-flight map only keys that were there, with Subjects that are
    still open, keeps the cache consistent. *)
Lemma consistent_update st st' :
  consistent st →
  (fun f => (f_key f, f_inFlight f)) <$> fetches st'
    = (fun f => (f_key f, f_inFlight f)) <$> fetches st →
  length (subjects st') = length (subjects st) →
  (∀ k s, inFlightObservables st' !! k = Some s →
          inFlightObservables st !! k = Some s
          ∧ ∃ subj, subjects st' !! s = Some subj
                    ∧ isStopped subj = false ∧ hasError subj = false) →
  consistent st'.
Proof.
  intros [H1 H2 H3 H4] Hids Hlen Hflight. split.
  - intros k s Hk. by destruct (Hflight k s Hk).
  - intros k s Hk. destruct (Hflight k s Hk) as [Hk0 _].
    destruct (H2 k s Hk0) as (j & g0 & Hj & Hkey & Hs).
    assert (Hj' : ((fun f => (f_key f, f_inFlight f)) <$> fetches st') !! j
                  = Some (k, s)).
    { by rewrite Hids, list_lookup_fmap, Hj; simpl; rewrite Hkey, Hs. }
    rewrite list_lookup_fmap in Hj'.
    destruct (fetches st' !! j) as [g|] eqn:Hg; [|done].
    inversion Hj'. by exists j, g.
  - intros j g Hj. destruct (fetch_ids _ _ _ _ Hids Hj) as (g0 & Hj0 & _ & <-).
    rewrite Hlen. by eapply H3.
  - intros j1 j2 g1 g2 Hj1 Hj2 Heq.
    destruct (fetch_ids _ _ _ _ Hids Hj1) as (g01 & Hj01 & _ & Hs1).
    destruct (fetch_ids _ _ _ _ Hids Hj2) as (g02 & Hj02 & _ & Hs2).
    apply (H4 j1 j2 g01 g02); congruence.
Qed.

Lemma subject_next_fields s v st :
  inFlightObservables (subject_next s v st) = inFlightObservables st
  ∧ subjects (subject_next s v st) = subjects st
  ∧ fetches (subject_next s v st) = fetches st.
Proof. unfold subject_next. by repeat case_match. Qed.

Lemma subject_error_fields s e st :
  inFlightObservables (subject_error s e st) = inFlightObservables st
  ∧ fetches (subject_error s e st) = fetches st
  ∧ length (subjects (subject_error s e st)) = length (subjects st)
  ∧ ∀ s', s' ≠ s → subjects (subject_error s e st) !! s' = subjects st !! s'.
Proof.
  unfold subject_error. repeat case_match; simpl; split_and!; try done.
  - apply length_insert.
  - intros s' Hne. by apply list_lookup_insert_ne.
Qed.

Lemma subject_complete_fields s st :
  inFlightObservables (subject_complete s st) = inFlightObservables st
  ∧ fetches (subject_complete s st) = fetches st
  ∧ length (subjects (subject_complete s st)) = length (subjects st)
  ∧ ∀ s', s' ≠ s → subjects (subject_complete s st) !! s' = subjects st !! s'.
Proof.
  unfold subject_complete. repeat case_match; simpl; split_and!; try done.
  - apply length_insert.
  - intros s' Hne. by apply list_lookup_insert_ne.
Qed.

(** A key other than the one of a fetch is in flight on another
    Subject. *)
Lemma other_key_other_subject st i (f : Fetch) k s :
  consistent st →
  fetches st !! i = Some f →
  inFlightObservables st !! k = Some s →
  k ≠ f_key f → s ≠ f_inFlight f.
Proof.
  intros [_ H2 _ H4] Hf Hk Hne Heq.
  destruct (H2 k s Hk) as (j & g & Hj & Hkey & Hs).
  assert (j = i) by (apply (H4 j i g f); congruence). subst j.
  congruence.
Qed.

Lemma consistent_source_emit i n (now : Z) st :
  consistent st → consistent (source_emit i n now st).
Proof.
  intros Hc. unfold source_emit.
  destruct (fetches st !! i) as [f|] eqn:Hf; [|done].
  destruct (f_closed f); [done|].
  destruct n as [v|e|].
  - (* a value: the Subject of the fetch stops, its key leaves the map *)
    set (st1 := set (f_key f) v now st).
    destruct (subject_next_fields (f_inFlight f) v st1) as (Ha1 & Ha2 & Ha3).
    destruct (subject_complete_fields (f_inFlight f) (subject_next (f_inFlight f) v st1))
      as (Hb1 & Hb2 & Hb3 & Hb4).
    apply (consistent_update st); [done|..]; simpl.
    + by rewrite Hb2, Ha3.
    + by rewrite Hb3, Ha2.
    + intros k s. rewrite Hb1, Ha1. simpl.
      intros [Hne Hk]%lookup_delete_Some. split; [done|].
      rewrite Hb4, Ha2 by (by eapply other_key_other_subject).
      by apply (flight_live _ Hc k).
  - destruct (subject_error_fields (f_inFlight f) e st) as (Ha1 & Ha2 & Ha3 & Ha4).
    set (st1 := subject_error (f_inFlight f) e st) in *.
    destruct (subject_complete_fields (f_inFlight f) st1) as (Hb1 & Hb2 & Hb3 & Hb4).
    apply (consistent_update st); [done|..]; simpl.
    + rewrite Hb2, Ha2. by apply fmap_alter_same.
    + by rewrite Hb3, Ha3.
    + intros k s. rewrite Hb1, Ha1.
      intros [Hne Hk]%lookup_delete_Some. split; [done|].
      assert (s ≠ f_inFlight f) by (by eapply other_key_other_subject).
      rewrite Hb4, Ha4 by done.
      by apply (flight_live _ Hc k).
  - apply (consistent_update st); [done|..]; simpl; [|done|].
    + by apply fmap_alter_same.
    + intros k s Hk. split; [done|]. by apply (flight_live _ Hc k).
Qed.

Lemma consistent_subscribe (obs : Observable) o st :
  consistent st → consistent (subscribe obs o st).
Proof.
  intros Hc. destruct obs as [v|s|key fb|e]; simpl.
  - by apply (consistent_ext st).
  - unfold subject_subscribe.
    destruct (subjects st !! s) as [subj|] eqn:Hs; [|done].
    destruct (hasError subj) eqn:Herr; [by apply (consistent_ext st)|].
    destruct (isStopped subj) eqn:Hst; [by apply (consistent_ext st)|].
    apply (consistent_update st); [done|..]; simpl; [done|apply length_insert|].
    intros k s' Hk. split; [done|].
    destruct (decide (s' = s)) as [->|Hne].
    + rewrite list_lookup_insert_eq by (by eapply lookup_lt_Some). eauto.
    + rewrite list_lookup_insert_ne by done. by apply (flight_live _ Hc k).
  - destruct Hc as [H1 H2 H3 H4]. split; simpl.
    + intros k s. destruct (decide (key = k)) as [->|Hne].
      * rewrite lookup_insert_eq. intros [= <-].
        exists new_Subject. by rewrite lookup_app_r, Nat.sub_diag.
      * rewrite lookup_insert_ne by done. intros Hk.
        destruct (H1 k s Hk) as (subj & Hsubj & Hlive).
        exists subj. split; [|done]. by apply lookup_app_l_Some.
    + intros k s. destruct (decide (key = k)) as [->|Hne].
      * rewrite lookup_insert_eq. intros [= <-].
        exists (length (fetches st)), {| f_key := k; f_inFlight := length (subjects st);
                                         f_subscriber := o; f_closed := false |}.
        by rewrite lookup_app_r, Nat.sub_diag.
      * rewrite lookup_insert_ne by done. intros Hk.
        destruct (H2 k s Hk) as (j & g & Hj & Hkey & Hg).
        exists j, g. split; [|done]. by apply lookup_app_l_Some.
    + intros j g. rewrite lookup_app_Some, length_app. simpl.
      intros [Hj|[_ Hj]].
      * specialize (H3 j g Hj). lia.
      * apply list_lookup_singleton_Some in Hj as [_ <-]. simpl. lia.
    + intros j1 j2 g1 g2. rewrite !lookup_app_Some.
      intros [Hj1|[Hl1 Hj1]] [Hj2|[Hl2 Hj2]] Heq.
      * by apply (H4 j1 j2 g1 g2).
      * apply list_lookup_singleton_Some in Hj2 as [_ <-]. simpl in Heq.
        specialize (H3 j1 g1 Hj1). lia.
      * apply list_lookup_singleton_Some in Hj1 as [_ <-]. simpl in Heq.
        specialize (H3 j2 g2 Hj2). lia.
      * apply list_lookup_singleton_Some in Hj1 as [? _].
        apply list_lookup_singleton_Some in Hj2 as [? _]. lia.
  - by apply (consistent_ext st).
Qed.

Lemma consistent_step (op : Op) st : consistent st → consistent (step op st).
Proof.
  intros Hc.
  destruct op as [key fb ttl now|obs o|key fb e o|key v now|key|key ttl now|i n now]; simpl.
  - apply (consistent_ext st); [..|done];
      unfold get, validCachedValue;
      (destruct (cache st !! key) as [c|]; [destruct (_ <? _)|]); simpl;
      by repeat case_match.
  - by apply consistent_subscribe.
  - by apply (consistent_ext st).
  - by apply (consistent_ext st).
  - done.
  - apply (consistent_ext st); [..|done]; unfold collect; by repeat case_match.
  - by apply consistent_source_emit.
Qed.

Lemma consistent_empty : consistent empty.
Proof. split; simpl; intros *; by rewrite ?lookup_empty. Qed.

Lemma consistent_run (ops : list Op) st : consistent st → consistent (run ops st).
Proof.
  unfold run. revert st. induction ops as [|op ops IH]; intros st Hc; simpl; [done|].
  by apply IH, consistent_step.
Qed.

(** X9: whatever has been done to a cache since it was created (calls
    of [get], [set], [has] and [collect], subscriptions to any observable
    it returned, with fallbacks that return or throw, in any order and
    any number of times, and fetches telling values, errors and
    completions), the in-flight map only holds
    Subjects that have not stopped, each the Subject of a fetch opened for
    that very key. So a caller whom [get] hands a Subject in flight and who
    subscribes at once is never told a stale completion or error: it
    becomes an observer of that Subject and is told nothing yet. *)
Theorem runs_keep_flights_live (ops : list Op) :
  let st := run ops empty in
  consistent st
  ∧ ∀ k (fallback : option nat) ttl (now : Z) s st',
      get k fallback ttl now st = (InFlight s, st') →
      ∀ o, delivered (subscribe (InFlight s) o st') = delivered st'
           ∧ ∃ subj, subjects (subscribe (InFlight s) o st') !! s = Some subj
                     ∧ isStopped subj = false ∧ o ∈ observers subj.
Proof.
  intros st. assert (Hc : consistent st) by apply consistent_run, consistent_empty.
  split; [done|].
  intros k fallback ttl now s st' Hget o.
  assert (Hc' : consistent st').
  { replace st' with (step (OpGet k fallback ttl now) st) by (simpl; by rewrite Hget).
    by apply consistent_step. }
  assert (Hk : inFlightObservables st' !! k = Some s).
  { unfold get in Hget. destruct (validCachedValue _ _ _ _) as [cached st1].
    destruct cached; [done|].
    destruct (inFlightObservables st1 !! k) eqn:Hk; [|by destruct fallback].
    by injection Hget as -> ->. }
  destruct (flight_live _ Hc' k s Hk) as (subj & Hs & Hlive & Herr).
  simpl. unfold subject_subscribe. rewrite Hs, Herr, Hlive. simpl.
  split; [done|].
  rewrite list_lookup_insert_eq by (by eapply lookup_lt_Some).
  eexists. split; [done|]. simpl. split; [done|].
  apply elem_of_app. right. by apply list_elem_of_singleton.
Qed.


(** ** A fetch that completes without a value *)

Lemma get_frame k (fallback : option nat) ttl (now : Z) st :
  inFlightObservables (snd (get k fallback ttl now st)) = inFlightObservables st
  ∧ subjects (snd (get k fallback ttl now st)) = subjects st
  ∧ fetches (snd (get k fallback ttl now st)) = fetches st.
Proof.
  unfold get, validCachedValue.
  destruct (cache st !! k) as [c|]; [destruct (_ <? _)|]; simpl;
    by repeat case_match.
Qed.

Lemma stuck_ext k s st st' :
  cache st' !! k = cache st !! k →
  inFlightObservables st' = inFlightObservables st →
  subjects st' = subjects st →
  fetches st' = fetches st →
  stuck k s st → stuck k s st'.
Proof. intros H0 H1 H2 H3 []. split; rewrite ?H0, ?H1, ?H2, ?H3; done. Qed.

Lemma stuck_source_emit k s i n (now : Z) st :
  stuck k s st → stuck k s (source_emit i n now st).
Proof.
  intros Hst. unfold source_emit.
  destruct (fetches st !! i) as [f|] eqn:Hf; [|done].
  destruct (f_closed f) eqn:Hcl; [done|].
  destruct (stuck_fetches _ _ _ Hst i f Hf Hcl) as [Hkey Hsub].
  destruct Hst as [H1 H2 (subj & H3 & Hlive & Herr) H4].
  destruct n as [v|e|].
  - set (st1 := set (f_key f) v now st).
    destruct (subject_next_fields (f_inFlight f) v st1) as (Ha1 & Ha2 & Ha3).
    destruct (subject_complete_fields (f_inFlight f) (subject_next (f_inFlight f) v st1))
      as (Hb1 & Hb2 & Hb3 & Hb4).
    split; simpl.
    + rewrite cache_subject_complete, cache_subject_next. simpl.
      by rewrite lookup_insert_ne.
    + rewrite Hb1, Ha1. simpl. by rewrite lookup_delete_ne.
    + rewrite Hb4, Ha2 by done. by exists subj.
    + rewrite Hb2, Ha3. exact H4.
  - destruct (subject_error_fields (f_inFlight f) e st) as (Ha1 & Ha2 & Ha3 & Ha4).
    set (st1 := subject_error (f_inFlight f) e st) in *.
    destruct (subject_complete_fields (f_inFlight f) st1) as (Hb1 & Hb2 & Hb3 & Hb4).
    split; simpl.
    + subst st1. by rewrite cache_subject_complete, cache_subject_error.
    + rewrite Hb1, Ha1. by rewrite lookup_delete_ne.
    + rewrite Hb4, Ha4 by done. by exists subj.
    + rewrite Hb2, Ha2. intros j g Hj Hopen.
      destruct (decide (j = i)) as [->|Hne].
      * rewrite list_lookup_alter_eq, Hf in Hj. simpl in Hj.
        injection Hj as <-. done.
      * rewrite list_lookup_alter_ne in Hj by done. by apply (H4 j).
  - split; simpl; [done..| |].
    + by exists subj.
    + intros j g Hj Hopen.
      destruct (decide (j = i)) as [->|Hne].
      * rewrite list_lookup_alter_eq, Hf in Hj. simpl in Hj.
        injection Hj as <-. done.
      * rewrite list_lookup_alter_ne in Hj by done. by apply (H4 j).
Qed.

Lemma stuck_subscribe k s (obs : Observable) o st :
  stuck k s st → leaves k (OpSubscribe obs o) → stuck k s (subscribe obs o st).
Proof.
  intros Hst Hop. destruct obs as [v|s'|key fb|e]; simpl in *.
  - by apply (stuck_ext k s st).
  - unfold subject_subscribe.
    destruct (subjects st !! s') as [subj'|] eqn:Hs'; [|done].
    destruct (hasError subj') eqn:Herr'; [by apply (stuck_ext k s st)|].
    destruct (isStopped subj') eqn:Hst'; [by apply (stuck_ext k s st)|].
    destruct Hst as [H1 H2 (subj & H3 & Hlive & Herr) H4].
    split; simpl; [done..| |done].
    destruct (decide (s = s')) as [->|Hne].
    + rewrite list_lookup_insert_eq by (by eapply lookup_lt_Some). eauto.
    + rewrite list_lookup_insert_ne by done. by exists subj.
  - destruct Hst as [H1 H2 (subj & H3 & Hlive & Herr) H4].
    assert (Hlt : (s < length (subjects st))%nat) by by eapply lookup_lt_Some.
    split; simpl.
    + done.
    + by rewrite lookup_insert_ne.
    + exists subj. split; [|done]. by apply lookup_app_l_Some.
    + intros j g. rewrite lookup_app_Some. intros [Hj|[_ Hj]] Hopen.
      * by apply (H4 j).
      * apply list_lookup_singleton_Some in Hj as [_ <-]. simpl. split; [done|lia].
  - by apply (stuck_ext k s st).
Qed.

Lemma stuck_step k s (op : Op) st :
  stuck k s st → leaves k op → stuck k s (step op st).
Proof.
  intros Hst Hop.
  destruct op as [key fb ttl now|obs o|key fb e o|key v now|key|key ttl now|i n now]; simpl.
  - destruct (get_frame key fb ttl now st) as (Hf1 & Hf2 & Hf3).
    apply (stuck_ext k s st); try done.
    rewrite cache_get. pose proof (stuck_cache _ _ _ Hst) as Hc.
    destruct (decide (key = k)) as [->|Hne]; [by rewrite Hc|].
    repeat case_match; try done. by rewrite lookup_delete_ne.
  - by apply stuck_subscribe.
  - by apply (stuck_ext k s st).
  - simpl in Hop. apply (stuck_ext k s st); try done.
    simpl. by rewrite lookup_insert_ne.
  - done.
  - apply (stuck_ext k s st); try (unfold collect; by repeat case_match).
    rewrite cache_collect. pose proof (stuck_cache _ _ _ Hst) as Hc.
    destruct (decide (key = k)) as [->|Hne]; [by rewrite Hc|].
    repeat case_match; try done. by rewrite lookup_delete_ne.
  - by apply stuck_source_emit.
Qed.

Lemma stuck_run k s (ops : list Op) st :
  stuck k s st → Forall (leaves k) ops → stuck k s (run ops st).
Proof.
  unfold run. revert st. induction ops as [|op ops IH]; intros st Hst Hops; [done|].
  apply Forall_cons in Hops as [Hop Hops]. simpl.
  apply IH; [|done]. by apply stuck_step.
Qed.

(** While a key is stuck in flight, [get] for it hands out the Subject
    and changes nothing, and subscribing to the Subject calls no
    fallback and tells nothing. *)
Lemma stuck_get k s st (fallback : option nat) ttl (t : Z) o :
  stuck k s st →
  get k fallback ttl t st = (InFlight s, st)
  ∧ invoked (get_subscribe k fallback ttl t o st) = invoked st
  ∧ delivered (get_subscribe k fallback ttl t o st) = delivered st.
Proof.
  intros [H1 H2 (subj & H3 & Hlive & Herr) H4].
  assert (Hget : get k fallback ttl t st = (InFlight s, st)).
  { unfold get. rewrite validCachedValue_absent by done. by rewrite H2. }
  split; [done|]. unfold get_subscribe. rewrite Hget. simpl.
  unfold subject_subscribe. by rewrite H3, Herr, Hlive.
Qed.

(** X6: when the observable of the fallback completes without a value,
    neither callback of [get] runs: the caller that started the fetch is
    told the completion, those that joined are told nothing, and the key
    stays in the in-flight map with its Subject open; the fetch says no
    more. If that fetch was the only open one on the key and the Subject,
    the key then stays so over every run of steps (calls of [get], [has]
    and [collect] for any key, [set] for other keys, subscriptions,
    fetches telling something) in which no value is [set] for the key and
    no deferred fetch for the key, handed out earlier, is subscribed:
    after it the cache has no entry for the key, every [get] for the key
    returns that Subject and changes nothing, and subscribing to it calls
    no fallback and tells the subscriber nothing. *)
Theorem empty_fetch_stays_in_flight st k i s o (obs : list nat) (now : Z)
    (ops : list Op) :
  in_flight k i s o obs st →
  (∀ j f, fetches st !! j = Some f → j ≠ i → f_closed f = false →
          f_key f ≠ k ∧ f_inFlight f ≠ s) →
  Forall (leaves k) ops →
  let st1 := source_emit i Complete now st in
  let st2 := run ops st1 in
  delivered st1 = delivered st ++ [(o, Complete)]
  ∧ invoked st1 = invoked st
  ∧ subjects st1 = subjects st
  ∧ (∀ n t, source_emit i n t st1 = st1)
  ∧ inFlightObservables st2 !! k = Some s
  ∧ (∃ subj, subjects st2 !! s = Some subj ∧ isStopped subj = false)
  ∧ has k st2 = false
  ∧ ∀ (fallback : option nat) ttl t o',
      get k fallback ttl t st2 = (InFlight s, st2)
      ∧ invoked (get_subscribe k fallback ttl t o' st2) = invoked st2
      ∧ delivered (get_subscribe k fallback ttl t o' st2) = delivered st2.
Proof.
  intros (Hcache & Hflight & Hsubj & Hfetch) Honly Hops st1 st2.
  assert (Hlt : (i < length (fetches st))%nat) by by eapply lookup_lt_Some.
  assert (Hst1 : st1 = deliver (tell o [Complete]) (close_fetch i st)).
  { subst st1. unfold source_emit. by rewrite Hfetch. }
  assert (Hstuck1 : stuck k s st1).
  { rewrite Hst1. split; simpl; [done..| |].
    - eexists. split; [exact Hsubj|done].
    - intros j g Hj Hopen. destruct (decide (j = i)) as [->|Hne].
      + rewrite list_lookup_alter_eq, Hfetch in Hj. simpl in Hj.
        injection Hj as <-. done.
      + rewrite list_lookup_alter_ne in Hj by done. by apply (Honly j). }
  assert (Hstuck2 : stuck k s st2) by by apply stuck_run.
  split_and!; try by rewrite Hst1.
  - intros n t. rewrite Hst1. unfold source_emit. simpl.
    by rewrite list_lookup_alter_eq, Hfetch.
  - apply Hstuck2.
  - destruct (stuck_subject _ _ _ Hstuck2) as (subj & ? & ? & _). by exists subj.
  - apply has_false, Hstuck2.
  - intros fallback ttl t o'. by apply stuck_get.
Qed.

Lemma empty_fetch_stays_in_flight_witness :
  let st := get_subscribe "k" (Some 7%nat) None 0 1%nat empty in
  let st1 := source_emit 0 Complete 50 st in
  let st2 := run [OpGet "k" None None 55; OpSubscribe (InFlight 0) 2%nat;
                  OpSet "j" (Num 1) 56; OpSource 0 (Next (Num 10)) 57] st1 in
  get "k" (Some 8%nat) None 60 st2 = (InFlight 0, st2).
Proof.
  intros st st1 st2.
  assert (Hin : in_flight "k" 0 0 1 [] st) by (repeat split; reflexivity).
  assert (Honly : ∀ j f, fetches st !! j = Some f → j ≠ 0%nat → f_closed f = false →
                         f_key f ≠ "k" ∧ f_inFlight f ≠ 0%nat).
  { intros [|j] f Hj Hne _; [done|]. by vm_compute in Hj. }
  assert (Hops : Forall (leaves "k")
                   [OpGet "k" None None 55; OpSubscribe (InFlight 0) 2%nat;
                    OpSet "j" (Num 1) 56; OpSource 0 (Next (Num 10)) 57]).
  { repeat constructor. simpl. discriminate. }
  destruct (empty_fetch_stays_in_flight st "k" 0 0 1 [] 50 _ Hin Honly Hops)
    as (_ & _ & _ & _ & _ & _ & _ & H).
  exact (proj1 (H (Some 8%nat) None 60 2%nat)).
Defined.

(** X10: [tap] runs on every value, so if the observable of the
    fallback gives a second value, that value replaces the first in the
    cache, with the time it came at, and the caller that started the fetch
    is told it; the observers that had joined the flight are told the
    first value and completion and nothing more. *)
Theorem later_values_of_a_fetch st k i s o (obs : list nat) (v1 v2 : any) (t1 t2 : Z) :
  in_flight k i s o obs st →
  let st2 := source_emit i (Next v2) t2 (source_emit i (Next v1) t1 st) in
  cache st2 !! k = Some {| timestamp := t2; value := v2 |}
  ∧ inFlightObservables st2 !! k = None
  ∧ delivered st2
    = delivered st ++ tell_all obs (Next v1) ++ tell_all obs Complete
        ++ [(o, Next v1); (o, Next v2)].
Proof.
  intros (Hcache & Hflight & Hsubj & Hfetch) st2.
  assert (Hlt : (s < length (subjects st))%nat) by by eapply lookup_lt_Some.
  set (st1 := source_emit i (Next v1) t1 st) in *.
  assert (Hst1 : st1
    = deliver (tell o [Next v1])
        (with_inFlight (delete k)
           (deliver (tell_all obs Complete)
              (with_subjects
                 (<[s := {| observers := []; isStopped := true; hasError := false;
                            thrownError := Null |}]>)
                 (deliver (tell_all obs (Next v1)) (set k v1 t1 st)))))).
  { subst st1. unfold source_emit. rewrite Hfetch. simpl.
    unfold subject_next, set. simpl. rewrite Hsubj. simpl.
    unfold subject_complete. simpl. by rewrite Hsubj. }
  assert (Hst2 : st2
    = deliver (tell o [Next v2]) (with_inFlight (delete k) (set k v2 t2 st1))).
  { subst st2. unfold source_emit. rewrite Hst1 at 1. simpl. rewrite Hfetch. simpl.
    unfold subject_next. rewrite Hst1 at 1. simpl.
    rewrite list_lookup_insert_eq by done. simpl.
    unfold subject_complete. rewrite Hst1 at 1. simpl.
    rewrite list_lookup_insert_eq by done. simpl. done. }
  rewrite Hst2. simpl. split_and!.
  - apply lookup_insert_eq.
  - apply lookup_delete_eq.
  - rewrite Hst1. simpl. by rewrite <- !app_assoc.
Qed.

Lemma later_values_of_a_fetch_witness :
  let st := get_subscribe "k" None None 1 2%nat (get_subscribe "k" (Some 7%nat) None 0 1%nat empty) in
  delivered (source_emit 0 (Next (Num 20)) 60 (source_emit 0 (Next (Num 10)) 50 st))
  = [(2%nat, Next (Num 10)); (2%nat, Complete); (1%nat, Next (Num 10)); (1%nat, Next (Num 20))].
Proof.
  intros st.
  assert (Hin : in_flight "k" 0 0 1 [2%nat] st) by (repeat split; reflexivity).
  exact (proj2 (proj2 (later_values_of_a_fetch st "k" 0 0 1 [2%nat] (Num 10) (Num 20) 50 60 Hin))).
Defined.

End CacheServiceMore.


(** * More properties of StreamService *)

Section StreamServiceMore.
Import StreamService StreamRuns.

Implicit Types (st : state) (k key : string) (h i r o : nat) (p : Pipeline)
  (ob : Observer) (n : Notification) (t d w : Z) (tm : Timer) (v payload : any).

Lemma Map_get_set_ne {A} key j (a : A) (m : list (string * A)) :
  j ≠ key → Map_get j (Map_set key a m) = Map_get j m.
Proof.
  intros Hne. induction m as [|[k b] m IH]; simpl.
  - by rewrite bool_decide_eq_false_2.
  - destruct (bool_decide (k = key)) eqn:Hk; simpl.
    + apply bool_decide_eq_true in Hk as ->.
      by rewrite !bool_decide_eq_false_2 by done.
    + by rewrite IH.
Qed.

Lemma Map_get_delete {A} key (m : list (string * A)) :
  Map_get key (Map_delete key m) = None.
Proof.
  unfold Map_delete. induction m as [|[k b] m IH]; [done|].
  rewrite filter_cons. simpl. destruct (decide (k ≠ key)) as [Hne|Heq]; [|done].
  simpl. by rewrite bool_decide_eq_false_2.
Qed.

Lemma Map_get_delete_ne {A} key j (m : list (string * A)) :
  j ≠ key → Map_get j (Map_delete key m) = Map_get j m.
Proof.
  intros Hne. unfold Map_delete. induction m as [|[k b] m IH]; [done|].
  rewrite filter_cons. simpl. destruct (decide (k ≠ key)) as [Hk|Hk]; simpl.
  - by rewrite IH.
  - apply dec_stable in Hk as ->. by rewrite bool_decide_eq_false_2.
Qed.

Lemma Map_has_false {A} key (m : list (string * A)) :
  Map_get key m = None → Map_has key m = false.
Proof.
  intros H. unfold Map_has. rewrite H. apply bool_decide_eq_false.
  by intros [? ?].
Qed.

(** X11: registering a key that has no handler never fails: it makes a
    new pipeline, not yet subscribed, with the given query function and
    throttle time (1000 when none is given), and from then on [getHandler]
    and [getStream$] for the key answer it. The handlers of the other keys
    and the pipelines that exist are as before; no query function is
    called, nothing is told, no timer is set. *)
Theorem register_new_key st k (q : nat) (thr : option Z) :
  getHandler k st = None →
  let h := length (pipes st) in
  let '(result, st') := registerStream' k q thr st in
  result = inr h
  ∧ getHandler k st' = Some h ∧ getStream' k st' = Some h
  ∧ pipes st' !! h
    = Some {| queryOnce := q; updateThrottleTime := default 1000 thr;
              connected := false; stopped := false; replay := None;
              stream_observers := [] |}
  ∧ (∀ j, j ≠ k → getHandler j st' = getHandler j st)
  ∧ (∀ h' p, pipes st !! h' = Some p → pipes st' !! h' = Some p)
  ∧ queried st' = queried st ∧ delivered st' = delivered st
  ∧ timers st' = timers st.
Proof.
  intros Hk h. unfold registerStream', getHandler, getStream' in *.
  rewrite (Map_has_false _ _ Hk). simpl. split_and!; try done.
  - apply Map_get_set.
  - apply Map_get_set.
  - by rewrite lookup_app_r, Nat.sub_diag.
  - intros j Hj. by apply Map_get_set_ne.
  - intros h' p Hp. by apply lookup_app_l_Some.
Qed.

Lemma register_new_key_witness :
  let st := snd (registerStream' "a" 1 None empty) in
  fst (registerStream' "b" 2 (Some 50) st) = inr 1%nat.
Proof.
  intros st.
  pose proof (register_new_key st "b" 2 (Some 50) eq_refl) as H.
  destruct (registerStream' "b" 2 (Some 50) st) as [result st'].
  exact (proj1 H).
Defined.

Lemma quiet_tells t (obs : list Observer) o n st :
  (∀ e, n ≠ Error e) →
  Subscriber o ∈ obs → (o, n) ∈ delivered (notify_all obs n st).
Proof.
  intros Hn. unfold notify_all. revert st.
  induction obs as [|ob obs IH]; intros st Hin.
  - by apply elem_of_nil in Hin.
  - apply elem_of_cons in Hin as [<-|Hin]; simpl.
    + apply (quiet_delivered_mono t (deliver [(o, n)] st)).
      * by apply (quiet_notify_all t obs n).
      * simpl. apply elem_of_app. right. by apply list_elem_of_singleton.
    + by apply IH.
Qed.

(** What [clear$.next()] makes of a stream that is subscribed and not
    yet cleared. *)
Lemma clear_next_live h p st :
  pipes st !! h = Some p → connected p = true → stopped p = false →
  let st1 := clear_next h st in
  streams st1 = streams st
  ∧ queried st1 = queried st
  ∧ (∀ o, Subscriber o ∈ stream_observers p → (o, Complete) ∈ delivered st1)
  ∧ (∀ o e, (o, Error e) ∈ delivered st1 → (o, Error e) ∈ delivered st)
  ∧ (∃ p1, pipes st1 !! h = Some p1 ∧ view p1 = view (set_stopped p))
  ∧ queries st1
    = (fun q => if bool_decide (q_stream q = h)
                then {| q_stream := h; q_closed := true |} else q) <$> queries st
  ∧ throttled h st1 = false.
Proof.
  intros Hp Hc Hs st1. subst st1. unfold clear_next. rewrite Hp, Hc, Hs. simpl.
  set (st0 := with_pipes (alter set_stopped h) st).
  assert (Hq : quiet 0 st0 (notify_all (stream_observers p) Complete st0))
    by by apply quiet_notify_all.
  split_and!.
  - apply (quiet_streams _ _ _ Hq).
  - apply (quiet_queried _ _ _ Hq).
  - intros o Hin. by apply (quiet_tells 0).
  - intros o e Hin. by apply (quiet_no_error _ _ _ _ _ Hq) in Hin.
  - apply (quiet_pipe _ _ _ _ _ Hq). simpl. by rewrite list_lookup_alter_eq, Hp.
  - by rewrite (quiet_queries _ _ _ Hq).
  - apply throttled_false. intros d Hin. simpl in Hin.
    apply list_elem_of_filter in Hin as [Hne _]. by apply Hne.
Qed.

(** X12: [clear] of a key whose stream is subscribed completes every
    subscriber of the stream, stops the pipeline for good and takes the
    key out of the registry. After that a value or an error of a query
    the pipeline had started changes nothing; neither does a handler's
    [update] somebody kept; who subscribes to the stream is told the last
    value, if there was one, and completion; the key can be registered
    again. The handlers of the other keys are as before. *)
Theorem clear_tears_down st k h p :
  getHandler k st = Some h →
  pipes st !! h = Some p →
  connected p = true →
  stopped p = false →
  let st1 := clear k st in
  getHandler k st1 = None
  ∧ (∀ j, j ≠ k → getHandler j st1 = getHandler j st)
  ∧ (∀ o, Subscriber o ∈ stream_observers p → (o, Complete) ∈ delivered st1)
  ∧ (∀ i n, queries st !! i = Some {| q_stream := h; q_closed := false |} →
            query_emit i n st1 = st1)
  ∧ (∀ payload, update h payload st1 = st1)
  ∧ (∀ o, delivered (subscribe (Stream h) o st1)
          = delivered st1
            ++ (if replay p is Some v then [(o, Next v)] else [])
            ++ [(o, Complete)])
  ∧ ∀ q thr, fst (registerStream' k q thr st1) = inr (length (pipes st1)).
Proof.
  intros Hk Hp Hc Hs st1. unfold getHandler in *.
  destruct (clear_next_live h p st Hp Hc Hs)
    as (Hstr & Hqd & Htold & _ & (p1 & Hp1 & Hv1) & Hqs & Hth).
  assert (Hst1 : st1 = with_streams (Map_delete k) (clear_next h st)).
  { subst st1. unfold clear. by rewrite Hk. }
  destruct (view_fields _ _ Hv1) as (_ & _ & Hc1 & Hs1 & Hr1 & _).
  simpl in Hs1, Hr1.
  rewrite Hst1. simpl. split_and!.
  - apply Map_get_delete.
  - intros j Hj. rewrite Hstr. by apply Map_get_delete_ne.
  - done.
  - intros i n Hi. unfold query_emit. simpl. rewrite Hqs, list_lookup_fmap, Hi.
    simpl. by rewrite bool_decide_eq_true_2.
  - intros payload. unfold update. simpl. by rewrite Hp1, Hs1, andb_false_r.
  - intros o. unfold subscribe_stream. simpl. rewrite Hp1, Hs1, Hr1.
    destruct (replay p); simpl; by rewrite <- ?app_assoc.
  - intros q thr. unfold registerStream'. simpl.
    by rewrite (Map_has_false _ _ (Map_get_delete k _)).
Qed.

Lemma clear_tears_down_witness :
  let st := subscribe (Stream 0) 1 (snd (registerStream' "x" 9 None empty)) in
  getHandler "x" (clear "x" st) = None
  ∧ (1%nat, Complete) ∈ delivered (clear "x" st).
Proof.
  intros st.
  destruct (clear_tears_down st "x" 0
              {| queryOnce := 9; updateThrottleTime := 1000; connected := true;
                 stopped := false; replay := None;
                 stream_observers := [Subscriber 1] |}
              eq_refl eq_refl eq_refl eq_refl) as (H1 & _ & H2 & _).
  split; [exact H1|]. apply H2. simpl. apply list_elem_of_singleton. reflexivity.
Defined.

(** X13: [clear] of a key that has no handler changes nothing, and
    once a key is cleared it has none: so clearing twice is clearing
    once, and after a [clear] a request for the key is dropped and
    [applyUpdate$] for it gives the observable of [true], both without
    changing anything. *)
Theorem clear_is_idempotent st k payload w :
  let st1 := clear k st in
  getHandler k st1 = None
  ∧ clear k st1 = st1
  ∧ applyUpdate k payload st1 = st1
  ∧ applyUpdate' k payload w st1 = (Of (Bool true), st1).
Proof.
  intros st1.
  assert (Hk : Map_get k (streams st1) = None).
  { subst st1. unfold clear.
    destruct (Map_get k (streams st)) as [entry|] eqn:Hk; [|done].
    simpl. apply Map_get_delete. }
  unfold getHandler, clear, applyUpdate, applyUpdate'. by rewrite Hk.
Qed.

(** X14: [clear] of a key whose stream nobody has subscribed to yet only
    takes the key out of the registry: [clear$.next()] finds no observer,
    nothing is completed and the pipeline is not stopped. Whoever holds the
    stream can still subscribe, which starts the pipeline, and an [update]
    somebody kept then calls the query function; a second [clear] of the
    key cannot reach that pipeline any more. *)
Theorem clear_before_first_subscription st k h p :
  getHandler k st = Some h →
  pipes st !! h = Some p →
  connected p = false →
  let st1 := clear k st in
  st1 = with_streams (Map_delete k) st
  ∧ ∀ o, let st2 := subscribe (Stream h) o st1 in
         clear k st2 = st2
         ∧ (stopped p = false → throttled h st = false → replay p = None →
            delivered st2 = delivered st
            ∧ ∀ payload,
                queried (update h payload st2) = queried st ++ [(queryOnce p, payload)]).
Proof.
  intros Hk Hp Hc st1. unfold getHandler in Hk.
  assert (Hst1 : st1 = with_streams (Map_delete k) st).
  { subst st1. unfold clear. rewrite Hk. unfold clear_next. by rewrite Hp, Hc. }
  split; [done|]. intros o st2.
  assert (Hk2 : Map_get k (streams st2) = None).
  { subst st2. rewrite Hst1. simpl. unfold subscribe_stream. simpl. rewrite Hp.
    simpl.
    assert (Hstr : ∀ ob n st0, streams (notify ob n st0) = streams st0).
    { intros ob n st0. destruct ob as [o'|r]; simpl; [done|].
      unfold race_close. by repeat case_match. }
    repeat case_match; simpl; rewrite ?Hstr; simpl; rewrite ?Hstr; simpl;
      apply Map_get_delete. }
  split.
  - unfold clear. by rewrite Hk2.
  - intros Hs Hth Hr. subst st2. rewrite Hst1. simpl.
    unfold subscribe_stream. simpl. rewrite Hp, Hs, Hr. simpl.
    split; [done|]. intros payload.
    rewrite (update_passes _ _ _ (set_connected (add_observer (Subscriber o) p)));
      [done| |done..].
    simpl. by rewrite !list_lookup_alter_eq, Hp.
Qed.

Lemma clear_before_first_subscription_witness :
  let st := snd (registerStream' "x" 9 None empty) in
  let st2 := subscribe (Stream 0) 1 (clear "x" st) in
  queried (update 0 (Num 5) st2) = [(9%nat, Num 5)].
Proof.
  intros st st2.
  destruct (clear_before_first_subscription st "x" 0
              {| queryOnce := 9; updateThrottleTime := 1000; connected := false;
                 stopped := false; replay := None; stream_observers := [] |}
              eq_refl eq_refl eq_refl) as (_ & H).
  destruct (H 1%nat) as (_ & H2).
  exact (proj2 (H2 eq_refl eq_refl eq_refl) (Num 5)).
Defined.

(** The pipeline after a value. *)
Lemma emit_pipe h p v st :
  pipes st !! h = Some p →
  ∃ p', pipes (emit h v st) !! h = Some p' ∧ view p' = view (set_replay v p).
Proof.
  intros Hp. unfold emit. rewrite Hp.
  apply (quiet_pipe 0 (with_pipes (alter (set_replay v) h) st)).
  - by apply quiet_notify_all.
  - simpl. by rewrite list_lookup_alter_eq, Hp.
Qed.

(** X15: after a query of a stream has given a value, who subscribes to
    the stream is told that value at once. The subscription calls no query
    function, opens no query and sets no timer, and the new subscriber is
    an observer of the stream from then on. *)
Theorem late_subscriber_gets_replay st h p i v o :
  pipes st !! h = Some p →
  stopped p = false →
  queries st !! i = Some {| q_stream := h; q_closed := false |} →
  let st1 := query_emit i (Next v) st in
  let st2 := subscribe (Stream h) o st1 in
  delivered st2 = delivered st1 ++ [(o, Next v)]
  ∧ queried st2 = queried st
  ∧ queries st2 = queries st
  ∧ timers st2 = timers st1
  ∧ ∃ p2, pipes st2 !! h = Some p2
          ∧ Subscriber o ∈ stream_observers p2
          ∧ connected p2 = true ∧ replay p2 = Some v.
Proof.
  intros Hp Hs Hi st1 st2.
  assert (Hst1 : st1 = emit h v st).
  { subst st1. unfold query_emit. by rewrite Hi. }
  destruct (emit_pipe h p v st Hp) as (p1 & Hp1 & Hv1).
  rewrite <- Hst1 in Hp1.
  destruct (view_fields _ _ Hv1) as (_ & _ & _ & Hs1 & Hr1 & _).
  simpl in Hs1, Hr1. rewrite Hs in Hs1.
  assert (Hq : quiet 0 (with_pipes (alter (set_replay v) h) st) st1).
  { rewrite Hst1. unfold emit. rewrite Hp. by apply quiet_notify_all. }
  subst st2. simpl. unfold subscribe_stream. rewrite Hp1, Hs1, Hr1. simpl.
  split_and!; try done.
  - apply (quiet_queried _ _ _ Hq).
  - apply (quiet_queries _ _ _ Hq).
  - eexists. rewrite !list_lookup_alter_eq, Hp1. simpl. split; [done|].
    split_and!; try done.
    apply elem_of_app. right. by apply list_elem_of_singleton.
Qed.

Lemma late_subscriber_gets_replay_witness :
  let st :=
    at_time 0 (applyUpdate "x" Undefined)
      (subscribe (Stream 0) 1 (snd (registerStream' "x" 9 None empty))) in
  delivered (subscribe (Stream 0) 2 (query_emit 0 (Next (Num 7)) st))
  = [(1%nat, Next (Num 7)); (2%nat, Next (Num 7))].
Proof.
  intros st.
  exact (proj1 (late_subscriber_gets_replay st 0
                  {| queryOnce := 9; updateThrottleTime := 1000; connected := true;
                     stopped := false; replay := None;
                     stream_observers := [Subscriber 1] |}
                  0 (Num 7) 2 eq_refl eq_refl eq_refl)).
Defined.


(** ** The race of [applyUpdate$] *)

Lemma pending_true tm st : pending tm st = true ↔ ∃ d, (d, tm) ∈ timers st.
Proof.
  unfold pending. rewrite bool_decide_eq_true, list_elem_of_fmap. split.
  - intros ([d tm'] & Heq & Hin). simpl in Heq. subst tm'. by exists d.
  - intros [d Hin]. by exists (d, tm).
Qed.

Lemma pending_false tm st : pending tm st = false ↔ ∀ d, (d, tm) ∉ timers st.
Proof.
  rewrite <- not_true_iff_false, pending_true. split.
  - intros Hno d Hin. apply Hno. by exists d.
  - intros Hno [d Hin]. by apply (Hno d).
Qed.

(** Subscribing to the race on a stream that is not cleared: the two
    timers are set, the first arm becomes an observer of the stream, and
    that is all; a replayed value is skipped. *)
Lemma subscribe_race h p w o st :
  pipes st !! h = Some p →
  stopped p = false →
  let r := length (races st) in
  subscribe (Race h w) o st
  = schedule w (RaceTimeout r)
      (with_pipes (alter set_connected h)
         (with_pipes (alter (add_observer (RaceArm r)) h)
            (schedule 1 (RaceGate r)
               (with_races
                  (fun l => l ++ [{| r_stream := h; r_subscriber := o; r_closed := false |}])
                  st)))).
Proof.
  intros Hp Hs r. unfold subscribe. fold r.
  set (st0 := schedule 1 (RaceGate r) (with_races _ st)).
  assert (Hr0 : ∀ st', races st' = races st0 →
                       races st' !! r = Some {| r_stream := h; r_subscriber := o; r_closed := false |}).
  { intros st' ->. simpl. by rewrite lookup_app_r, Nat.sub_diag. }
  assert (Hgate : ∀ st', timers st' = timers st0 → taking r st' = false).
  { intros st' Ht. unfold taking. apply negb_false_iff, pending_true.
    exists (now st + Z.max 0 1). rewrite Ht. simpl. apply elem_of_enqueue. by left. }
  unfold subscribe_stream.
  assert (Hp0 : pipes st0 !! h = Some p) by done. rewrite Hp0, Hs.
  set (st1 := with_pipes (alter (add_observer (RaceArm r)) h) st0).
  assert (Hskip : match replay p with
                  | Some v => notify (RaceArm r) (Next v) st1
                  | None => st1
                  end = st1).
  { destruct (replay p); [|done]. unfold notify.
    rewrite (Hr0 st1) by done. cbn [r_closed]. by rewrite (Hgate st1). }
  rewrite Hskip. rewrite (Hr0 (with_pipes (alter set_connected h) st1)) by done.
  done.
Qed.

(** Telling an observer other than the first arm of race [r] leaves the
    race and its timers as they are. *)
Lemma race_close_other r r' st :
  r' ≠ r →
  races (race_close r' st) !! r = races st !! r
  ∧ (∀ d tm, tm = RaceGate r ∨ tm = RaceTimeout r →
             ((d, tm) ∈ timers (race_close r' st) ↔ (d, tm) ∈ timers st)).
Proof.
  intros Hne. unfold race_close. destruct (races st !! r') as [rc|]; [|done].
  simpl. split.
  - by rewrite list_lookup_insert_ne.
  - intros d tm Htm. rewrite !list_elem_of_filter. simpl.
    split; [tauto|]. intros Hin. split_and!; [| |done];
      destruct Htm as [-> | ->]; congruence.
Qed.

Lemma notify_other r ob n st :
  ob ≠ RaceArm r →
  races (notify ob n st) !! r = races st !! r
  ∧ (∀ d tm, tm = RaceGate r ∨ tm = RaceTimeout r →
             ((d, tm) ∈ timers (notify ob n st) ↔ (d, tm) ∈ timers st)).
Proof.
  intros Hne. destruct ob as [o|r']; simpl; [done|].
  assert (r' ≠ r) by congruence.
  destruct (races st !! r') as [rc|]; [|done].
  destruct (r_closed rc); [done|].
  destruct n as [v|e|]; [destruct (taking r' st); [|done]|..]; simpl;
    by apply race_close_other.
Qed.

Lemma fire_other r tm st :
  tm ≠ RaceTimeout r →
  races (fire tm st) !! r = races st !! r
  ∧ (∀ d tm', tm' = RaceGate r ∨ tm' = RaceTimeout r →
              ((d, tm') ∈ timers (fire tm st) ↔ (d, tm') ∈ timers st)).
Proof.
  intros Hne. destruct tm as [h|r'|r']; simpl; try done.
  assert (r' ≠ r) by congruence.
  destruct (races st !! r') as [rc|]; [|done].
  destruct (r_closed rc); [done|]. simpl. by apply race_close_other.
Qed.

(** While the 1 ms timer of a race is pending, values told to the
    observers of a stream leave the race open and its timers pending. *)
Lemma notify_all_gated r (rc : RaceSubscription) (obs : list Observer) v st d :
  races st !! r = Some rc →
  (d, RaceGate r) ∈ timers st →
  races (notify_all obs (Next v) st) !! r = Some rc
  ∧ (∀ d' tm, tm = RaceGate r ∨ tm = RaceTimeout r →
              ((d', tm) ∈ timers (notify_all obs (Next v) st) ↔ (d', tm) ∈ timers st)).
Proof.
  unfold notify_all. revert st. induction obs as [|ob obs IH]; intros st Hr Hg; simpl.
  - done.
  - assert (H1 : races (notify ob (Next v) st) !! r = races st !! r
                 ∧ (∀ d' tm, tm = RaceGate r ∨ tm = RaceTimeout r →
                      ((d', tm) ∈ timers (notify ob (Next v) st) ↔ (d', tm) ∈ timers st))).
    { destruct (decide (ob = RaceArm r)) as [->|Hne]; [|by apply notify_other].
      simpl. rewrite Hr.
      assert (Ht : taking r st = false).
      { unfold taking. apply negb_false_iff, pending_true. by exists d. }
      rewrite Ht. by destruct (r_closed rc). }
    destruct H1 as [Hr1 Ht1].
    destruct (IH (notify ob (Next v) st)) as [Hr2 Ht2].
    + by rewrite Hr1.
    + apply Ht1; auto.
    + split; [done|]. intros d' tm Htm. rewrite Ht2 by done. by apply Ht1.
Qed.

(** X16: [applyUpdate$] on a known key pushes the request as
    [applyUpdate] does, and the race it returns does nothing until it is
    subscribed. Subscribing to it, on a stream that is not cleared, tells
    the subscriber nothing, even when the stream has a value to replay,
    and starts the stream's pipeline if it was not started; a value that
    a query gives in that same tick, before the 1 ms timer of the race has
    fired, does not decide the race either: the race stays open with its
    [waitFor] timer pending. *)
Theorem race_skips_replay_and_same_tick_values st k h p payload w o i v :
  getHandler k st = Some h →
  let '(obs, st1) := applyUpdate' k payload w st in
  obs = Race h w
  ∧ st1 = applyUpdate k payload st
  ∧ (pipes st1 !! h = Some p → stopped p = false →
     queries st1 !! i = Some {| q_stream := h; q_closed := false |} →
     let r := length (races st1) in
     let st2 := subscribe obs o st1 in
     let st3 := query_emit i (Next v) st2 in
     delivered st2 = delivered st1
     ∧ queried st2 = queried st1
     ∧ (∃ p2, pipes st2 !! h = Some p2 ∧ connected p2 = true
              ∧ RaceArm r ∈ stream_observers p2)
     ∧ races st3 !! r = Some {| r_stream := h; r_subscriber := o; r_closed := false |}
     ∧ pending (RaceTimeout r) st3 = true).
Proof.
  intros Hk. unfold applyUpdate', applyUpdate. unfold getHandler in Hk. rewrite Hk.
  split; [done|]. split; [done|].
  set (st1 := update h payload st). intros Hp Hs Hi.
  set (r := length (races st1)).
  pose proof (subscribe_race h p w o st1 Hp Hs) as Hst2. fold r in Hst2.
  set (st2 := subscribe (Race h w) o st1) in *.
  assert (Hp2 : pipes st2 !! h = Some (set_connected (add_observer (RaceArm r) p))).
  { rewrite Hst2. simpl. by rewrite !list_lookup_alter_eq, Hp. }
  split_and!; try by rewrite Hst2.
  - eexists. split; [exact Hp2|]. simpl. split; [done|].
    apply elem_of_app. right. by apply list_elem_of_singleton.
  - unfold query_emit. replace (queries st2) with (queries st1) by by rewrite Hst2.
    rewrite Hi. simpl. unfold emit. rewrite Hp2.
    apply (notify_all_gated r _ _ v _ (now st1 + Z.max 0 1)).
    + rewrite Hst2. simpl. by rewrite lookup_app_r, Nat.sub_diag.
    + rewrite Hst2. simpl. rewrite !elem_of_enqueue. right. by left.
  - unfold query_emit. replace (queries st2) with (queries st1) by by rewrite Hst2.
    rewrite Hi. simpl. unfold emit. rewrite Hp2.
    apply pending_true. exists (now st1 + Z.max 0 w).
    eapply (notify_all_gated r _ _ v _ (now st1 + Z.max 0 1)).
    + rewrite Hst2. simpl. by rewrite lookup_app_r, Nat.sub_diag.
    + rewrite Hst2. simpl. rewrite !elem_of_enqueue. right. by left.
    + by right.
    + rewrite Hst2. simpl. rewrite !elem_of_enqueue. by left.
Qed.

Lemma race_skips_replay_and_same_tick_values_witness :
  let st :=
    query_emit 0 (Next (Num 1))
      (at_time 0 (applyUpdate "x" Undefined)
         (subscribe (Stream 0) 1 (snd (registerStream' "x" 9 None empty)))) in
  let '(obs, st1) := applyUpdate' "x" Undefined 500 st in
  delivered (query_emit 0 (Next (Num 2)) (subscribe obs 2 st1))
  = [(1%nat, Next (Num 1)); (1%nat, Next (Num 2))].
Proof.
  intros st.
  pose proof (race_skips_replay_and_same_tick_values st "x" 0
                {| queryOnce := 9; updateThrottleTime := 1000; connected := true;
                   stopped := false; replay := Some (Num 1);
                   stream_observers := [Subscriber 1] |}
                Undefined 500 2 0 (Num 2) eq_refl) as H.
  destruct (applyUpdate' "x" Undefined 500 st) as [obs st1] eqn:Heq.
  destruct H as (-> & -> & _). reflexivity.
Defined.






(** Ending another race leaves the arm of race [r] among the observers
    of its stream. *)
Lemma race_close_keeps_arm r r' h p st :
  r' ≠ r →
  pipes st !! h = Some p → RaceArm r ∈ stream_observers p →
  ∃ p', pipes (race_close r' st) !! h = Some p' ∧ RaceArm r ∈ stream_observers p'.
Proof.
  intros Hne Hp Hin. unfold race_close.
  destruct (races st !! r') as [rc|]; [|eauto]. simpl.
  destruct (decide (r_stream rc = h)) as [->|Hh].
  - rewrite list_lookup_alter_eq, Hp. simpl. eexists. split; [done|]. simpl.
    apply list_elem_of_filter. split; [congruence|done].
  - rewrite list_lookup_alter_ne by done. eauto.
Qed.

Lemma fire_keeps_arm r tm h p st :
  tm ≠ RaceTimeout r →
  pipes st !! h = Some p → RaceArm r ∈ stream_observers p →
  ∃ p', pipes (fire tm st) !! h = Some p' ∧ RaceArm r ∈ stream_observers p'.
Proof.
  intros Hne Hp Hin. destruct tm as [h'|r'|r']; simpl; eauto.
  assert (r' ≠ r) by congruence.
  destruct (races st !! r') as [rc|]; [|eauto].
  destruct (r_closed rc); [eauto|]. simpl. by apply (race_close_keeps_arm r r' h p).
Qed.

(** Until its [waitFor] timer is due, time passing leaves a race open,
    its timer pending and its arm among the observers of the stream. *)
Lemma run_timers_keeps_race fuel t st r (rc : RaceSubscription) h p :
  (∀ d, (d, RaceTimeout r) ∈ timers st → t < d) →
  races st !! r = Some rc →
  pipes st !! h = Some p → RaceArm r ∈ stream_observers p →
  races (run_timers fuel t st) !! r = Some rc
  ∧ (∀ d, (d, RaceTimeout r) ∈ timers st → (d, RaceTimeout r) ∈ timers (run_timers fuel t st))
  ∧ ∃ p', pipes (run_timers fuel t st) !! h = Some p' ∧ RaceArm r ∈ stream_observers p'.
Proof.
  revert st p. induction fuel as [|fuel IH]; intros st p Hlate Hr Hp Harm; simpl.
  - eauto.
  - destruct (list_find _ _) as [[j x]|] eqn:Hfind; [|eauto].
    apply list_find_Some in Hfind as (Hj & Hdue & _).
    set (st1 := with_now (Z.max (fst x)) (with_timers (delete j) st)).
    assert (Hx : snd x ≠ RaceTimeout r).
    { intros Heq. destruct x as [d tm]. simpl in *. subst tm.
      specialize (Hlate d). apply list_elem_of_lookup_2 in Hj.
      specialize (Hlate Hj). lia. }
    destruct (fire_other r (snd x) st1 Hx) as [Hr1 Ht1].
    destruct (fire_keeps_arm r (snd x) h p st1 Hx Hp Harm) as (p1 & Hp1 & Harm1).
    destruct (IH (fire (snd x) st1) p1) as (Hr2 & Ht2 & Hp2); try done.
    + intros d Hin. apply Ht1 in Hin; [|by right]. simpl in Hin.
      apply Hlate. by eapply list_elem_of_delete_inv.
    + by rewrite Hr1.
    + split; [done|]. split; [|done].
      intros d Hin. apply Ht2, Ht1; [by right|]. simpl.
      eapply elem_of_delete_other; [done..|].
      intros Heq. by rewrite <- Heq in Hx.
Qed.

(** A value told to the observers of a stream decides a race that is
    open, whose 1 ms timer has fired and whose arm is among them. *)
Lemma notify_all_decides r h o (obs : list Observer) v st :
  races st !! r = Some {| r_stream := h; r_subscriber := o; r_closed := false |} →
  pending (RaceGate r) st = false →
  RaceArm r ∈ obs →
  (o, Next (Bool true)) ∈ delivered (notify_all obs (Next v) st)
  ∧ (o, Complete) ∈ delivered (notify_all obs (Next v) st)
  ∧ pending (RaceTimeout r) (notify_all obs (Next v) st) = false.
Proof.
  unfold notify_all. revert st. induction obs as [|ob obs IH]; intros st Hr Hg Hin.
  - by apply elem_of_nil in Hin.
  - simpl. destruct (decide (ob = RaceArm r)) as [->|Hne].
    + set (st1 := notify (RaceArm r) (Next v) st).
      assert (Hst1 : st1 = deliver (tell o [Next (Bool true); Complete]) (race_close r st)).
      { subst st1. simpl. rewrite Hr. simpl. unfold taking. by rewrite Hg. }
      assert (Hq : quiet 0 st1 (foldl (fun st ob => notify ob (Next v) st) st1 obs))
        by by apply (quiet_notify_all 0 obs (Next v)).
      split_and!.
      * apply (quiet_delivered_mono _ _ _ _ Hq). rewrite Hst1. simpl.
        apply elem_of_app. right. apply elem_of_cons. by left.
      * apply (quiet_delivered_mono _ _ _ _ Hq). rewrite Hst1. simpl.
        apply elem_of_app. right. apply elem_of_cons. right.
        by apply list_elem_of_singleton.
      * apply pending_false. intros d Hd.
        apply (quiet_timers _ _ _ Hq) in Hd. rewrite Hst1 in Hd. simpl in Hd.
        unfold race_close in Hd. rewrite Hr in Hd. simpl in Hd.
        apply list_elem_of_filter in Hd as [Hd _]. by apply Hd.
    + apply elem_of_cons in Hin as [Heq|Hin]; [done|].
      destruct (notify_other r ob (Next v) st Hne) as [Hr1 Ht1].
      apply IH; [by rewrite Hr1| |done].
      apply pending_false. intros d Hd. apply Ht1 in Hd; [|by left].
      by apply (proj1 (pending_false _ _) Hg d).
Qed.

(** X18: a race subscribed on a stream that is not cleared is decided
    by the first value a query of the stream gives once the 1 ms timer of
    the race has fired and before [waitFor] has gone by: the subscriber of
    the race is told [true] and completion, and the [waitFor] timer is
    cancelled. No query function is called on the way. (The race gets the
    next free number [r]; no timer is pending for a race that does not
    exist yet.) *)
Theorem race_resolves_updated st h p w o t i v :
  pipes st !! h = Some p →
  stopped p = false →
  queries st !! i = Some {| q_stream := h; q_closed := false |} →
  let r := length (races st) in
  pending (RaceGate r) st = false →
  pending (RaceTimeout r) st = false →
  now st + 1 ≤ t < now st + w →
  let st2 := advance t (subscribe (Race h w) o st) in
  let st3 := query_emit i (Next v) st2 in
  (o, Next (Bool true)) ∈ delivered st3
  ∧ (o, Complete) ∈ delivered st3
  ∧ pending (RaceTimeout r) st3 = false
  ∧ queried st3 = queried st.
Proof.
  intros Hp Hs Hi r Hg Ht Htime st2 st3.
  pose proof (subscribe_race h p w o st Hp Hs) as Hst1. fold r in Hst1.
  set (st1 := subscribe (Race h w) o st) in *.
  assert (Hr1 : races st1 !! r = Some {| r_stream := h; r_subscriber := o; r_closed := false |}).
  { rewrite Hst1. simpl. by rewrite lookup_app_r, Nat.sub_diag. }
  assert (Hp1 : pipes st1 !! h = Some (set_connected (add_observer (RaceArm r) p))).
  { rewrite Hst1. simpl. by rewrite !list_lookup_alter_eq, Hp. }
  assert (Hlate : ∀ d, (d, RaceTimeout r) ∈ timers st1 → t < d).
  { intros d. rewrite Hst1. simpl. rewrite !elem_of_enqueue.
    intros [Heq|[Heq|Hin]]; [injection Heq as ->; lia | done |].
    by destruct (proj1 (pending_false _ _) Ht d). }
  assert (Harm : RaceArm r ∈ stream_observers (set_connected (add_observer (RaceArm r) p))).
  { simpl. apply elem_of_app. right. by apply list_elem_of_singleton. }
  destruct (run_timers_keeps_race (length (timers st1)) t st1 r _ h _ Hlate Hr1 Hp1 Harm)
    as (Hr2 & _ & (p2 & Hp2 & Harm2)).
  assert (Hg2 : pending (RaceGate r) st2 = false).
  { apply pending_false. intros d Hin.
    pose proof (advance_due _ _ _ Hin) as Hdue. simpl in Hdue.
    apply (quiet_timers _ _ _ (quiet_advance t st1)) in Hin.
    rewrite Hst1 in Hin. simpl in Hin. rewrite !elem_of_enqueue in Hin.
    destruct Hin as [Heq|[Heq|Hin]]; [done | injection Heq as ->; lia |].
    by destruct (proj1 (pending_false _ _) Hg d). }
  assert (Hi2 : queries st2 !! i = Some {| q_stream := h; q_closed := false |}).
  { subst st2. rewrite (quiet_queries _ _ _ (quiet_advance t st1)). by rewrite Hst1. }
  assert (Hst3 : st3 = notify_all (stream_observers p2) (Next v)
                         (with_pipes (alter (set_replay v) h) st2)).
  { subst st3. unfold query_emit. rewrite Hi2. simpl. unfold emit.
    unfold st2, advance. simpl. by rewrite Hp2. }
  destruct (notify_all_decides r h o (stream_observers p2) v
              (with_pipes (alter (set_replay v) h) st2)) as (H1 & H2 & H3); try done.
  rewrite Hst3. split_and!; try done.
  rewrite (quiet_queried 0 (with_pipes (alter (set_replay v) h) st2))
    by by apply quiet_notify_all.
  simpl. rewrite (quiet_queried _ _ _ (quiet_run_timers _ t st1)). by rewrite Hst1.
Qed.

Lemma race_resolves_updated_witness :
  let st :=
    at_time 0 (applyUpdate "x" Undefined)
      (subscribe (Stream 0) 1 (snd (registerStream' "x" 9 None empty))) in
  (2%nat, Next (Bool true))
  ∈ delivered (query_emit 0 (Next (Num 7)) (advance 40 (subscribe (Race 0 500) 2 st))).
Proof.
  intros st.
  exact (proj1 (race_resolves_updated st 0
                  {| queryOnce := 9; updateThrottleTime := 1000; connected := true;
                     stopped := false; replay := None;
                     stream_observers := [Subscriber 1] |}
                  500 2 40 0 (Num 7) eq_refl eq_refl eq_refl eq_refl eq_refl
                  ltac:(vm_compute; split; [discriminate | reflexivity]))).
Defined.

(** ** The throttle window *)





(** ** What no run of the registry does *)

Lemma silent_refl st : silent st st.
Proof.
  split; [done|]. exists []. split; [by rewrite app_nil_r|].
  intros o e H. by apply elem_of_nil in H.
Qed.

Lemma silent_trans st1 st2 st3 : silent st1 st2 → silent st2 st3 → silent st1 st3.
Proof.
  intros [Hq1 (ds1 & Hd1 & He1)] [Hq2 (ds2 & Hd2 & He2)]. split; [congruence|].
  exists (ds1 ++ ds2). split; [by rewrite Hd2, Hd1, app_assoc|].
  intros o e [H|H]%elem_of_app; [by eapply He1 | by eapply He2].
Qed.

Lemma silent_quiet t st st' : quiet t st st' → silent st st'.
Proof. intros Hq. split; [apply Hq | apply (quiet_delivered _ _ _ Hq)]. Qed.

Lemma silent_same st st' :
  queried st' = queried st → delivered st' = delivered st → silent st st'.
Proof.
  intros Hq Hd. split; [done|]. exists []. split; [by rewrite app_nil_r|].
  intros o e H. by apply elem_of_nil in H.
Qed.

Lemma silent_no_error st st' o e :
  silent st st' → (o, Error e) ∈ delivered st' → (o, Error e) ∈ delivered st.
Proof.
  intros [_ (ds & Hd & He)] Hin. rewrite Hd in Hin.
  apply elem_of_app in Hin as [Hin|Hin]; [done|]. by destruct (He o e).
Qed.

Lemma silent_subscribe_stream h ob st : silent st (subscribe_stream h ob st).
Proof.
  unfold subscribe_stream. destruct (pipes st !! h) as [p|]; [|apply silent_refl].
  set (st1 := if stopped p then st else with_pipes (alter (add_observer ob) h) st).
  set (st2 := match replay p with Some v => notify ob (Next v) st1 | None => st1 end).
  set (st3 := if stopped p then notify ob Complete st2 else st2).
  assert (H1 : silent st st1).
  { subst st1. destruct (stopped p); [apply silent_refl | by apply silent_same]. }
  assert (H2 : silent st1 st2).
  { subst st2. destruct (replay p); [|apply silent_refl].
    by apply (silent_quiet 0), quiet_notify. }
  assert (H3 : silent st2 st3).
  { subst st3. destruct (stopped p); [|apply silent_refl].
    by apply (silent_quiet 0), quiet_notify. }
  eapply silent_trans; [exact H1|]. eapply silent_trans; [exact H2|].
  eapply silent_trans; [exact H3|]. by apply silent_same.
Qed.

Lemma silent_clear_next h st : silent st (clear_next h st).
Proof.
  unfold clear_next. destruct (pipes st !! h) as [p|]; [|apply silent_refl].
  destruct (connected p && negb (stopped p)); [|apply silent_refl].
  set (st0 := with_pipes (alter set_stopped h) st).
  apply (silent_trans st st0); [by apply silent_same|].
  apply (silent_trans st0 (notify_all (stream_observers p) Complete st0));
    [by apply (silent_quiet 0), quiet_notify_all|].
  by apply silent_same.
Qed.

Lemma silent_emit h v st : silent st (emit h v st).
Proof.
  unfold emit. destruct (pipes st !! h) as [p|]; [|apply silent_refl].
  apply (silent_trans st (with_pipes (alter (set_replay v) h) st));
    [by apply silent_same | by apply (silent_quiet 0), quiet_notify_all].
Qed.

(** What telling observers adds to the log of deliveries: errors only if
    it is an error they are told. *)
Lemma race_close_log r st :
  queried (race_close r st) = queried st
  ∧ delivered (race_close r st) = delivered st.
Proof. unfold race_close. by destruct (races st !! r). Qed.

Lemma notify_log ob n st :
  queried (notify ob n st) = queried st
  ∧ ∃ ds, delivered (notify ob n st) = delivered st ++ ds
          ∧ ∀ o e, (o, Error e) ∈ ds → n = Error e.
Proof.
  assert (Hnil : queried st = queried st
                 ∧ ∃ ds, delivered st = delivered st ++ ds
                         ∧ ∀ o e, (o, Error e) ∈ ds → n = Error e).
  { split; [done|]. exists []. split; [by rewrite app_nil_r|].
    intros o e H. by apply elem_of_nil in H. }
  destruct ob as [o'|r]; simpl.
  - split; [done|]. exists [(o', n)]. split; [done|].
    intros o e H. apply list_elem_of_singleton in H. congruence.
  - destruct (races st !! r) as [rc|]; [|done].
    destruct (r_closed rc); [done|].
    destruct (race_close_log r st) as [Hq Hd].
    destruct n as [v|e'|]; [destruct (taking r st); [|done]|..]; simpl;
      rewrite Hq, Hd; (split; [done|]); eexists; (split; [done|]);
      intros o e H; simpl in H;
      repeat (apply elem_of_cons in H as [H|H]; [congruence|]);
      by apply elem_of_nil in H.
Qed.

Lemma notify_all_log (obs : list Observer) n st :
  queried (notify_all obs n st) = queried st
  ∧ ∃ ds, delivered (notify_all obs n st) = delivered st ++ ds
          ∧ ∀ o e, (o, Error e) ∈ ds → n = Error e.
Proof.
  unfold notify_all. revert st.
  induction obs as [|ob obs IH]; intros st; simpl.
  - split; [done|]. exists []. split; [by rewrite app_nil_r|].
    intros o e H. by apply elem_of_nil in H.
  - destruct (notify_log ob n st) as (Hq1 & ds1 & Hd1 & He1).
    destruct (IH (notify ob n st)) as (Hq2 & ds2 & Hd2 & He2).
    split; [congruence|]. exists (ds1 ++ ds2).
    split; [by rewrite Hd2, Hd1, app_assoc|].
    intros o e [H|H]%elem_of_app; [by eapply He1 | by eapply He2].
Qed.

(** A pipeline that ends with the error [e] tells no other error. *)
Lemma fail_log h (e : any) st :
  queried (fail h e st) = queried st
  ∧ ∃ ds, delivered (fail h e st) = delivered st ++ ds
          ∧ ∀ o (e' : any), (o, Error e') ∈ ds → e' = e.
Proof.
  unfold fail. destruct (pipes st !! h) as [p|].
  - destruct (notify_all_log (stream_observers p) (Error e) (with_pipes (alter reset h) st))
      as (Hq & ds & Hd & He).
    simpl. split; [done|]. exists ds. split; [done|].
    intros o e' Hin. specialize (He o e' Hin). congruence.
  - split; [done|]. exists []. split; [by rewrite app_nil_r|].
    intros o e' H. by apply elem_of_nil in H.
Qed.

(** No call was added to the log of calls. *)
Ltac no_call := exists []; rewrite app_nil_r; split; [done | simpl; lia].

(** No delivery was added to the log of deliveries. *)
Ltac no_delivery :=
  let H := fresh in
  exists []; rewrite app_nil_r; split; [done | intros ? ? H; by apply elem_of_nil in H].

Lemma update_log h payload st :
  delivered (update h payload st) = delivered st
  ∧ ∃ l, queried (update h payload st) = queried st ++ l ∧ (length l ≤ 1)%nat.
Proof.
  unfold update. destruct (pipes st !! h) as [p|]; [|split; [done|no_call]].
  destruct (connected p && negb (stopped p)); [|split; [done|no_call]].
  destruct (throttled h st); [split; [done|no_call]|].
  simpl. split; [done|]. exists [(queryOnce p, payload)]. split; [done | simpl; lia].
Qed.

Lemma update_throws_log h payload (e : any) st :
  (∃ l, queried (update_throws h payload e st) = queried st ++ l ∧ (length l ≤ 1)%nat)
  ∧ ∃ ds, delivered (update_throws h payload e st) = delivered st ++ ds
          ∧ ∀ o (e' : any), (o, Error e') ∈ ds → e' = e.
Proof.
  unfold update_throws. destruct (pipes st !! h) as [p|]; [|split; [no_call|no_delivery]].
  destruct (connected p && negb (stopped p)); [|split; [no_call|no_delivery]].
  destruct (throttled h st); [split; [no_call|no_delivery]|].
  destruct (fail_log h e (call_query (queryOnce p) payload st)) as (Hq & ds & Hd & He).
  split.
  - exists [(queryOnce p, payload)]. split; [done | simpl; lia].
  - by exists ds.
Qed.

(** What one step does to the two logs: a step that is no request calls
    no query function and delivers no error; a request calls at most one;
    and an error is delivered only by a request whose call of the query
    function throws it. *)
Lemma step_logs st (op : Op) :
  (is_request op = false → silent st (step st op))
  ∧ (is_request op = true →
     ∃ l, queried (step st op) = queried st ++ l ∧ (length l ≤ 1)%nat)
  ∧ ∃ ds, delivered (step st op) = delivered st ++ ds
          ∧ ∀ o (e : any), (o, Error e) ∈ ds → thrown op = Some e.
Proof.
  assert (Hsilent : is_request op = false → silent st (step st op)).
  { destruct op as [k q thr|k| |k payload|k payload w|k payload e|k payload w e|obs o|i n|t];
      simpl; intros Hreq; try done.
    - unfold registerStream'. destruct (Map_has k (streams st)); simpl;
        [apply silent_refl | by apply silent_same].
    - unfold clear. destruct (Map_get k (streams st)); [|apply silent_refl].
      eapply silent_trans; [apply silent_clear_next | by apply silent_same].
    - unfold clearAll.
      apply (silent_trans st (foldl (fun st h => clear_next h st) st (streams st).*2));
        [|by apply silent_same].
      generalize ((streams st).*2). intros hs. revert st.
      induction hs as [|h hs IH]; intros st; simpl; [apply silent_refl|].
      eapply silent_trans; [apply silent_clear_next | apply IH].
    - destruct obs as [h|h w|v]; simpl.
      + apply silent_subscribe_stream.
      + set (st0 := schedule 1 _ _).
        assert (H0 : silent st st0) by by apply silent_same.
        assert (H1 : silent st0 (subscribe_stream h (RaceArm (length (races st))) st0))
          by apply silent_subscribe_stream.
        destruct (races _ !! _) as [rc|]; [destruct (r_closed rc)|].
        * exact (silent_trans _ _ _ H0 H1).
        * eapply silent_trans; [exact H0|]. eapply silent_trans; [exact H1|].
          by apply silent_same.
        * exact (silent_trans _ _ _ H0 H1).
      + split; [done|]. eexists. split; [done|].
        intros o' e H. simpl in H.
        repeat (apply elem_of_cons in H as [H|H]; [discriminate H|]).
        by apply elem_of_nil in H.
    - unfold query_emit. destruct (queries st !! i) as [q|]; [|apply silent_refl].
      destruct (q_closed q); [apply silent_refl|].
      destruct n; [apply silent_emit | by apply silent_same..].
    - apply (silent_quiet t), quiet_advance. }
  split; [exact Hsilent|].
  destruct (is_request op) eqn:Hop.
  - destruct op as [k q thr|k| |k payload|k payload w|k payload e|k payload w e|obs o|i n|t];
      try discriminate Hop; simpl.
    + unfold applyUpdate. destruct (Map_get k (streams st)) as [h|].
      * destruct (update_log h payload st) as [Hd Hq].
        split; [done|]. rewrite Hd. no_delivery.
      * split; [intros _; no_call | no_delivery].
    + unfold applyUpdate'. destruct (Map_get k (streams st)) as [h|]; simpl.
      * destruct (update_log h payload st) as [Hd Hq].
        split; [done|]. rewrite Hd. no_delivery.
      * split; [intros _; no_call | no_delivery].
    + unfold applyUpdate_throws. destruct (Map_get k (streams st)) as [h|].
      * destruct (update_throws_log h payload e st) as [Hq (ds & Hd & He)].
        split; [done|]. exists ds. split; [done|].
        intros o e' Hin. by rewrite (He o e' Hin).
      * split; [intros _; no_call | no_delivery].
    + unfold applyUpdate'_throws. destruct (Map_get k (streams st)) as [h|]; simpl.
      * destruct (update_throws_log h payload e st) as [Hq (ds & Hd & He)].
        split; [done|]. exists ds. split; [done|].
        intros o e' Hin. by rewrite (He o e' Hin).
      * split; [intros _; no_call | no_delivery].
  - split; [done|]. destruct (Hsilent eq_refl) as [_ (ds & Hd & He)].
    exists ds. split; [done|]. intros o e Hin. by destruct (He o e).
Qed.

(** X20: the registry never takes back what it has told, and it tells an
    error only when a query function throws: whatever is done to it
    (registrations, clears, requests whose call of the query function
    returns or throws, subscriptions to the observables it handed out,
    time passing, and queries giving values, completing or failing), what
    has been delivered at the end is what had been delivered before,
    followed by notifications among which every error is one that the
    call of the query function threw in a request of the run. So a run in
    which no call of a query function throws delivers no error, whatever
    the observables of the queries do. *)
Theorem errors_come_from_throwing_queries_only (ops : list Op) st :
  ∃ ds, delivered (run ops st) = delivered st ++ ds
        ∧ (∀ o (e : any), (o, Error e) ∈ ds → ∃ op, op ∈ ops ∧ thrown op = Some e)
        ∧ (Forall (fun op => thrown op = None) ops → ∀ o (e : any), (o, Error e) ∉ ds).
Proof.
  assert (H : ∃ ds, delivered (run ops st) = delivered st ++ ds
                    ∧ ∀ o (e : any), (o, Error e) ∈ ds →
                                     ∃ op, op ∈ ops ∧ thrown op = Some e).
  { unfold run. revert st. induction ops as [|op ops IH]; intros st; simpl.
    - exists []. split; [by rewrite app_nil_r|].
      intros o e H. by apply elem_of_nil in H.
    - destruct (IH (step st op)) as (ds2 & Hd2 & He2).
      destruct (step_logs st op) as (_ & _ & ds1 & Hd1 & He1).
      exists (ds1 ++ ds2). split; [by rewrite Hd2, Hd1, app_assoc|].
      intros o e [Hin|Hin]%elem_of_app.
      + exists op. split; [apply elem_of_cons; by left | by eapply He1].
      + destruct (He2 o e Hin) as (op' & Hop' & Hth).
        exists op'. split; [apply elem_of_cons; by right | done]. }
  destruct H as (ds & Hd & He). exists ds. split_and!; [done..|].
  intros Hnone o e Hin. destruct (He o e Hin) as (op & Hop & Hth).
  rewrite Forall_forall in Hnone. specialize (Hnone op Hop). congruence.
Qed.

(** ** A query function that throws *)

Lemma view_notify ob n st : view <$> pipes (notify ob n st) = view <$> pipes st.
Proof.
  destruct ob as [o|r]; simpl; [done|].
  destruct (races st !! r) as [rc|]; [|done].
  destruct (r_closed rc); [done|].
  destruct n as [v|e|]; [destruct (taking r st); [|done]|..]; simpl;
    apply (quiet_pipes 0), quiet_race_close.
Qed.

(** Telling observers adds no observer to a stream that has none. *)
Lemma notify_no_observers h ob n st :
  stream_observers <$> pipes st !! h = Some [] →
  stream_observers <$> pipes (notify ob n st) !! h = Some [].
Proof.
  intros Hh. destruct ob as [o|r]; simpl; [done|].
  destruct (races st !! r) as [rc|] eqn:Hr; [|done].
  destruct (r_closed rc); [done|].
  assert (Hclose : stream_observers <$> pipes (race_close r st) !! h = Some []).
  { unfold race_close. rewrite Hr. simpl.
    destruct (decide (h = r_stream rc)) as [->|Hne].
    - rewrite list_lookup_alter_eq.
      destruct (pipes st !! r_stream rc) as [p|]; [|done].
      simpl in *. injection Hh as ->. done.
    - by rewrite list_lookup_alter_ne. }
  destruct n as [v|e|]; [destruct (taking r st); [|done]|..]; exact Hclose.
Qed.

Lemma notify_all_reset h (obs : list Observer) n st p :
  pipes st !! h = Some p → stream_observers p = [] →
  pipes (notify_all obs n st) !! h = Some p.
Proof.
  intros Hp Hobs.
  assert (H : view <$> pipes (notify_all obs n st) = view <$> pipes st
              ∧ stream_observers <$> pipes (notify_all obs n st) !! h = Some []).
  { assert (Hh : stream_observers <$> pipes st !! h = Some []) by by rewrite Hp; simpl; rewrite Hobs.
    clear Hp. unfold notify_all. revert st Hh.
    induction obs as [|ob obs IH]; intros st Hh; simpl; [done|].
    destruct (IH (notify ob n st)) as [H1 H2]; [by apply notify_no_observers|].
    split; [by rewrite H1, view_notify | done]. }
  destruct H as [Hview Hnone].
  assert (Hv : (view <$> pipes (notify_all obs n st)) !! h = Some (view p)).
  { by rewrite Hview, list_lookup_fmap, Hp. }
  rewrite list_lookup_fmap in Hv.
  destruct (pipes (notify_all obs n st) !! h) as [p'|]; [|done].
  simpl in Hv, Hnone. injection Hv as Hv. injection Hnone as Hnone.
  f_equal. destruct p', p. unfold view in Hv. simpl in *. congruence.
Qed.

(** Every subscriber among the observers is told, whatever it is that
    they are told. *)
Lemma notify_all_tells_any (obs : list Observer) o n st :
  Subscriber o ∈ obs → (o, n) ∈ delivered (notify_all obs n st).
Proof.
  unfold notify_all. revert st. induction obs as [|ob obs IH]; intros st Hin.
  - by apply elem_of_nil in Hin.
  - apply elem_of_cons in Hin as [<-|Hin]; simpl.
    + destruct (notify_all_log obs n (deliver [(o, n)] st)) as (_ & ds & Hd & _).
      unfold notify_all in Hd. rewrite Hd. simpl.
      rewrite <- app_assoc. apply elem_of_app. right. by left.
    + by apply IH.
Qed.

(** X27: a request on a stream that has been subscribed and not
    cleared, at a time [t] by which its throttle window is over, when the
    call of the query function throws [e]: the call is logged, every
    subscriber of the stream is told the error [e], and shareReplay
    resets: the stream has no observer and no replay value any more and
    is not connected, its queries are over and no throttle window is
    open. The registry still has the handler, but until somebody
    subscribes to the stream again every request on it is discarded
    without a trace. *)
Theorem throwing_query_resets_the_stream st k h p payload (e : any) t :
  getHandler k st = Some h →
  pipes st !! h = Some p →
  connected p = true →
  stopped p = false →
  (∀ d, (d, ThrottleEnd h) ∈ timers st → d ≤ t) →
  let st1 := at_time t (applyUpdate_throws k payload e) st in
  queried st1 = queried st ++ [(queryOnce p, payload)]
  ∧ (∀ o, Subscriber o ∈ stream_observers p → (o, Error e) ∈ delivered st1)
  ∧ pipes st1 !! h = Some (reset p)
  ∧ throttled h st1 = false
  ∧ (∀ i q, queries st1 !! i = Some q → q_stream q = h → q_closed q = true)
  ∧ getHandler k st1 = Some h
  ∧ ∀ payload' e', update h payload' st1 = st1 ∧ update_throws h payload' e' st1 = st1.
Proof.
  intros Hk Hp Hc Hs Hover st1. subst st1. unfold at_time, applyUpdate_throws.
  unfold getHandler in *.
  pose proof (quiet_advance t st) as Hq.
  assert (Hth : throttled h (advance t st) = false).
  { apply throttled_false. intros d Hin.
    pose proof (advance_due _ _ _ Hin) as Hdue. simpl in Hdue.
    apply (quiet_timers _ _ _ Hq) in Hin. specialize (Hover d Hin). lia. }
  remember (advance t st) as sta eqn:Hsta. clear Hsta.
  destruct (quiet_pipe _ _ _ _ _ Hq Hp) as (p' & Hp' & Hview).
  destruct (view_fields _ _ Hview) as (Hqo & Hthr & Hc' & Hs' & _ & Hobs).
  rewrite (quiet_streams _ _ _ Hq), Hk.
  unfold update_throws. rewrite Hp', Hc', Hc, Hs', Hs, Hth. simpl.
  set (stq := call_query (queryOnce p') payload sta).
  assert (Hreset : reset p' = reset p) by (unfold reset; by rewrite Hqo, Hthr).
  unfold fail. replace (pipes stq !! h) with (Some p') by done.
  set (st0 := with_pipes (alter reset h) stq).
  assert (Hp0 : pipes st0 !! h = Some (reset p)).
  { simpl. by rewrite list_lookup_alter_eq, Hp', <- Hreset. }
  pose proof (notify_all_reset h (stream_observers p') (Error e) st0 (reset p) Hp0 eq_refl)
    as Hp1.
  destruct (notify_all_log (stream_observers p') (Error e) st0) as (Hq1 & _).
  set (st1 := notify_all (stream_observers p') (Error e) st0) in *.
  assert (Hstreams : streams st1 = streams st).
  { rewrite <- (quiet_streams _ _ _ Hq). subst st1. unfold notify_all.
    generalize (stream_observers p'). intros obs.
    assert (H : ∀ st', streams (foldl (fun st ob => notify ob (Error e) st) st' obs)
                       = streams st').
    { induction obs as [|ob obs IH]; intros st'; simpl; [done|]. rewrite IH.
      destruct ob as [o|r]; simpl; [done|].
      destruct (races st' !! r) as [rc|]; [|done]. destruct (r_closed rc); [done|].
      simpl. unfold race_close. by destruct (races st' !! r). }
    by rewrite H. }
  assert (Hno : throttled h (cancel (ThrottleEnd h)
                  (with_queries
                     (fmap (fun q => if bool_decide (q_stream q = h)
                                     then {| q_stream := h; q_closed := true |} else q))
                     st1)) = false).
  { apply throttled_false. intros d Hin. apply elem_of_cancel in Hin as [_ Hne]. done. }
  set (st2 := cancel _ _) in *.
  assert (Hp2 : pipes st2 !! h = Some (reset p)) by done.
  split_and!.
  - simpl. rewrite Hq1. simpl. by rewrite (quiet_queried _ _ _ Hq), Hqo.
  - intros o Hin. simpl. apply notify_all_tells_any. by apply Hobs.
  - done.
  - done.
  - intros i q Hi Hh. simpl in Hi. rewrite list_lookup_fmap in Hi.
    destruct (queries st1 !! i) as [q0|]; [|done]. simpl in Hi.
    destruct (bool_decide (q_stream q0 = h)) eqn:Hb.
    + by injection Hi as <-.
    + injection Hi as <-. by apply bool_decide_eq_false in Hb.
  - simpl. by rewrite Hstreams.
  - intros payload' e'. split.
    + apply (update_dropped _ _ _ (reset p)); [done | by left].
    + unfold update_throws. by rewrite Hp2.
Qed.

Lemma throwing_query_resets_the_stream_witness :
  let st := subscribe (Stream 0) 1 (snd (registerStream' "feed" 9 None empty)) in
  let st1 := at_time 0 (applyUpdate_throws "feed" Undefined (Str "down")) st in
  (1%nat, Error (Str "down")) ∈ delivered st1
  ∧ update 0 Undefined st1 = st1.
Proof.
  intros st st1.
  assert (Hover : ∀ d, (d, ThrottleEnd 0) ∈ timers st → d ≤ 0).
  { intros d Hin. vm_compute in Hin. by apply elem_of_nil in Hin. }
  destruct (throwing_query_resets_the_stream st "feed" 0
              {| queryOnce := 9; updateThrottleTime := 1000; connected := true;
                 stopped := false; replay := None;
                 stream_observers := [Subscriber 1] |}
              Undefined (Str "down") 0 eq_refl eq_refl eq_refl eq_refl Hover)
    as (_ & Htold & _ & _ & _ & _ & Hdrop).
  split.
  - apply Htold. simpl. apply list_elem_of_singleton. reflexivity.
  - exact (proj1 (Hdrop Undefined Undefined)).
Defined.

(** X21: query functions are called for requests only: a step that is
    not [applyUpdate] or [applyUpdate$] leaves the log of calls as it is,
    a request adds at most one call, and so over any run there are at most
    as many calls as requests. *)
Theorem every_query_call_has_a_request (ops : list Op) st :
  (length (queried (run ops st))
   ≤ length (queried st) + length (filter (fun op => is_request op = true) ops))%nat
  ∧ ∀ op, is_request op = false → queried (step st op) = queried st.
Proof.
  split.
  - unfold run. revert st. induction ops as [|op ops IH]; intros st; simpl; [lia|].
    specialize (IH (step st op)). rewrite filter_cons.
    destruct (step_logs st op) as (Hsilent & Hreq & _).
    destruct (decide (is_request op = true)) as [Hop|Hop].
    + destruct (Hreq Hop) as (l & Hl & Hlen). rewrite Hl, length_app in IH.
      simpl. lia.
    + apply not_true_is_false in Hop. destruct (Hsilent Hop) as [Hq _].
      rewrite Hq in IH. lia.
  - intros op Hop. by destruct (proj1 (step_logs st op) Hop).
Qed.

(** ** Queries that overlap *)





(** ** [clearAll] *)

Lemma Map_get_elem {A} key (a : A) (m : list (string * A)) :
  Map_get key m = Some a → a ∈ m.*2.
Proof.
  induction m as [|[k b] m IH]; simpl; [done|].
  destruct (bool_decide (k = key)).
  - intros [= ->]. apply elem_of_cons. by left.
  - intros H. apply elem_of_cons. right. by apply IH.
Qed.

Lemma clear_next_other h0 h p st :
  h0 ≠ h → pipes st !! h = Some p →
  ∃ p', pipes (clear_next h0 st) !! h = Some p' ∧ view p' = view p.
Proof.
  intros Hne Hp. unfold clear_next.
  destruct (pipes st !! h0) as [p0|]; [|eauto].
  destruct (connected p0 && negb (stopped p0)); [|eauto]. simpl.
  apply (quiet_pipe 0 (with_pipes (alter set_stopped h0) st)).
  - by apply quiet_notify_all.
  - simpl. by rewrite list_lookup_alter_ne.
Qed.

Lemma clear_next_mono h st (x : Delivery) :
  x ∈ delivered st → x ∈ delivered (clear_next h st).
Proof.
  intros Hin. destruct (silent_clear_next h st) as [_ (ds & -> & _)].
  apply elem_of_app. by left.
Qed.

Lemma clear_all_tells (hs : list nat) h p o st :
  h ∈ hs → pipes st !! h = Some p →
  connected p = true → stopped p = false →
  Subscriber o ∈ stream_observers p →
  (o, Complete) ∈ delivered (foldl (fun st h => clear_next h st) st hs).
Proof.
  revert st p. induction hs as [|h0 hs IH]; intros st p Hin Hp Hc Hs Ho.
  - by apply elem_of_nil in Hin.
  - simpl. destruct (decide (h0 = h)) as [->|Hne].
    + destruct (clear_next_live h p st Hp Hc Hs) as (_ & _ & Htold & _).
      assert (Hmono : ∀ (l : list nat) st0 (x : Delivery),
                 x ∈ delivered st0 →
                 x ∈ delivered (foldl (fun st h => clear_next h st) st0 l)).
      { induction l as [|h1 l IHl]; intros st0 x Hx; simpl; [done|].
        by apply IHl, clear_next_mono. }
      by apply Hmono, Htold.
    + apply elem_of_cons in Hin as [Heq|Hin]; [congruence|].
      destruct (clear_next_other h0 h p st Hne Hp) as (p' & Hp' & Hv).
      destruct (view_fields _ _ Hv) as (_ & _ & Hc' & Hs' & _ & Hobs).
      apply (IH _ p'); [done..|congruence|congruence|by apply Hobs].
Qed.

(** X23: [clearAll] leaves no handler in the registry, and completes
    every subscriber of every registered stream that was subscribed and
    not yet cleared. It calls no query function and tells no error; after
    it requests for any key are dropped and any key can be registered. *)
Theorem clearAll_tears_everything_down st :
  let st1 := clearAll st in
  (∀ k, getHandler k st1 = None)
  ∧ (∀ k h p o,
       getHandler k st = Some h → pipes st !! h = Some p →
       connected p = true → stopped p = false →
       Subscriber o ∈ stream_observers p →
       (o, Complete) ∈ delivered st1)
  ∧ queried st1 = queried st
  ∧ (∀ o (e : any), (o, Error e) ∈ delivered st1 → (o, Error e) ∈ delivered st)
  ∧ (∀ k payload, applyUpdate k payload st1 = st1)
  ∧ ∀ k q thr, fst (registerStream' k q thr st1) = inr (length (pipes st1)).
Proof.
  intros st1. split_and!.
  - done.
  - intros k h p o Hk Hp Hc Hs Ho. unfold getHandler in Hk.
    subst st1. unfold clearAll. simpl.
    apply (clear_all_tells _ h p); [by eapply Map_get_elem | done..].
  - destruct (proj1 (step_logs st OpClearAll) eq_refl) as [Hq _]. exact Hq.
  - intros o e. apply (silent_no_error st (step st OpClearAll)).
    by apply (proj1 (step_logs st OpClearAll)).
  - done.
  - done.
Qed.

End StreamServiceMore.

(** * Fetched values in the cache *)

Section CacheServiceFetches.
Import CacheService.

(** X24: the value of a fetch is cached with the time at which it came,
    not the time of the [get] that started the fetch. Until that time plus
    the ttl, [get] yields it whatever fallback is passed; later, [get]
    with a fallback deletes the entry and returns a new deferred fetch,
    the key being no longer in flight. *)
Theorem fetched_value_is_served (st : state) (k : string) (i s o : nat)
    (obs : list nat) (v : any) (t : Z) (ttl : option Z) (now : Z) :
  in_flight k i s o obs st →
  let T := default DEFAULT_LIFE_TIME ttl in
  let st1 := source_emit i (Next v) t st in
  has k st1 = true
  ∧ (now ≤ t + T → ∀ fallback, get k fallback ttl now st1 = (Of v, st1))
  ∧ (t + T < now →
     ∀ fb, get k (Some fb) ttl now st1 = (Defer k fb, with_cache (delete k) st1)).
Proof.
  intros Hin T st1.
  destruct (fetch_resolves st k i s o obs v t Hin) as (_ & Hc & Hf).
  fold st1 in Hc, Hf. split_and!.
  - unfold has. rewrite Hc. by apply bool_decide_eq_true.
  - intros Hnow fallback. unfold get. fold T.
    by rewrite (validCachedValue_fresh _ _ _ _ _ Hc).
  - intros Hnow fb. unfold get. fold T.
    rewrite (validCachedValue_stale _ _ _ _ _ Hc) by done. simpl. by rewrite Hf.
Qed.

Lemma fetched_value_is_served_witness :
  let st := get_subscribe "k" (Some 7%nat) (Some 10) 0 1%nat empty in
  let st1 := source_emit 0 (Next (Num 5)) 50 st in
  get "k" None (Some 10) 60 st1 = (Of (Num 5), st1).
Proof.
  intros st st1.
  assert (Hin : in_flight "k" 0 0 1 [] st) by (repeat split; reflexivity).
  destruct (fetched_value_is_served st "k" 0 0 1 [] (Num 5) 50 (Some 10) 60 Hin)
    as (_ & H & _).
  exact (H ltac:(simpl; lia) None).
Defined.

End CacheServiceFetches.
